(** * Robin Hood hash table ([src/hash_map.h]): model and properties

    A shallow embedding of the class template [HashMap<KeyType, ValueType, Hash>].

    Conventions of the embedding.
    - [size_t] quantities (indices, counters, capacities, hash values) are
      natural numbers.  Every index the code forms is below twice the
      capacity and every counter is bounded by the capacity, so the 64-bit
      wrap-around is out of reach for any slot array that fits in memory; the
      one subtraction, in [size], is shown to be exact in every reachable
      state ([Inv_dead_le_all]).
    - The [int] variable [insert_index] of [insert] is an integer, with the
      two conversions ([static_cast<int>] and the conversion back to
      [size_t]) written out.
    - [std::vector<Node>] is a [list Node]; [data_[i]] is the total lookup
      [data_ !!! i] and an assignment to [data_[i]] the list update
      [<[i := _]>].  Out-of-range accesses are undefined in C++; the
      well-formedness part of the invariant shows that none happens in the
      loops of [insert], [erase], [find] and [resize].  The iterator that
      [insert] returns, and [operator[]] dereferences, has gone through
      [int]: it is a slot only while slot indices are below 2^31, and a
      sequence of calls has a result only if every write [map[k] = v] is to
      a slot ([step]).
    - [operator==] on keys is the decidable equality of the key type.
    - The comparison [buffer_size_ * load_factor_ < cnt_all_] with
      [load_factor_ = 0.5] is [buffer_size_ < 2 * cnt_all_]. *)

From Stdlib Require Import ZArith Lia.
From stdpp Require Import base decidable option list gmap fin_maps fin_sets.

Set Default Proof Using "Type*".

(** Which [return] statement a probe loop left through. *)
Inductive scan_exit : Set :=
| ReturnMatch   (* the [return] under the key comparison *)
| ReturnEmpty   (* the [return] under [status == -1] *)
| FallThrough.  (* the [return] after the [for] loop *)

(** The exception raised by [at]: [std::out_of_range]. *)
Inductive error : Set := KeyNotFound.

(** [static_cast<int>(index)] for a [size_t] index (two's complement, 32 bits). *)
Definition int_of_size_t (index : nat) : Z :=
  let r := (Z.of_nat index mod 2 ^ 32)%Z in
  if (r <? 2 ^ 31)%Z then r else (r - 2 ^ 32)%Z.

(** Conversion of an [int] to [size_t] (64 bits). *)
Definition size_t_of_int (z : Z) : nat := Z.to_nat (z mod 2 ^ 64)%Z.

(** [KeyType] and [ValueType] are default-constructible: [Node()] and
    [operator[]] value-initialise them. *)
Class DefaultConstructible (A : Type) : Type := value_init : A.

Section HashMap.

Context {K V : Type} `{Countable K}.
Context `{DefaultConstructible K} `{DefaultConstructible V}.

Definition KvType : Type := K * V.

(** ** [struct Node] *)
Record Node : Type := mkNode {
  keyvalue : KvType;
  status : Z;
  dist_to_ideal : nat
}.

(** [Node()] *)
Definition Node_default : Node :=
  {| keyvalue := (value_init, value_init); status := -1; dist_to_ideal := 0 |}.

(** [Node(KvType p, size_t dist)] *)
Definition Node_of (p : KvType) (dist : nat) : Node :=
  {| keyvalue := p; status := 1; dist_to_ideal := dist |}.

#[global] Instance Node_inhabited : Inhabited Node := populate Node_default.

(** ** [class HashMap] : the private members *)
Record HashMap : Type := mkHashMap {
  hasher_ : K → nat;
  data_ : list Node;
  cnt_all_ : nat;
  cnt_dead_ : nat;
  buffer_size_ : nat
}.

Definition default_size_ : nat := 16.

Definition is_occupied (nd : Node) : bool := bool_decide (status nd = 1%Z).
Definition is_empty (nd : Node) : bool := bool_decide (status nd = (-1)%Z).

(** [explicit HashMap(Hash hasher_ = Hash())] *)
Definition HashMap_new (hasher : K → nat) : HashMap :=
  {| hasher_ := hasher;
     data_ := replicate default_size_ Node_default;
     cnt_all_ := 0;
     cnt_dead_ := 0;
     buffer_size_ := default_size_ |}.

(** [operator=]: every member of [other] is copied into [this]. *)
Definition operator_assign (this other : HashMap) : HashMap :=
  let this := mkHashMap (hasher_ other) (data_ this) (cnt_all_ this) (cnt_dead_ this) (buffer_size_ this) in
  let this := mkHashMap (hasher_ this) (data_ this) (cnt_all_ other) (cnt_dead_ this) (buffer_size_ this) in
  let this := mkHashMap (hasher_ this) (data_ this) (cnt_all_ this) (cnt_dead_ other) (buffer_size_ this) in
  let this := mkHashMap (hasher_ this) (data_ this) (cnt_all_ this) (cnt_dead_ this) (buffer_size_ other) in
  mkHashMap (hasher_ this) (data_ other) (cnt_all_ this) (cnt_dead_ this) (buffer_size_ this).

(** The members as the default member initialisers leave them, before a
    constructor body runs. *)
Definition HashMap_members_init (hasher : K → nat) : HashMap :=
  {| hasher_ := hasher; data_ := []; cnt_all_ := 0; cnt_dead_ := 0; buffer_size_ := 0 |}.

(** [HashMap(const HashMap& other)], with [hasher] the default-constructed [Hash]. *)
Definition HashMap_copy (hasher : K → nat) (other : HashMap) : HashMap :=
  operator_assign (HashMap_members_init hasher) other.

Definition size (t : HashMap) : nat := cnt_all_ t - cnt_dead_ t.

Definition empty (t : HashMap) : bool := bool_decide (cnt_all_ t - cnt_dead_ t = 0).

(** Iterators are slot indices into the table they were obtained from. *)
Definition end_ (t : HashMap) : nat := length (data_ t).

Definition get_hash (t : HashMap) (k : K) : nat := hasher_ t k mod buffer_size_ t.

Definition set_data (t : HashMap) (d : list Node) : HashMap :=
  mkHashMap (hasher_ t) d (cnt_all_ t) (cnt_dead_ t) (buffer_size_ t).

(** ** [insert]: the probe loop

    [n] counts the iterations that remain ([buffer_size_ - i]). *)
Fixpoint insert_loop (n i : nat) (t : HashMap) (key : K) (h1 : nat)
    (kv : KvType) (cur_dist_to_ideal : nat) (insert_index : Z)
    : HashMap * nat * scan_exit :=
  match n with
  | 0 => (t, buffer_size_ t, FallThrough)
  | S n' =>
    let index := (h1 + i) mod buffer_size_ t in
    if is_occupied (data_ t !!! index)
       && bool_decide ((keyvalue (data_ t !!! index)).1 = key)
    then (t, index, ReturnMatch)
    else
      (* balancing Rich and Poor elements *)
      let '(t, kv, cur_dist_to_ideal, insert_index) :=
        if is_occupied (data_ t !!! index)
           && bool_decide (dist_to_ideal (data_ t !!! index) < cur_dist_to_ideal)
        then
          let nd := data_ t !!! index in
          (set_data t (<[index := mkNode kv (status nd) cur_dist_to_ideal]> (data_ t)),
           keyvalue nd, dist_to_ideal nd,
           if bool_decide (insert_index = (-1)%Z) then int_of_size_t index else insert_index)
        else (t, kv, cur_dist_to_ideal, insert_index) in
      if is_empty (data_ t !!! index) then
        let insert_index :=
          if bool_decide (insert_index = (-1)%Z) then int_of_size_t index else insert_index in
        (mkHashMap (hasher_ t) (<[index := Node_of kv cur_dist_to_ideal]> (data_ t))
                   (S (cnt_all_ t)) (cnt_dead_ t) (buffer_size_ t),
         size_t_of_int insert_index, ReturnEmpty)
      else insert_loop n' (S i) t key h1 kv (S cur_dist_to_ideal) insert_index
  end.

(** ** [resize], with the [insert] it calls as a parameter

    [resize_step] is the body of the loop over the old slot array, applied to
    the element [data_2[i]]. *)
Definition resize_step (ins : HashMap → KvType → option (HashMap * nat))
    (acc : option HashMap) (nd : Node) : option HashMap :=
  match acc with
  | None => None
  | Some t => if is_occupied nd then fst <$> ins t (keyvalue nd) else Some t
  end.

Definition resize_with (ins : HashMap → KvType → option (HashMap * nat))
    (t : HashMap) : option HashMap :=
  if bool_decide (buffer_size_ t < 2 * cnt_all_ t) then
    let data_2 := data_ t in
    let t := mkHashMap (hasher_ t) (replicate (buffer_size_ t * 2) Node_default)
                       0 0 (buffer_size_ t * 2) in
    foldl (resize_step ins) (Some t) data_2
  else Some t.

(** ** [insert]

    [insert] and [resize] call each other; [fuel] bounds the depth of nested
    growth.  [None] means the bound was hit. *)
Fixpoint insert (fuel : nat) (t : HashMap) (kv : KvType) : option (HashMap * nat) :=
  match resize_with (match fuel with
                     | 0 => λ _ _, None
                     | S fuel' => insert fuel'
                     end) t with
  | None => None
  | Some t =>
    let key := kv.1 in
    let h1 := get_hash t key in
    Some (insert_loop (buffer_size_ t) 0 t key h1 kv 0 (-1)).1
  end.

Definition resize (fuel : nat) (t : HashMap) : option HashMap :=
  resize_with (match fuel with
               | 0 => λ _ _, None
               | S fuel' => insert fuel'
               end) t.

(** ** [erase] *)
Fixpoint erase_loop (n i : nat) (t : HashMap) (key : K) (h1 : nat)
    : HashMap * scan_exit :=
  match n with
  | 0 => (t, FallThrough)
  | S n' =>
    let index := (h1 + i) mod buffer_size_ t in
    let t :=
      if is_occupied (data_ t !!! index)
         && bool_decide ((keyvalue (data_ t !!! index)).1 = key)
      then
        let nd := data_ t !!! index in
        mkHashMap (hasher_ t)
                  (<[index := mkNode (keyvalue nd) 0 (dist_to_ideal nd)]> (data_ t))
                  (cnt_all_ t) (S (cnt_dead_ t)) (buffer_size_ t)
      else t in
    if is_empty (data_ t !!! index) then (t, ReturnEmpty)
    else erase_loop n' (S i) t key h1
  end.

Definition erase (t : HashMap) (key : K) : HashMap :=
  (erase_loop (buffer_size_ t) 0 t key (get_hash t key)).1.

(** ** [find] (the const and the non-const overload have the same body) *)
Fixpoint find_loop (n i : nat) (t : HashMap) (key : K) (h1 : nat) : nat * scan_exit :=
  match n with
  | 0 => (buffer_size_ t, FallThrough)
  | S n' =>
    let index := (h1 + i) mod buffer_size_ t in
    if is_occupied (data_ t !!! index)
       && bool_decide ((keyvalue (data_ t !!! index)).1 = key)
    then (index, ReturnMatch)
    else if is_empty (data_ t !!! index) then (buffer_size_ t, ReturnEmpty)
    else find_loop n' (S i) t key h1
  end.

Definition find (t : HashMap) (key : K) : nat :=
  (find_loop (buffer_size_ t) 0 t key (get_hash t key)).1.

(** ** [operator[]]: the table after the call and the slot whose value the
    returned reference denotes *)
Definition operator_index (fuel : nat) (t : HashMap) (key : K) : option (HashMap * nat) :=
  let it := find t key in
  if bool_decide (it = end_ t) then insert fuel t (key, value_init)
  else Some (t, it).

(** A write through a reference or an iterator: [it->second = v], for an
    iterator [it] below [data_.size()].  The source indexes [data_] without
    a check, so that the write is undefined for any other iterator; the
    calls below ([step], the commands of the program) give no result
    there. *)
Definition write_second (t : HashMap) (it : nat) (v : V) : HashMap :=
  set_data t (alter (λ nd, mkNode ((keyvalue nd).1, v) (status nd) (dist_to_ideal nd)) it (data_ t)).

(** ** [at] *)
Definition at_ (t : HashMap) (key : K) : error + V :=
  let it := find t key in
  if bool_decide (it = end_ t) then inl KeyNotFound
  else inr (keyvalue (data_ t !!! it)).2.

(** ** [clear] *)
Definition clear (t : HashMap) : HashMap :=
  operator_assign t (HashMap_new (hasher_ t)).

(** ** Slot-array invariants *)

Definition key_of (nd : Node) : K := (keyvalue nd).1.

(** The [j]-th slot of the probe sequence of [k] in a slot array [d]. *)
Definition probe (hf : K → nat) (d : list Node) (k : K) (j : nat) : nat :=
  (hf k + j) mod length d.

(** The first [c] slots of the probe sequence of [k] hold no empty slot and
    no occupied slot richer than its position in the sequence. *)
Definition chain_clear (hf : K → nat) (d : list Node) (k : K) (c : nat) : Prop :=
  ∀ j, j < c →
    status (d !!! probe hf d k j) ≠ (-1)%Z ∧
    (status (d !!! probe hf d k j) = 1%Z → j ≤ dist_to_ideal (d !!! probe hf d k j)).

Record slots_ok (hf : K → nat) (d : list Node) : Prop := mk_slots_ok {
  (* [dist_to_ideal] is the distance from the ideal slot *)
  ok_dist : ∀ s, s < length d → status (d !!! s) = 1%Z →
    dist_to_ideal (d !!! s) < length d ∧
    probe hf d (key_of (d !!! s)) (dist_to_ideal (d !!! s)) = s;
  (* the Robin Hood ordering along every probe chain *)
  ok_chain : ∀ s, s < length d → status (d !!! s) = 1%Z →
    chain_clear hf d (key_of (d !!! s)) (dist_to_ideal (d !!! s));
  (* every occupied key is unique *)
  ok_uniq : ∀ s1 s2, s1 < length d → s2 < length d →
    status (d !!! s1) = 1%Z → status (d !!! s2) = 1%Z →
    key_of (d !!! s1) = key_of (d !!! s2) → s1 = s2
}.

Definition count_nonempty (d : list Node) : nat :=
  length (filter (λ nd, status nd ≠ (-1)%Z) d).

Definition count_tombstone (d : list Node) : nat :=
  length (filter (λ nd, status nd ≠ (-1)%Z ∧ status nd ≠ 1%Z) d).

Definition count_occupied (d : list Node) : nat :=
  length (filter (λ nd, status nd = 1%Z) d).

(** Well-formedness of a table whose load is at most [load]. *)
Record table_ok (load : nat) (t : HashMap) : Prop := mk_table_ok {
  ok_length : length (data_ t) = buffer_size_ t;
  ok_capacity : default_size_ ≤ buffer_size_ t;
  ok_slots : slots_ok (hasher_ t) (data_ t);
  ok_all : cnt_all_ t = count_nonempty (data_ t);
  ok_dead : cnt_dead_ t = count_tombstone (data_ t);
  ok_load : 2 * cnt_all_ t ≤ load
}.

(** The invariant between two calls of the public interface: at most one
    placement since the last growth check. *)
Definition Inv (t : HashMap) : Prop := table_ok (buffer_size_ t + 2) t.

(** The probe-chain integrity invariant of the specification, stated on
    positions only: the wrapping run of slots from the ideal slot of an
    occupied key up to the slot that holds it has no empty slot. *)
Definition probe_chain_intact (t : HashMap) : Prop :=
  ∀ i, i < buffer_size_ t → status (data_ t !!! i) = 1%Z →
    let h := get_hash t (key_of (data_ t !!! i)) in
    ∀ j, j ≤ (i + buffer_size_ t - h) mod buffer_size_ t →
      status (data_ t !!! ((h + j) mod buffer_size_ t)) ≠ (-1)%Z.

(** ** The mapping a table represents *)

Definition holds (d : list Node) (k : K) (v : V) : Prop :=
  ∃ s, s < length d ∧ status (d !!! s) = 1%Z ∧ keyvalue (d !!! s) = (k, v).

Definition occupied_pairs (d : list Node) : list KvType :=
  keyvalue <$> filter (λ nd, status nd = 1%Z) d.

Definition contents (t : HashMap) : gmap K V := list_to_map (occupied_pairs (data_ t)).

(** What [find] returns, read as a value: [it == end() ? absent : it->second]. *)
Definition find_value (t : HashMap) (key : K) : option V :=
  let it := find t key in
  if bool_decide (it = end_ t) then None else Some (keyvalue (data_ t !!! it)).2.

(** ** [find] in the words of the specification

    The probe sequence [h, h+1, ...] (mod capacity), the first slot of it that
    is empty or an occupied match, and the answer read off that slot. *)
Definition probe_sequence (t : HashMap) (key : K) : list nat :=
  (λ i, (hasher_ t key mod buffer_size_ t + i) mod buffer_size_ t) <$> seq 0 (buffer_size_ t).

Definition find_spec (t : HashMap) (key : K) : nat :=
  match list_find (λ s, status (data_ t !!! s) = (-1)%Z ∨
                        (status (data_ t !!! s) = 1%Z ∧ key_of (data_ t !!! s) = key))
                  (probe_sequence t key) with
  | Some (_, s) => if decide (status (data_ t !!! s) = (-1)%Z) then end_ t else s
  | None => end_ t
  end.

(** ** Sequences of calls *)

Inductive op : Type :=
| OpInsert (kv : KvType)          (* [insert(kv)] *)
| OpErase (k : K)                 (* [erase(k)] *)
| OpFind (k : K)                  (* [find(k)] *)
| OpIndexAssign (k : K) (v : V)   (* [map[k] = v] *)
| OpAt (k : K)                    (* [at(k)] *)
| OpSize                          (* [size()] *)
| OpClear.                        (* [clear()] *)

Inductive result : Type :=
| RIterator (it : nat)
| RValue (r : error + V)
| RSize (n : nat)
| RVoid.

(** One call.  [None]: the fuel of [insert] ran out, or the behaviour of
    the call is undefined: [map[k] = v] writes to [data_[idx_]] for the
    iterator of [operator[]], which is a slot only below [data_.size()]. *)
Definition step (fuel : nat) (t : HashMap) (o : op) : option (HashMap * result) :=
  match o with
  | OpInsert kv => '(t', it) ← insert fuel t kv; Some (t', RIterator it)
  | OpErase k => Some (erase t k, RVoid)
  | OpFind k => Some (t, RIterator (find t k))
  | OpIndexAssign k v =>
    '(t', it) ← operator_index fuel t k;
    if bool_decide (it < length (data_ t')) then Some (write_second t' it v, RVoid)
    else None
  | OpAt k => Some (t, RValue (at_ t k))
  | OpSize => Some (t, RSize (size t))
  | OpClear => Some (clear t, RVoid)
  end.

Fixpoint run (fuel : nat) (t : HashMap) (ops : list op) : option (HashMap * list result) :=
  match ops with
  | [] => Some (t, [])
  | o :: ops =>
    '(t', r) ← step fuel t o;
    '(t'', rs) ← run fuel t' ops;
    Some (t'', r :: rs)
  end.

(** The calls that write through the reference [operator[]] returns. *)
Definition writes_through_index (o : op) : bool :=
  match o with
  | OpIndexAssign _ _ => true
  | _ => false
  end.

(** A bound on the calls [ops] made on [t] under which the slot index that
    [insert] casts to [int] stays below 2^31, so that [operator[]] returns
    a reference into [data_]: no call writes through [operator[]], or the
    table has at most 2^27 slots and the calls are at most 2^27. *)
Definition index_writes_in_range (t : HashMap) (ops : list op) : Prop :=
  existsb writes_through_index ops = true →
  (Z.of_nat (buffer_size_ t) ≤ 2 ^ 27)%Z ∧ (Z.of_nat (length ops) ≤ 2 ^ 27)%Z.

(** The keys inserted and not subsequently erased. *)
Definition live_keys_step (s : gset K) (o : op) : gset K :=
  match o with
  | OpInsert kv => {[ kv.1 ]} ∪ s
  | OpErase k => s ∖ {[ k ]}
  | OpIndexAssign k _ => {[ k ]} ∪ s
  | OpClear => ∅
  | _ => s
  end.

Definition live_keys (ops : list op) : gset K := foldl live_keys_step ∅ ops.

(** The states the public interface can produce. *)
Inductive reachable : HashMap → Prop :=
| reach_new hasher : reachable (HashMap_new hasher)
| reach_insert fuel t kv t' it :
    reachable t → insert fuel t kv = Some (t', it) → reachable t'
| reach_erase t k : reachable t → reachable (erase t k)
| reach_index fuel t k t' it :
    reachable t → operator_index fuel t k = Some (t', it) → reachable t'
| reach_write t it v :
    reachable t → it < length (data_ t) → reachable (write_second t it v)
| reach_clear t : reachable t → reachable (clear t)
| reach_assign this other : reachable other → reachable (operator_assign this other).

(** ** The loop of [insert] *)

(** A key that no occupied slot holds. *)
Definition fresh_key (d : list Node) (k : K) : Prop :=
  ∀ s, s < length d → status (d !!! s) = 1%Z → key_of (d !!! s) ≠ k.

(** The state of the loop of [insert] before iteration [i], as long as it has
    not returned: the pair [kv] is being carried at distance [cur] from its
    ideal slot, and an empty slot lies ahead. *)
Record carrying (t : HashMap) (key : K) (h1 i : nat) (kv : KvType) (cur : nat) : Prop :=
  mk_carrying {
  car_length : length (data_ t) = buffer_size_ t;
  car_slots : slots_ok (hasher_ t) (data_ t);
  car_fresh : fresh_key (data_ t) kv.1;
  car_cur : cur ≤ i;
  car_probe : probe (hasher_ t) (data_ t) kv.1 cur = (h1 + i) mod buffer_size_ t;
  car_chain : chain_clear (hasher_ t) (data_ t) kv.1 cur;
  car_ahead : ∀ j, i ≤ j < buffer_size_ t →
    ¬ (status (data_ t !!! ((h1 + j) mod buffer_size_ t)) = 1%Z ∧
       key_of (data_ t !!! ((h1 + j) mod buffer_size_ t)) = key);
  car_empty : ∃ e, i ≤ e < buffer_size_ t ∧
    status (data_ t !!! ((h1 + e) mod buffer_size_ t)) = (-1)%Z
}.

(** [t'] is [t] with the pair [kv] stored in addition. *)
Record stored (t t' : HashMap) (kv : KvType) : Prop := mk_stored {
  st_hasher : hasher_ t' = hasher_ t;
  st_size : buffer_size_ t' = buffer_size_ t;
  st_dead : cnt_dead_ t' = cnt_dead_ t;
  st_all : cnt_all_ t' = S (cnt_all_ t);
  st_length : length (data_ t') = length (data_ t);
  st_slots : slots_ok (hasher_ t') (data_ t');
  st_holds : ∀ k v, holds (data_ t') k v ↔ holds (data_ t) k v ∨ (k, v) = kv;
  st_nonempty : count_nonempty (data_ t') = S (count_nonempty (data_ t));
  st_tombstone : count_tombstone (data_ t') = count_tombstone (data_ t)
}.

(** ** Construction from a sequence of pairs

    [HashMap(std::initializer_list<KvType> list)] and the constructors from a
    pair of pointers or iterators: [HashMap()], then [insert] of every
    element in order. *)
Fixpoint insert_each (fuel : nat) (t : HashMap) (list : list KvType) : option HashMap :=
  match list with
  | [] => Some t
  | kv :: list => '(t', _) ← insert fuel t kv; insert_each fuel t' list
  end.

Definition HashMap_of_list (fuel : nat) (hasher : K → nat) (list : list KvType)
    : option HashMap :=
  insert_each fuel (HashMap_new hasher) list.

(** ** Several tables side by side

    Distinct [HashMap] objects are distinct entries of a store indexed by
    their addresses; a member function called on the object at [this] reads
    and writes that entry. *)
Definition store_step (fuel : nat) (σ : gmap nat HashMap) (this : nat) (o : op)
    : option (gmap nat HashMap * result) :=
  t ← σ !! this;
  '(t', r) ← step fuel t o;
  Some (<[this := t']> σ, r).

Fixpoint store_run (fuel : nat) (σ : gmap nat HashMap) (this : nat) (ops : list op)
    : option (gmap nat HashMap * list result) :=
  match ops with
  | [] => Some (σ, [])
  | o :: ops =>
    '(σ', r) ← store_step fuel σ this o;
    '(σ'', rs) ← store_run fuel σ' this ops;
    Some (σ'', r :: rs)
  end.

(** [HashMap this(other)]: a new object at the unused address [this]. *)
Definition store_copy_construct (hasher : K → nat) (σ : gmap nat HashMap) (this other : nat)
    : option (gmap nat HashMap) :=
  src ← σ !! other;
  Some (<[this := HashMap_copy hasher src]> σ).

(** [this = other] on two existing objects. *)
Definition store_assign (σ : gmap nat HashMap) (this other : nat)
    : option (gmap nat HashMap) :=
  dst ← σ !! this;
  src ← σ !! other;
  Some (<[this := operator_assign dst src]> σ).

(** Re-insertion of one pair by the normal insertion algorithm, as the loop
    of [resize] does for an occupied slot. *)
Definition reinsert (ins : HashMap → KvType → option (HashMap * nat))
    (acc : option HashMap) (kv : KvType) : option HashMap :=
  match acc with
  | None => None
  | Some t => fst <$> ins t kv
  end.

(** After [this] has been made a copy of [other], whose state is [src]:
    both objects are in that state, no sequence of calls on [this] changes
    [other], and the calls return when [src] is a reachable state and the
    writes through [operator[]] stay in range. *)
Definition copy_independent (fuel : nat) (σ : gmap nat HashMap) (this other : nat)
    (src : HashMap) (ops : list op) : Prop :=
  σ !! this = Some src ∧ σ !! other = Some src ∧
  (∀ fuel' σ' rs, store_run fuel' σ this ops = Some (σ', rs) → σ' !! other = Some src) ∧
  (reachable src → index_writes_in_range src ops →
   ∃ σ' rs, store_run (S fuel) σ this ops = Some (σ', rs)).

(** ** Iterators ([struct hm_iterator])

    An iterator of a table is its slot index [idx_]; the table pointer
    [hm_] is the table the functions below take as an argument.

    [advance_past_empty]: [n] bounds the iterations of the [while] loop,
    which runs at most [data_.size() - idx_] times. *)
Fixpoint advance_past_empty (n : nat) (t : HashMap) (idx_ : nat) : nat :=
  match n with
  | 0 => idx_
  | S n' =>
    if bool_decide (idx_ < length (data_ t)) && negb (is_occupied (data_ t !!! idx_))
    then advance_past_empty n' t (S idx_)
    else idx_
  end.

(** [begin()]: [hm_iterator(this)], whose [idx_] starts at 0. *)
Definition begin (t : HashMap) : nat :=
  advance_past_empty (length (data_ t)) t 0.

(** [operator++()]: the iterator after the increment. *)
Definition operator_incr (t : HashMap) (idx_ : nat) : nat :=
  advance_past_empty (length (data_ t) - S idx_) t (S idx_).

(** [operator++(int)]: the iterator returned and the iterator after the
    increment. *)
Definition operator_post_incr (t : HashMap) (idx_ : nat) : nat * nat :=
  let tmp := idx_ in
  (tmp, advance_past_empty (length (data_ t) - S idx_) t (S idx_)).

(** Dereferencing ([operator->] and the unary star): the pair of the slot. *)
Definition operator_deref (t : HashMap) (idx_ : nat) : KvType :=
  keyvalue (data_ t !!! idx_).

(** The loop [for (it = begin(); it != end(); ++it)] over the pairs the
    iterator points to: the pairs visited, in order.  [fuel] bounds the number of iterations; [None]
    means the bound was hit. *)
Fixpoint traverse_from (fuel : nat) (t : HashMap) (it : nat) : option (list KvType) :=
  match fuel with
  | 0 => None
  | S fuel' =>
    if bool_decide (it = end_ t) then Some []
    else cons (operator_deref t it) <$> traverse_from fuel' t (operator_incr t it)
  end.

Definition traverse (fuel : nat) (t : HashMap) : option (list KvType) :=
  traverse_from fuel t (begin t).

(** [HashMap(iterator begin, iterator end)] (and its [const_iterator]
    twin) for two iterators [cur] and [last] of a table [other]:
    [HashMap()], then [insert] of the pair under [cur] until [cur] is
    [last], moving on with [cur++].  [n] bounds the iterations of the
    loop; [None] means the bound was hit. *)
Fixpoint insert_range (n fuel : nat) (t other : HashMap) (cur last : nat) : option HashMap :=
  match n with
  | 0 => None
  | S n' =>
    if bool_decide (cur = last) then Some t
    else
      '(t', _) ← insert fuel t (operator_deref other cur);
      insert_range n' fuel t' other (operator_post_incr other cur).2 last
  end.

Definition HashMap_of_range (n fuel : nat) (hasher : K → nat) (other : HashMap)
    (first last : nat) : option HashMap :=
  insert_range n fuel (HashMap_new hasher) other first last.


End HashMap.

Arguments Node : clear implicits.
Arguments HashMap : clear implicits.
Arguments KvType : clear implicits.
Arguments op : clear implicits.

(** * The command-driven program (the second [main] of [src/tester.cpp])

    A [HashMap<int, int>] driven by commands read from the input.  The
    commands are taken as parsed; [std::hash<int>] is the parameter
    [hasher]; keys and values are integers without the 32-bit bound.  The
    program includes [hash_map_lists.h], which is not among the sources:
    the loop is run here on the class of [src/hash_map.h], whose public
    interface it uses. *)

(** [int()] *)
#[global] Instance Z_DefaultConstructible : DefaultConstructible Z := 0%Z.

Inductive command : Set :=
| CmdUpsert (key val : Z)   (* [+ key val] *)
| CmdErase (key : Z)        (* [- key] *)
| CmdQuery (key : Z)        (* [? key] *)
| CmdDump                   (* [<] *)
| CmdClear                  (* [!] *)
| CmdOther (key : Z).       (* any other character: the key is read, nothing is done *)

(** A line of output. *)
Inductive line : Set :=
| LineValue (v : Z)         (* the answer to [?] *)
| LinePair (key val : Z)    (* a line of the dump *)
| LineSize (n : nat).       (* the line printed at the end *)

(** The body of the loop over the commands: the table afterwards and the
    lines printed.  [None]: the fuel ran out, or [map[key] = val] would
    write outside [data_]. *)
Definition exec_command (fuel : nat) (map : HashMap Z Z) (c : command)
    : option (HashMap Z Z * list line) :=
  match c with
  | CmdErase key => Some (erase map key, [])
  | CmdQuery key =>
    let it := find map key in
    Some (map, [LineValue (if bool_decide (it = end_ map) then (-1)%Z
                           else (operator_deref map it).2)])
  | CmdUpsert key val =>
    match operator_index fuel map key with
    | Some (map', it) =>
      if bool_decide (it < length (data_ map')) then Some (write_second map' it val, [])
      else None
    | None => None
    end
  | CmdDump =>
    match traverse (S (length (data_ map))) map with
    | Some out => Some (map, (λ kv, LinePair kv.1 kv.2) <$> out)
    | None => None
    end
  | CmdClear => Some (clear map, [])
  | CmdOther _ => Some (map, [])
  end.

Fixpoint exec_commands (fuel : nat) (map : HashMap Z Z) (cmds : list command)
    : option (HashMap Z Z * list line) :=
  match cmds with
  | [] => Some (map, [])
  | c :: cmds =>
    match exec_command fuel map c with
    | Some (map', out) =>
      match exec_commands fuel map' cmds with
      | Some (map'', outs) => Some (map'', out ++ outs)
      | None => None
      end
    | None => None
    end
  end.

Definition main_program (fuel : nat) (hasher : Z → nat) (cmds : list command)
    : option (list line) :=
  match exec_commands fuel (HashMap_new hasher) cmds with
  | Some (map, out) => Some (out ++ [LineSize (size map)])
  | None => None
  end.

(** The same program on a finite map: the state after a command, what the
    command prints (the dump in the order of the map's own listing), and
    both along a sequence of commands. *)
Definition ref_state (m : gmap Z Z) (c : command) : gmap Z Z :=
  match c with
  | CmdUpsert key val => <[key := val]> m
  | CmdErase key => delete key m
  | CmdClear => ∅
  | _ => m
  end.

Definition ref_output (m : gmap Z Z) (c : command) : list line :=
  match c with
  | CmdQuery key => [LineValue (default (-1)%Z (m !! key))]
  | CmdDump => (λ kv, LinePair kv.1 kv.2) <$> map_to_list m
  | _ => []
  end.

Fixpoint ref_outputs (m : gmap Z Z) (cmds : list command) : list (list line) :=
  match cmds with
  | [] => []
  | c :: cmds => ref_output m c :: ref_outputs (ref_state m c) cmds
  end.

Definition ref_final (m : gmap Z Z) (cmds : list command) : gmap Z Z :=
  foldl ref_state m cmds.

(** * Example tables

    [int] keys and values, restricted to the non-negative ones, with the
    identity as hash function (what [std::hash<int>] is). *)

#[global] Instance nat_DefaultConstructible : DefaultConstructible nat := 0.

Definition ex_hash (k : nat) : nat := k.

(** [HashMap<int, int> map{{1, 5}, {3, 4}, {2, 1}}] of the test file. *)
Definition ex_map : HashMap nat nat :=
  default (HashMap_new ex_hash) (HashMap_of_list 1 ex_hash [(1, 5); (3, 4); (2, 1)]).

(** Nine keys in a table of capacity 16: the next [insert] grows it. *)
Definition ex_full : HashMap nat nat :=
  default (HashMap_new ex_hash)
    (HashMap_of_list 1 ex_hash ((λ i, (i, i + 100)) <$> seq 0 9)).

(** * Properties *)

(** ** Arithmetic of probe positions *)
Section probe_positions.
Variable B : nat.
Hypothesis B_pos : 0 < B.

Lemma probe_lt h j : (h + j) mod B < B.
Proof. apply Nat.mod_upper_bound. lia. Qed.

Lemma probe_inj h i j : i < B → j < B → (h + i) mod B = (h + j) mod B → i = j.
Proof.
  intros Hi Hj Heq.
  pose proof (Nat.div_mod_eq (h + i) B) as E1.
  pose proof (Nat.div_mod_eq (h + j) B) as E2.
  rewrite Heq in E1.
  assert ((h + i) `div` B = (h + j) `div` B) by nia.
  nia.
Qed.

Lemma probe_next a b : a mod B = b mod B → S a mod B = S b mod B.
Proof.
  intros Heq. replace (S a) with (a + 1) by lia. replace (S b) with (b + 1) by lia.
  rewrite <- (Nat.Div0.add_mod_idemp_l a), <- (Nat.Div0.add_mod_idemp_l b).
  by rewrite Heq.
Qed.

Lemma probe_surj h s : s < B → ∃ i, i < B ∧ (h + i) mod B = s.
Proof.
  intros Hs. pose proof (Nat.mod_upper_bound h B ltac:(lia)) as Hr.
  destruct (decide (h mod B ≤ s)) as [Hle|Hgt].
  - exists (s - h mod B). split; [lia|].
    rewrite <- Nat.Div0.add_mod_idemp_l.
    replace (h mod B + (s - h mod B)) with s by lia. by apply Nat.mod_small.
  - exists (s + B - h mod B). split; [lia|].
    rewrite <- Nat.Div0.add_mod_idemp_l.
    replace (h mod B + (s + B - h mod B)) with (s + 1 * B) by lia.
    rewrite Nat.Div0.mod_add. by apply Nat.mod_small.
Qed.

Lemma probe_dist h s c : c < B → (h + c) mod B = s → (s + B - h mod B) mod B = c.
Proof.
  intros Hc <-. pose proof (Nat.mod_upper_bound h B ltac:(lia)) as Hr.
  rewrite <- (Nat.Div0.add_mod_idemp_l h).
  pose proof (Nat.div_mod_eq (h mod B + c) B) as E.
  assert ((h mod B + c) `div` B < 2).
  { apply Nat.Div0.div_lt_upper_bound. lia. }
  symmetry. apply (Nat.mod_unique _ _ (1 - (h mod B + c) `div` B)); [lia|]. nia.
Qed.

End probe_positions.

Section HashMap_facts.

Context {K V : Type} `{Countable K}.
Context `{DefaultConstructible K} `{DefaultConstructible V}.

Implicit Types (t : HashMap K V) (d : list (Node K V)) (nd : Node K V).
Implicit Types (k key : K) (v : V) (kv : KvType K V) (hf : K → nat).

Lemma is_occupied_spec nd : is_occupied nd = true ↔ status nd = 1%Z.
Proof. unfold is_occupied. apply bool_decide_eq_true. Qed.

Lemma is_empty_spec nd : is_empty nd = true ↔ status nd = (-1)%Z.
Proof. unfold is_empty. apply bool_decide_eq_true. Qed.

(** The test [status == 1 && keyvalue.first == key] of the three loops. *)
Lemma match_test_true nd key :
  is_occupied nd && bool_decide ((keyvalue nd).1 = key) = true ↔
  status nd = 1%Z ∧ key_of nd = key.
Proof.
  rewrite andb_true_iff, is_occupied_spec, bool_decide_eq_true. done.
Qed.

Lemma match_test_false nd key :
  is_occupied nd && bool_decide ((keyvalue nd).1 = key) = false ↔
  ¬ (status nd = 1%Z ∧ key_of nd = key).
Proof. rewrite <- match_test_true. by destruct (_ && _). Qed.

Lemma is_empty_false nd : is_empty nd = false ↔ status nd ≠ (-1)%Z.
Proof. unfold is_empty. apply bool_decide_eq_false. Qed.

Lemma probe_code t key i :
  length (data_ t) = buffer_size_ t →
  (get_hash t key + i) mod buffer_size_ t = probe (hasher_ t) (data_ t) key i.
Proof.
  intros Hlen. unfold get_hash, probe. rewrite Hlen.
  apply Nat.Div0.add_mod_idemp_l.
Qed.

(** ** The loop of [find] *)

Lemma find_loop_match n i t key h1 :
  status (data_ t !!! ((h1 + i) mod buffer_size_ t)) = 1%Z →
  key_of (data_ t !!! ((h1 + i) mod buffer_size_ t)) = key →
  find_loop (S n) i t key h1 = ((h1 + i) mod buffer_size_ t, ReturnMatch).
Proof.
  intros Hs Hk. simpl.
  by rewrite (proj2 (match_test_true _ _) (conj Hs Hk)).
Qed.

Lemma find_loop_empty n i t key h1 :
  status (data_ t !!! ((h1 + i) mod buffer_size_ t)) = (-1)%Z →
  find_loop (S n) i t key h1 = (buffer_size_ t, ReturnEmpty).
Proof.
  intros Hs. simpl.
  rewrite (proj2 (match_test_false _ _)) by (intros [? _]; congruence).
  by rewrite (proj2 (is_empty_spec _) Hs).
Qed.

Lemma find_loop_skip n i t key h1 :
  ¬ (status (data_ t !!! ((h1 + i) mod buffer_size_ t)) = 1%Z ∧
     key_of (data_ t !!! ((h1 + i) mod buffer_size_ t)) = key) →
  status (data_ t !!! ((h1 + i) mod buffer_size_ t)) ≠ (-1)%Z →
  find_loop (S n) i t key h1 = find_loop n (S i) t key h1.
Proof.
  intros Hm He. simpl.
  rewrite (proj2 (match_test_false _ _) Hm).
  by rewrite (proj2 (is_empty_false _) He).
Qed.

(** Slots that are neither empty nor a match are passed over. *)
Lemma find_loop_pass m n i t key h1 :
  (∀ j, i ≤ j < i + m →
     status (data_ t !!! ((h1 + j) mod buffer_size_ t)) ≠ (-1)%Z ∧
     ¬ (status (data_ t !!! ((h1 + j) mod buffer_size_ t)) = 1%Z ∧
        key_of (data_ t !!! ((h1 + j) mod buffer_size_ t)) = key)) →
  find_loop (m + n) i t key h1 = find_loop n (i + m) t key h1.
Proof.
  revert i. induction m as [|m IH]; intros i Hpass.
  - simpl. by rewrite Nat.add_0_r.
  - change (S m + n) with (S (m + n)).
    rewrite find_loop_skip; [|apply Hpass; lia..].
    rewrite IH; [f_equal; lia|]. intros j Hj. apply Hpass. lia.
Qed.

Lemma find_loop_wrap n i t key h1 :
  (∀ j, i ≤ j < i + n →
     status (data_ t !!! ((h1 + j) mod buffer_size_ t)) ≠ (-1)%Z ∧
     ¬ (status (data_ t !!! ((h1 + j) mod buffer_size_ t)) = 1%Z ∧
        key_of (data_ t !!! ((h1 + j) mod buffer_size_ t)) = key)) →
  find_loop n i t key h1 = (buffer_size_ t, FallThrough).
Proof.
  intros Hpass. rewrite <- (Nat.add_0_r n).
  rewrite find_loop_pass by done. done.
Qed.

(** [find] never returns a slot other than an occupied match. *)
Lemma find_loop_sound n i t key h1 it e :
  find_loop n i t key h1 = (it, e) →
  (e = ReturnMatch ∧ (∃ j, i ≤ j < i + n ∧ it = (h1 + j) mod buffer_size_ t) ∧
   status (data_ t !!! it) = 1%Z ∧ key_of (data_ t !!! it) = key) ∨
  (e ≠ ReturnMatch ∧ it = buffer_size_ t).
Proof.
  revert i. induction n as [|n IH]; intros i; simpl.
  - intros [= <- <-]. by right.
  - destruct (is_occupied _ && _) eqn:Hm.
    + intros [= <- <-]. apply match_test_true in Hm as [??].
      left. split_and!; eauto. exists i. split; [lia|done].
    + destruct (is_empty _) eqn:He.
      * intros [= <- <-]. by right.
      * intros Hf. destruct (IH _ Hf) as [(?&(j&?&?)&?&?)|?]; [left|by right].
        split_and!; eauto. exists j. split; [lia|done].
Qed.

(** ** [find] on a well-formed slot array *)

Lemma find_loop_holder t s :
  length (data_ t) = buffer_size_ t →
  slots_ok (hasher_ t) (data_ t) →
  s < buffer_size_ t → status (data_ t !!! s) = 1%Z →
  find_loop (buffer_size_ t) 0 t (key_of (data_ t !!! s))
            (get_hash t (key_of (data_ t !!! s))) = (s, ReturnMatch).
Proof.
  intros Hlen Hok Hs Hocc.
  destruct (ok_dist _ _ Hok s) as [Hc Hp]; [lia|done|].
  set (k := key_of (data_ t !!! s)) in *. set (c := dist_to_ideal (data_ t !!! s)) in *.
  rewrite Hlen in Hc.
  replace (buffer_size_ t) with (c + S (buffer_size_ t - S c)) at 1 by lia.
  rewrite find_loop_pass.
  - simpl (0 + c).
    assert ((get_hash t k + c) mod buffer_size_ t = s) as Hs'
      by (by rewrite probe_code).
    rewrite find_loop_match; rewrite Hs'; done.
  - intros j Hj. rewrite probe_code by done.
    destruct (ok_chain _ _ Hok s ltac:(lia) Hocc j ltac:(lia)) as [Hne _].
    split; [done|]. intros [Ho Hk].
    assert (probe (hasher_ t) (data_ t) k j = s) as Heq.
    { apply (ok_uniq _ _ Hok); try done; try lia.
      unfold probe. apply probe_lt. lia. }
    rewrite <- Hp in Heq. unfold probe in Heq.
    apply probe_inj in Heq; lia.
Qed.

Lemma find_holder t s :
  length (data_ t) = buffer_size_ t →
  slots_ok (hasher_ t) (data_ t) →
  s < buffer_size_ t → status (data_ t !!! s) = 1%Z →
  find t (key_of (data_ t !!! s)) = s.
Proof. intros. unfold find. by rewrite find_loop_holder. Qed.

Lemma find_absent t key :
  length (data_ t) = buffer_size_ t →
  (∀ s, s < length (data_ t) → status (data_ t !!! s) = 1%Z → key_of (data_ t !!! s) ≠ key) →
  find t key = buffer_size_ t.
Proof.
  intros Hlen Habs. unfold find.
  destruct (find_loop _ _ _ _ _) as [it e] eqn:Hf.
  apply find_loop_sound in Hf as [(_ & (j & Hj & ->) & Ho & Hk)|[_ ->]]; [|done].
  exfalso. eapply Habs; [|done..]. rewrite Hlen. apply probe_lt. lia.
Qed.

(** ** The represented mapping *)

Lemma holds_occupied_pairs d k v : holds d k v ↔ (k, v) ∈ occupied_pairs d.
Proof.
  unfold holds, occupied_pairs. rewrite list_elem_of_fmap. split.
  - intros (s & Hs & Ho & Hkv). exists (d !!! s). split; [done|].
    apply list_elem_of_filter. split; [done|].
    apply list_elem_of_lookup. exists s. by apply list_lookup_lookup_total_lt.
  - intros (nd & Hkv & Hin). apply list_elem_of_filter in Hin as [Ho Hin].
    apply list_elem_of_lookup in Hin as [s Hs].
    exists s. pose proof (lookup_lt_Some _ _ _ Hs).
    apply list_lookup_total_correct in Hs. rewrite Hs. done.
Qed.

Lemma NoDup_occupied_pairs d :
  (∀ s1 s2, s1 < length d → s2 < length d →
     status (d !!! s1) = 1%Z → status (d !!! s2) = 1%Z →
     key_of (d !!! s1) = key_of (d !!! s2) → s1 = s2) →
  NoDup (occupied_pairs d).*1.
Proof.
  unfold occupied_pairs. induction d as [|nd d IH]; intros Hu; [constructor|].
  assert (NoDup (keyvalue <$> filter (λ nd, status nd = 1%Z) d).*1) as IH'.
  { apply IH. intros s1 s2 ?????.
    assert (S s1 = S s2); [|lia]. apply Hu; simpl; try done; lia. }
  rewrite filter_cons. destruct (decide _) as [Ho|]; [|done].
  rewrite !fmap_cons. apply NoDup_cons. split; [|done].
  intros Hin. apply list_elem_of_fmap in Hin as ([k v] & Hk & Hin). simpl in Hk.
  apply (holds_occupied_pairs d k v) in Hin as (s & Hs & Hos & Hkv).
  assert (0 = S s); [|lia]. apply Hu; simpl; try done; try lia.
  unfold key_of. rewrite Hkv. done.
Qed.

Lemma contents_lookup t k v :
  slots_ok (hasher_ t) (data_ t) →
  contents t !! k = Some v ↔ holds (data_ t) k v.
Proof.
  intros Hok. unfold contents.
  rewrite <- elem_of_list_to_map by (apply NoDup_occupied_pairs, Hok).
  by rewrite holds_occupied_pairs.
Qed.

Lemma contents_lookup_None t k :
  slots_ok (hasher_ t) (data_ t) →
  contents t !! k = None ↔
  ∀ s, s < length (data_ t) → status (data_ t !!! s) = 1%Z → key_of (data_ t !!! s) ≠ k.
Proof.
  intros Hok. rewrite eq_None_not_Some. split.
  - intros Hn s Hs Ho Hk. apply Hn. exists (keyvalue (data_ t !!! s)).2.
    apply contents_lookup; [done|]. exists s. split_and!; try done.
    rewrite <- Hk. unfold key_of. by destruct (keyvalue _).
  - intros Hn [v Hv]. apply contents_lookup in Hv as (s & Hs & Ho & Hkv); [|done].
    apply (Hn s); try done. unfold key_of. by rewrite Hkv.
Qed.

Lemma size_contents t :
  slots_ok (hasher_ t) (data_ t) → base.size (contents t) = count_occupied (data_ t).
Proof.
  intros Hok. unfold contents.
  rewrite map_size_list_to_map by (apply NoDup_occupied_pairs, Hok).
  unfold occupied_pairs, count_occupied. by rewrite length_fmap.
Qed.

Lemma find_value_contents t key :
  length (data_ t) = buffer_size_ t →
  slots_ok (hasher_ t) (data_ t) →
  find_value t key = contents t !! key.
Proof.
  intros Hlen Hok. unfold find_value, end_.
  destruct (contents t !! key) as [v|] eqn:Hc.
  - apply contents_lookup in Hc as (s & Hs & Ho & Hkv); [|done].
    assert (key = key_of (data_ t !!! s)) as -> by (unfold key_of; by rewrite Hkv).
    rewrite find_holder by (done || lia).
    rewrite bool_decide_eq_false_2 by lia. by rewrite Hkv.
  - rewrite contents_lookup_None in Hc by done.
    rewrite find_absent by done. by rewrite bool_decide_eq_true_2.
Qed.

(** ** Updating one slot *)

Lemma probe_insert hf d p nd k j : probe hf (<[p := nd]> d) k j = probe hf d k j.
Proof. unfold probe. by rewrite length_insert. Qed.

Lemma probe_bound hf d k j : 0 < length d → probe hf d k j < length d.
Proof. intros. by apply probe_lt. Qed.

Lemma length_filter_insert (P : Node K V → Prop) `{!∀ x, Decision (P x)} d p nd :
  p < length d →
  length (filter P (<[p := nd]> d)) + (if decide (P (d !!! p)) then 1 else 0) =
  length (filter P d) + (if decide (P nd) then 1 else 0).
Proof.
  revert p. induction d as [|x d IH]; intros p Hp; simpl in Hp; [lia|].
  destruct p as [|p]; simpl.
  - rewrite !filter_cons. change ((x :: d) !!! 0) with x.
    repeat destruct (decide _); simpl; lia.
  - rewrite !filter_cons. change ((x :: d) !!! S p) with (d !!! p).
    specialize (IH p ltac:(lia)).
    destruct (decide (P x)); simpl; lia.
Qed.

Lemma holds_insert d p nd k v :
  p < length d →
  holds (<[p := nd]> d) k v ↔
  (status nd = 1%Z ∧ keyvalue nd = (k, v)) ∨
  (∃ s, s ≠ p ∧ s < length d ∧ status (d !!! s) = 1%Z ∧ keyvalue (d !!! s) = (k, v)).
Proof.
  intros Hp. unfold holds. rewrite length_insert. split.
  - intros (s & Hs & Ho & Hkv). destruct (decide (s = p)) as [->|Hne].
    + rewrite list_lookup_total_insert_eq in Ho, Hkv by done. by left.
    + rewrite list_lookup_total_insert_ne in Ho, Hkv by done. right. by exists s.
  - intros [[Ho Hkv]|(s & Hne & Hs & Ho & Hkv)].
    + exists p. by rewrite list_lookup_total_insert_eq.
    + exists s. by rewrite list_lookup_total_insert_ne.
Qed.

Lemma holds_split d p k v :
  p < length d →
  holds d k v ↔
  (status (d !!! p) = 1%Z ∧ keyvalue (d !!! p) = (k, v)) ∨
  (∃ s, s ≠ p ∧ s < length d ∧ status (d !!! s) = 1%Z ∧ keyvalue (d !!! s) = (k, v)).
Proof.
  intros Hp. rewrite <- (holds_insert d p (d !!! p)) by done.
  rewrite list_insert_id; [done|]. by apply list_lookup_lookup_total_lt.
Qed.

(** Storing the carried pair over an empty slot, or over a richer occupied
    one, keeps the slot array well formed. *)
Lemma slots_ok_store hf d p kv cur :
  slots_ok hf d →
  p < length d →
  status (d !!! p) = (-1)%Z ∨
    (status (d !!! p) = 1%Z ∧ dist_to_ideal (d !!! p) < cur) →
  cur < length d →
  probe hf d kv.1 cur = p →
  chain_clear hf d kv.1 cur →
  fresh_key d kv.1 →
  slots_ok hf (<[p := mkNode kv 1 cur]> d).
Proof.
  intros Hok Hp Hold Hcur Hprobe Hchain Hfresh.
  assert (0 < length d) as Hpos by lia.
  split; rewrite ?length_insert.
  - intros s Hs. destruct (decide (s = p)) as [->|Hne].
    + rewrite list_lookup_total_insert_eq by done. simpl. intros _.
      by rewrite probe_insert.
    + rewrite list_lookup_total_insert_ne by done. rewrite probe_insert.
      by apply (ok_dist _ _ Hok).
  - intros s Hs. destruct (decide (s = p)) as [->|Hne].
    + rewrite list_lookup_total_insert_eq by done. simpl. intros _ j Hj.
      rewrite probe_insert.
      rewrite list_lookup_total_insert_ne; [by apply Hchain|].
      intros Heq. rewrite <- Hprobe in Heq at 1. unfold probe in Heq.
      apply probe_inj in Heq; lia.
    + rewrite list_lookup_total_insert_ne by done. intros Ho j Hj.
      rewrite probe_insert.
      pose proof (ok_chain _ _ Hok s Hs Ho j Hj) as [Hne1 Hle].
      destruct (decide (probe hf d (key_of (d !!! s)) j = p)) as [Heq|Hneq].
      * rewrite Heq in *. rewrite list_lookup_total_insert_eq by done. simpl.
        split; [done|]. intros _.
        destruct Hold as [?|[Ho' Hlt]]; [done|]. specialize (Hle Ho'). lia.
      * by rewrite list_lookup_total_insert_ne.
  - intros s1 s2 Hs1 Hs2.
    destruct (decide (s1 = p)) as [->|Hne1]; destruct (decide (s2 = p)) as [->|Hne2];
      try done.
    + rewrite list_lookup_total_insert_eq by done.
      rewrite list_lookup_total_insert_ne by done. simpl.
      intros _ Ho Hk. by destruct (Hfresh s2 Hs2 Ho).
    + rewrite list_lookup_total_insert_ne by done.
      rewrite list_lookup_total_insert_eq by done. simpl.
      intros Ho _ Hk. by destruct (Hfresh s1 Hs1 Ho).
    + rewrite !list_lookup_total_insert_ne by done. by apply (ok_uniq _ _ Hok).
Qed.

(** ** One iteration of the loop of [insert] *)

Lemma insert_loop_match n i t key h1 kv cur ii :
  status (data_ t !!! ((h1 + i) mod buffer_size_ t)) = 1%Z →
  key_of (data_ t !!! ((h1 + i) mod buffer_size_ t)) = key →
  insert_loop (S n) i t key h1 kv cur ii = (t, (h1 + i) mod buffer_size_ t, ReturnMatch).
Proof.
  intros Hs Hk. simpl.
  by rewrite (proj2 (match_test_true _ _) (conj Hs Hk)).
Qed.

Lemma insert_loop_pass n i t key h1 kv cur ii :
  let nd := data_ t !!! ((h1 + i) mod buffer_size_ t) in
  ¬ (status nd = 1%Z ∧ key_of nd = key) →
  status nd ≠ (-1)%Z →
  ¬ (status nd = 1%Z ∧ dist_to_ideal nd < cur) →
  insert_loop (S n) i t key h1 kv cur ii = insert_loop n (S i) t key h1 kv (S cur) ii.
Proof.
  intros nd Hm He Hr. simpl. fold nd.
  rewrite (proj2 (match_test_false _ _) Hm).
  assert (is_occupied nd && bool_decide (dist_to_ideal nd < cur) = false) as ->.
  { apply not_true_is_false. rewrite andb_true_iff, is_occupied_spec, bool_decide_eq_true.
    done. }
  simpl. fold nd. by rewrite (proj2 (is_empty_false _) He).
Qed.

Lemma insert_loop_swap n i t key h1 kv cur ii :
  let p := (h1 + i) mod buffer_size_ t in
  let nd := data_ t !!! p in
  p < length (data_ t) →
  ¬ (status nd = 1%Z ∧ key_of nd = key) →
  status nd = 1%Z → dist_to_ideal nd < cur →
  insert_loop (S n) i t key h1 kv cur ii =
  insert_loop n (S i) (set_data t (<[p := mkNode kv 1 cur]> (data_ t))) key h1
    (keyvalue nd) (S (dist_to_ideal nd))
    (if bool_decide (ii = (-1)%Z) then int_of_size_t p else ii).
Proof.
  intros p nd Hp Hm Ho Hr. simpl. fold p. fold nd.
  rewrite (proj2 (match_test_false _ _) Hm).
  assert (is_occupied nd && bool_decide (dist_to_ideal nd < cur) = true) as ->.
  { rewrite andb_true_iff, is_occupied_spec, bool_decide_eq_true. done. }
  simpl. rewrite list_lookup_total_insert_eq by done.
  rewrite Ho. done.
Qed.

Lemma insert_loop_place n i t key h1 kv cur ii :
  let p := (h1 + i) mod buffer_size_ t in
  status (data_ t !!! p) = (-1)%Z →
  insert_loop (S n) i t key h1 kv cur ii =
  (mkHashMap (hasher_ t) (<[p := Node_of kv cur]> (data_ t))
             (S (cnt_all_ t)) (cnt_dead_ t) (buffer_size_ t),
   size_t_of_int (if bool_decide (ii = (-1)%Z) then int_of_size_t p else ii),
   ReturnEmpty).
Proof.
  intros p He. simpl. fold p.
  rewrite (proj2 (match_test_false _ _)) by (intros [? _]; congruence).
  assert (is_occupied (data_ t !!! p) = false) as ->.
  { apply not_true_is_false. rewrite is_occupied_spec. congruence. }
  simpl. by rewrite (proj2 (is_empty_spec _) He).
Qed.

(** ** The loop of [insert] while it carries a pair *)

Lemma stored_place t p kv cur :
  slots_ok (hasher_ t) (data_ t) →
  p < length (data_ t) →
  status (data_ t !!! p) = (-1)%Z →
  cur < length (data_ t) →
  probe (hasher_ t) (data_ t) kv.1 cur = p →
  chain_clear (hasher_ t) (data_ t) kv.1 cur →
  fresh_key (data_ t) kv.1 →
  stored t (mkHashMap (hasher_ t) (<[p := Node_of kv cur]> (data_ t))
                      (S (cnt_all_ t)) (cnt_dead_ t) (buffer_size_ t)) kv.
Proof.
  intros Hok Hp He Hcur Hprobe Hchain Hfresh.
  split; simpl; try done.
  - by rewrite length_insert.
  - apply slots_ok_store; auto.
  - intros k v. rewrite holds_insert by done. rewrite (holds_split _ p) by done.
    simpl. intuition congruence.
  - unfold count_nonempty.
    pose proof (length_filter_insert (λ nd, status nd ≠ (-1)%Z) (data_ t) p
                  (Node_of kv cur) Hp) as Hc.
    rewrite decide_False in Hc by (intros ?; done).
    rewrite decide_True in Hc by done. lia.
  - unfold count_tombstone.
    pose proof (length_filter_insert (λ nd, status nd ≠ (-1)%Z ∧ status nd ≠ 1%Z)
                  (data_ t) p (Node_of kv cur) Hp) as Hc.
    rewrite decide_False in Hc by (intros [? _]; done).
    rewrite decide_False in Hc by (intros [_ ?]; done). lia.
Qed.

Lemma stored_swap t t' p kv cur :
  p < length (data_ t) →
  status (data_ t !!! p) = 1%Z →
  stored (set_data t (<[p := mkNode kv 1 cur]> (data_ t))) t' (keyvalue (data_ t !!! p)) →
  stored t t' kv.
Proof.
  intros Hp Ho [Hh Hs Hd Ha Hl Hok Hholds Hne Hto]. simpl in *.
  rewrite length_insert in Hl.
  split; try done.
  - intros k v. rewrite Hholds, holds_insert by done. rewrite (holds_split _ p) by done.
    simpl. intuition congruence.
  - rewrite Hne. f_equal. unfold count_nonempty.
    pose proof (length_filter_insert (λ nd, status nd ≠ (-1)%Z) (data_ t) p
                  (mkNode kv 1 cur) Hp) as Hc.
    rewrite decide_True in Hc by congruence.
    rewrite decide_True in Hc by done. lia.
  - rewrite Hto. unfold count_tombstone.
    pose proof (length_filter_insert (λ nd, status nd ≠ (-1)%Z ∧ status nd ≠ 1%Z)
                  (data_ t) p (mkNode kv 1 cur) Hp) as Hc.
    rewrite decide_False in Hc by (intros [_ ?]; done).
    rewrite decide_False in Hc by (intros [_ ?]; done). lia.
Qed.

Lemma carrying_pass t key h1 i kv cur :
  let nd := data_ t !!! ((h1 + i) mod buffer_size_ t) in
  carrying t key h1 i kv cur →
  status nd ≠ (-1)%Z →
  ¬ (status nd = 1%Z ∧ dist_to_ideal nd < cur) →
  carrying t key h1 (S i) kv (S cur).
Proof.
  intros nd [Hlen Hok Hfresh Hcur Hprobe Hchain Hahead (e & He & Hempty)] Hne Hr.
  assert (0 < buffer_size_ t) as Hpos by lia.
  split; try done.
  - lia.
  - unfold probe in *. rewrite Hlen in *. rewrite !Nat.add_succ_r.
    by apply probe_next.
  - intros j Hj. destruct (decide (j = cur)) as [->|]; [|apply Hchain; lia].
    rewrite Hprobe. fold nd. split; [done|]. intros Ho.
    destruct (decide (dist_to_ideal nd < cur)); [|lia]. by destruct Hr.
  - intros j Hj. apply Hahead. lia.
  - exists e. split; [|done]. destruct (decide (e = i)) as [->|]; [done|lia].
Qed.

Lemma carrying_swap t key h1 i kv cur :
  let p := (h1 + i) mod buffer_size_ t in
  let nd := data_ t !!! p in
  carrying t key h1 i kv cur →
  status nd = 1%Z → dist_to_ideal nd < cur →
  carrying (set_data t (<[p := mkNode kv 1 cur]> (data_ t))) key h1 (S i)
           (keyvalue nd) (S (dist_to_ideal nd)).
Proof.
  intros p nd [Hlen Hok Hfresh Hcur Hprobe Hchain Hahead (e & He & Hempty)] Ho Hr.
  assert (0 < buffer_size_ t) as Hpos by lia.
  assert (p < length (data_ t)) as Hp by (rewrite Hlen; by apply probe_lt).
  destruct (ok_dist _ _ Hok p Hp Ho) as [Hdist Hpr]. fold nd in Hdist, Hpr.
  assert (∀ j, S i ≤ j < buffer_size_ t → (h1 + j) mod buffer_size_ t ≠ p) as Hother.
  { intros j Hj Heq. apply probe_inj in Heq; lia. }
  split; simpl.
  - by rewrite length_insert.
  - apply slots_ok_store; auto. lia.
  - intros s Hs. rewrite length_insert in Hs.
    destruct (decide (s = p)) as [->|Hne].
    + rewrite list_lookup_total_insert_eq by done. simpl. intros _ Heq.
      apply (Hfresh p Hp Ho). done.
    + rewrite list_lookup_total_insert_ne by done. intros Hos Hk.
      apply Hne. by apply (ok_uniq _ _ Hok).
  - lia.
  - rewrite probe_insert. unfold probe in *. rewrite Hlen in *.
    rewrite !Nat.add_succ_r. apply probe_next; [done|].
    unfold key_of in Hpr. by rewrite Hpr.
  - intros j Hj. rewrite probe_insert.
    destruct (decide (j = dist_to_ideal nd)) as [->|Hne].
    + change (fst (keyvalue nd)) with (key_of nd). rewrite Hpr.
      rewrite list_lookup_total_insert_eq by done. simpl.
      split; [done|intros _; subst nd p; lia].
    + rewrite list_lookup_total_insert_ne.
      * apply (ok_chain _ _ Hok p Hp Ho). subst nd p. lia.
      * change (fst (keyvalue nd)) with (key_of nd).
        rewrite <- Hpr at 1. unfold probe. intros Heq.
        rewrite Hlen in Heq, Hdist. subst nd p.
        apply probe_inj in Heq; lia.
  - intros j Hj. rewrite list_lookup_total_insert_ne by (apply not_eq_sym, Hother; lia).
    apply Hahead. lia.
  - exists e. assert (e ≠ i) by (intros ->; fold p in Hempty; fold nd in Hempty; congruence).
    split; [lia|].
    rewrite list_lookup_total_insert_ne by (apply not_eq_sym, Hother; lia). done.
Qed.

Lemma insert_loop_carry n i t key h1 kv cur ii :
  carrying t key h1 i kv cur →
  n = buffer_size_ t - i →
  ∃ t' it, insert_loop n i t key h1 kv cur ii = (t', it, ReturnEmpty) ∧ stored t t' kv.
Proof.
  revert i t kv cur ii. induction n as [|n IH]; intros i t kv cur ii Hcar Hn.
  { destruct Hcar as [_ _ _ _ _ _ _ (e & He & _)]. lia. }
  pose proof Hcar as [Hlen Hok Hfresh Hcur Hprobe Hchain Hahead (e & He & Hempty)].
  assert (0 < buffer_size_ t) as Hpos by lia.
  set (p := (h1 + i) mod buffer_size_ t) in *.
  assert (p < length (data_ t)) as Hp by (rewrite Hlen; by apply probe_lt).
  set (nd := data_ t !!! p).
  destruct (decide (status nd = (-1)%Z)) as [Hemp|Hnemp].
  - rewrite insert_loop_place by done. eexists _, _. split; [done|].
    apply stored_place; auto. lia.
  - destruct (decide (status nd = 1%Z ∧ dist_to_ideal nd < cur)) as [[Ho Hr]|Hnr].
    + rewrite insert_loop_swap; [|done|apply Hahead; lia|done..].
      fold p. fold nd.
      destruct (IH (S i) (set_data t (<[p := mkNode kv 1 cur]> (data_ t)))
                  (keyvalue nd) (S (dist_to_ideal nd))
                  (if bool_decide (ii = (-1)%Z) then int_of_size_t p else ii))
        as (t' & it & Hrun & Hst).
      * by apply carrying_swap.
      * simpl. lia.
      * exists t', it. split; [done|]. by eapply stored_swap.
    + rewrite insert_loop_pass; [|apply Hahead; lia|done..].
      destruct (IH (S i) t kv (S cur) ii) as (t' & it & Hrun & Hst).
      * by apply carrying_pass.
      * lia.
      * by exists t', it.
Qed.

(** ** [insert] of a key that is present *)

Lemma insert_loop_pass_many m n i t key h1 kv cur ii :
  (∀ j, j < m →
     let nd := data_ t !!! ((h1 + (i + j)) mod buffer_size_ t) in
     ¬ (status nd = 1%Z ∧ key_of nd = key) ∧
     status nd ≠ (-1)%Z ∧
     ¬ (status nd = 1%Z ∧ dist_to_ideal nd < cur + j)) →
  insert_loop (m + n) i t key h1 kv cur ii =
  insert_loop n (i + m) t key h1 kv (cur + m) ii.
Proof.
  revert i cur. induction m as [|m IH]; intros i cur Hpass.
  - simpl. by rewrite !Nat.add_0_r.
  - change (S m + n) with (S (m + n)).
    destruct (Hpass 0 ltac:(lia)) as (Hm & He & Hr).
    rewrite !Nat.add_0_r in *.
    rewrite insert_loop_pass by done.
    rewrite IH.
    + f_equal; lia.
    + intros j Hj. specialize (Hpass (S j) ltac:(lia)).
      replace (S i + j) with (i + S j) by lia.
      replace (S cur + j) with (cur + S j) by lia. done.
Qed.

Lemma insert_loop_present t s kv ii :
  length (data_ t) = buffer_size_ t →
  slots_ok (hasher_ t) (data_ t) →
  s < buffer_size_ t → status (data_ t !!! s) = 1%Z →
  key_of (data_ t !!! s) = kv.1 →
  insert_loop (buffer_size_ t) 0 t kv.1 (get_hash t kv.1) kv 0 ii = (t, s, ReturnMatch).
Proof.
  intros Hlen Hok Hs Hocc Hkey.
  destruct (ok_dist _ _ Hok s) as [Hc Hp]; [lia|done|].
  pose proof (ok_chain _ _ Hok s ltac:(lia) Hocc) as Hchain.
  rewrite Hkey in Hp, Hchain.
  set (c := dist_to_ideal (data_ t !!! s)) in *.
  rewrite Hlen in Hc.
  replace (buffer_size_ t) with (c + S (buffer_size_ t - S c)) at 1 by lia.
  rewrite insert_loop_pass_many.
  - simpl (0 + c).
    assert ((get_hash t kv.1 + c) mod buffer_size_ t = s) as Hs'
      by (by rewrite probe_code).
    rewrite insert_loop_match; rewrite Hs'; done.
  - intros j Hj. simpl. rewrite probe_code by done.
    destruct (Hchain j Hj) as [Hne Hle].
    split_and!; [|done|intros [Ho ?]; specialize (Hle Ho); lia].
    intros [Ho Hk].
    assert (probe (hasher_ t) (data_ t) kv.1 j = s) as Heq.
    { apply (ok_uniq _ _ Hok); try done; try lia; [|congruence].
      apply probe_bound. lia. }
    rewrite <- Hp in Heq. unfold probe in Heq.
    apply probe_inj in Heq; lia.
Qed.

(** ** [insert] of a key that is absent *)

Lemma exists_empty d :
  count_nonempty d < length d → ∃ s, s < length d ∧ status (d !!! s) = (-1)%Z.
Proof.
  unfold count_nonempty. induction d as [|nd d IH]; simpl; [lia|].
  rewrite filter_cons. destruct (decide (status nd ≠ (-1)%Z)) as [Hne|He].
  - simpl. intros Hlt. destruct IH as (s & Hs & He); [lia|].
    exists (S s). split; [lia|done].
  - intros _. exists 0. split; [lia|]. simpl. by destruct (decide (status nd = (-1)%Z)).
Qed.

Lemma carrying_start t kv :
  length (data_ t) = buffer_size_ t →
  slots_ok (hasher_ t) (data_ t) →
  count_nonempty (data_ t) < buffer_size_ t →
  fresh_key (data_ t) kv.1 →
  carrying t kv.1 (get_hash t kv.1) 0 kv 0.
Proof.
  intros Hlen Hok Hfree Hfresh.
  assert (0 < buffer_size_ t) as Hpos by lia.
  split; try done.
  - by rewrite probe_code.
  - intros j Hj. lia.
  - intros j Hj [Ho Hk]. eapply Hfresh; [|done..].
    rewrite Hlen. by apply probe_lt.
  - destruct (exists_empty (data_ t)) as (s & Hs & He); [lia|].
    rewrite Hlen in Hs.
    destruct (probe_surj _ Hpos (get_hash t kv.1) s Hs) as (e & He1 & He2).
    exists e. split; [lia|]. by rewrite He2.
Qed.

Lemma insert_loop_absent t kv ii :
  length (data_ t) = buffer_size_ t →
  slots_ok (hasher_ t) (data_ t) →
  count_nonempty (data_ t) < buffer_size_ t →
  fresh_key (data_ t) kv.1 →
  ∃ t' it,
    insert_loop (buffer_size_ t) 0 t kv.1 (get_hash t kv.1) kv 0 ii = (t', it, ReturnEmpty) ∧
    stored t t' kv.
Proof.
  intros Hlen Hok Hfree Hfresh.
  apply insert_loop_carry; [|lia]. by apply carrying_start.
Qed.

(** ** [insert] when no growth is due *)

Lemma resize_with_no_growth ins t :
  2 * cnt_all_ t ≤ buffer_size_ t → resize_with ins t = Some t.
Proof. intros Hl. unfold resize_with. by rewrite bool_decide_eq_false_2 by lia. Qed.

Lemma insert_no_growth fuel t kv :
  2 * cnt_all_ t ≤ buffer_size_ t →
  insert fuel t kv =
  Some (insert_loop (buffer_size_ t) 0 t kv.1 (get_hash t kv.1) kv 0 (-1)).1.
Proof. intros Hl. destruct fuel; simpl; by rewrite resize_with_no_growth. Qed.

Lemma table_ok_load l l' t : table_ok l t → 2 * cnt_all_ t ≤ l' → table_ok l' t.
Proof. intros [] ?. by split. Qed.

Lemma fresh_key_contents t k :
  slots_ok (hasher_ t) (data_ t) → contents t !! k = None ↔ fresh_key (data_ t) k.
Proof. apply contents_lookup_None. Qed.

Lemma stored_contents t t' kv :
  slots_ok (hasher_ t) (data_ t) → stored t t' kv →
  contents t !! kv.1 = None →
  contents t' = <[kv.1 := kv.2]> (contents t).
Proof.
  intros Hok Hst Hnone. apply map_eq. intros k.
  apply option_eq. intros v.
  rewrite contents_lookup by apply Hst. rewrite (st_holds _ _ _ Hst).
  rewrite <- contents_lookup by done.
  destruct kv as [k0 v0]. simpl in *.
  destruct (decide (k = k0)) as [->|Hne].
  - rewrite lookup_insert_eq, Hnone.
    split; [intros [?|[= ->]]; done|intros [= ->]; by right].
  - rewrite lookup_insert_ne by done.
    split; [intros [?|[= -> ->]]; done|by left].
Qed.

Lemma stored_table_ok l t t' kv :
  table_ok l t → stored t t' kv → table_ok (l + 2) t'.
Proof.
  intros [Hlen Hcap Hok Hall Hdead Hload] Hst.
  pose proof Hst as [Hh Hs Hd Ha Hl Hok' _ Hne Hto].
  split.
  - congruence.
  - congruence.
  - done.
  - congruence.
  - congruence.
  - lia.
Qed.

Lemma insert_absent fuel t kv :
  table_ok (buffer_size_ t) t →
  contents t !! kv.1 = None →
  ∃ t' it, insert fuel t kv = Some (t', it) ∧ stored t t' kv ∧
    contents t' = <[kv.1 := kv.2]> (contents t).
Proof.
  intros Hinv Hnone. pose proof Hinv as [Hlen Hcap Hok Hall Hdead Hload].
  rewrite insert_no_growth by done.
  assert (0 < buffer_size_ t) by (unfold default_size_ in Hcap; lia).
  destruct (insert_loop_absent t kv (-1)) as (t' & it & -> & Hst); try done.
  - lia.
  - by apply fresh_key_contents.
  - exists t', it. split_and!; try done. by apply stored_contents.
Qed.

Lemma insert_present fuel t kv v1 :
  table_ok (buffer_size_ t) t →
  contents t !! kv.1 = Some v1 →
  ∃ s, insert fuel t kv = Some (t, s) ∧ s < buffer_size_ t ∧
    status (data_ t !!! s) = 1%Z ∧ keyvalue (data_ t !!! s) = (kv.1, v1).
Proof.
  intros Hinv Hsome. pose proof Hinv as [Hlen Hcap Hok Hall Hdead Hload].
  rewrite insert_no_growth by done.
  apply contents_lookup in Hsome as (s & Hs & Ho & Hkv); [|done].
  exists s. rewrite (insert_loop_present t s); try done; try lia.
  - split_and!; try done. lia.
  - unfold key_of. by rewrite Hkv.
Qed.

(** ** Counting slots *)

Lemma count_split d : count_nonempty d = count_occupied d + count_tombstone d.
Proof.
  unfold count_nonempty, count_occupied, count_tombstone.
  induction d as [|nd d IH]; [done|].
  rewrite !filter_cons.
  destruct (decide (status nd = 1%Z)) as [Ho|Ho];
    destruct (decide (status nd ≠ (-1)%Z)) as [He|He];
    destruct (decide (status nd ≠ (-1)%Z ∧ status nd ≠ 1%Z)) as [Ht|Ht];
    simpl; lia.
Qed.

Lemma size_count t : table_ok (buffer_size_ t + 2) t → size t = count_occupied (data_ t).
Proof.
  intros [_ _ _ Hall Hdead _]. unfold size. rewrite Hall, Hdead, count_split. lia.
Qed.

Lemma size_size_contents t :
  table_ok (buffer_size_ t + 2) t → size t = base.size (contents t).
Proof.
  intros Hinv. rewrite size_count by done. symmetry. apply size_contents, Hinv.
Qed.

(** ** A fresh slot array *)

Lemma replicate_default_status n s :
  status ((replicate n Node_default : list (Node K V)) !!! s) = (-1)%Z.
Proof.
  rewrite list_lookup_total_alt.
  destruct (_ !! s) as [nd|] eqn:E; simpl; [|done].
  by apply lookup_replicate in E as [-> _].
Qed.

Lemma slots_ok_replicate hf n :
  slots_ok hf (replicate n Node_default : list (Node K V)).
Proof.
  split.
  - intros s _. by rewrite replicate_default_status.
  - intros s _. by rewrite replicate_default_status.
  - intros s1 s2 _ _. by rewrite replicate_default_status.
Qed.

Lemma filter_replicate_default (P : Node K V → Prop) `{!∀ x, Decision (P x)} n :
  ¬ P Node_default → filter P (replicate n Node_default : list (Node K V)) = [].
Proof.
  intros HP. induction n as [|n IH]; [done|]. simpl.
  rewrite filter_cons. by rewrite decide_False.
Qed.

Lemma table_ok_fresh hf n :
  default_size_ ≤ n →
  table_ok 0 (mkHashMap hf (replicate n Node_default) 0 0 n).
Proof.
  intros Hn. split; simpl.
  - by rewrite length_replicate.
  - done.
  - apply slots_ok_replicate.
  - unfold count_nonempty. rewrite filter_replicate_default; [done|]. simpl. by intros ?.
  - unfold count_tombstone. rewrite filter_replicate_default; [done|]. simpl. by intros [? _].
  - lia.
Qed.

Lemma contents_fresh hf n : contents (mkHashMap hf (replicate n Node_default) 0 0 n) = ∅.
Proof.
  unfold contents, occupied_pairs. simpl.
  rewrite filter_replicate_default; [done|]. simpl. done.
Qed.

(** ** Growth: replaying the occupied pairs into the fresh array *)

Lemma occupied_pairs_cons nd d :
  occupied_pairs (nd :: d) =
  if decide (status nd = 1%Z) then keyvalue nd :: occupied_pairs d else occupied_pairs d.
Proof. unfold occupied_pairs. rewrite filter_cons. by destruct (decide _). Qed.

Lemma count_occupied_pairs d : count_occupied d = length (occupied_pairs d).
Proof. unfold count_occupied, occupied_pairs. by rewrite length_fmap. Qed.

Lemma stored_dead_zero t t' kv : stored t t' kv → cnt_dead_ t = 0 → cnt_dead_ t' = 0.
Proof. intros Hst. rewrite (st_dead _ _ _ Hst). done. Qed.

Lemma rehash_fold fuel l a :
  table_ok (buffer_size_ a + 2) a →
  NoDup (occupied_pairs l).*1 →
  (∀ kv', kv' ∈ occupied_pairs l → contents a !! kv'.1 = None) →
  2 * (cnt_all_ a + count_occupied l) ≤ buffer_size_ a + 2 →
  ∃ a', foldl (resize_step (insert fuel)) (Some a) l = Some a' ∧
    table_ok (buffer_size_ a' + 2) a' ∧
    hasher_ a' = hasher_ a ∧ buffer_size_ a' = buffer_size_ a ∧
    cnt_dead_ a' = cnt_dead_ a ∧
    cnt_all_ a' = cnt_all_ a + count_occupied l ∧
    (∀ k v, contents a' !! k = Some v ↔
            contents a !! k = Some v ∨ (k, v) ∈ occupied_pairs l).
Proof.
  revert a. induction l as [|nd l IH]; intros a Hok Hnd Hfresh Hload.
  { exists a. simpl. split_and!; try done.
    intros k v. unfold occupied_pairs. rewrite filter_nil. simpl.
    rewrite elem_of_nil. tauto. }
  rewrite count_occupied_pairs in Hload.
  rewrite occupied_pairs_cons in Hnd, Hfresh, Hload.
  simpl. unfold is_occupied.
  destruct (decide (status nd = 1%Z)) as [Ho|Ho].
  - rewrite bool_decide_eq_true_2 by done.
    simpl in Hload. rewrite fmap_cons in Hnd. apply NoDup_cons in Hnd as [Hnin Hnd].
    destruct (insert_absent fuel a (keyvalue nd)) as (a1 & it & -> & Hst & Hcont).
    { eapply table_ok_load; [done|lia]. }
    { apply Hfresh. left. }
    simpl.
    pose proof (st_size _ _ _ Hst) as Hsz. pose proof (st_all _ _ _ Hst) as Hall.
    destruct (IH a1) as (a' & -> & Hok' & Hh & Hb & Hd & Ha & Hc); try done.
    + rewrite Hsz. eapply table_ok_load.
      * eapply stored_table_ok; done.
      * lia.
    + intros kv' Hin. rewrite Hcont. rewrite lookup_insert_ne.
      * apply Hfresh. by right.
      * intros Heq. apply Hnin. rewrite Heq. apply list_elem_of_fmap. by exists kv'.
    + rewrite count_occupied_pairs. lia.
    + exists a'. split_and!; try done.
      * by rewrite Hh, (st_hasher _ _ _ Hst).
      * congruence.
      * by rewrite Hd, (st_dead _ _ _ Hst).
      * rewrite Ha, Hall, (count_occupied_pairs (nd :: l)), occupied_pairs_cons.
        rewrite decide_True by done. rewrite count_occupied_pairs. simpl. lia.
      * intros k v. rewrite Hc, Hcont, occupied_pairs_cons.
        rewrite decide_True by done. rewrite elem_of_cons.
        destruct (keyvalue nd) as [k0 v0] eqn:Hkv. simpl in *.
        assert (contents a !! k0 = None) as Hn0 by (apply (Hfresh (k0, v0)); left).
        destruct (decide (k = k0)) as [->|Hne].
        -- rewrite lookup_insert_eq. rewrite Hn0.
           split; [intros [[= ->]|?]; auto|].
           intros [?|[[= ->]|?]]; auto. done.
        -- rewrite lookup_insert_ne by done.
           split; [intros [?|?]; auto|]. intros [?|[[= -> ->]|?]]; auto. done.
  - rewrite bool_decide_eq_false_2 by done.
    destruct (IH a) as (a' & -> & Hok' & Hh & Hb & Hd & Ha & Hc); try done.
    + rewrite count_occupied_pairs. lia.
    + exists a'. split_and!; try done.
      * rewrite Ha, (count_occupied_pairs (nd :: l)), occupied_pairs_cons.
        rewrite decide_False by done. by rewrite count_occupied_pairs.
      * intros k v. rewrite Hc, occupied_pairs_cons. by rewrite decide_False by done.
Qed.

Lemma insert_unfold fuel t kv :
  insert fuel t kv =
  match resize fuel t with
  | None => None
  | Some t =>
    Some (insert_loop (buffer_size_ t) 0 t kv.1 (get_hash t kv.1) kv 0 (-1)).1
  end.
Proof. by destruct fuel. Qed.

Lemma resize_growth fuel t :
  table_ok (buffer_size_ t + 2) t →
  buffer_size_ t < 2 * cnt_all_ t →
  ∃ t', resize (S fuel) t = Some t' ∧
    table_ok (buffer_size_ t') t' ∧
    buffer_size_ t' = buffer_size_ t * 2 ∧
    hasher_ t' = hasher_ t ∧
    cnt_dead_ t' = 0 ∧
    cnt_all_ t' = count_occupied (data_ t) ∧
    contents t' = contents t.
Proof.
  intros Hinv Hgrow. pose proof Hinv as [Hlen Hcap Hok Hall Hdead Hload].
  unfold resize, resize_with. rewrite bool_decide_eq_true_2 by done.
  cbv zeta.
  set (a := mkHashMap (hasher_ t) (replicate (buffer_size_ t * 2) Node_default)
                      0 0 (buffer_size_ t * 2)).
  assert (count_occupied (data_ t) ≤ cnt_all_ t) as Hle.
  { rewrite Hall, count_split. lia. }
  unfold default_size_ in Hcap.
  destruct (rehash_fold fuel (data_ t) a) as (t' & Hrun & Hok' & Hh & Hb & Hd & Ha & Hc).
  - eapply table_ok_load; [apply table_ok_fresh|]; simpl; unfold default_size_; lia.
  - apply NoDup_occupied_pairs, Hok.
  - intros kv' _. unfold a. by rewrite contents_fresh.
  - simpl. lia.
  - exists t'. simpl in *. split_and!; try done.
    + eapply table_ok_load; [done|]. lia.
    + apply map_eq. intros k. apply option_eq. intros v.
      rewrite Hc. unfold a. rewrite contents_fresh, lookup_empty.
      rewrite contents_lookup by done. rewrite holds_occupied_pairs.
      split; [intros [?|?]; done|by right].
Qed.

Lemma resize_spec fuel t :
  table_ok (buffer_size_ t + 2) t →
  ∃ t', resize (S fuel) t = Some t' ∧
    table_ok (buffer_size_ t') t' ∧
    hasher_ t' = hasher_ t ∧
    contents t' = contents t.
Proof.
  intros Hinv. destruct (decide (buffer_size_ t < 2 * cnt_all_ t)) as [Hg|Hg].
  - destruct (resize_growth fuel t Hinv Hg) as (t' & ? & ? & ? & ? & ? & ? & ?).
    by exists t'.
  - exists t. unfold resize. rewrite resize_with_no_growth by lia.
    split_and!; try done. eapply table_ok_load; [done|lia].
Qed.

(** ** [insert] on a table that satisfies the invariant *)

Lemma insert_spec fuel t kv :
  table_ok (buffer_size_ t + 2) t →
  ∃ t' it, insert (S fuel) t kv = Some (t', it) ∧
    table_ok (buffer_size_ t' + 2) t' ∧
    hasher_ t' = hasher_ t ∧
    contents t' = match contents t !! kv.1 with
                  | Some _ => contents t
                  | None => <[kv.1 := kv.2]> (contents t)
                  end.
Proof.
  intros Hinv. rewrite insert_unfold.
  destruct (resize_spec fuel t Hinv) as (t1 & -> & Hok1 & Hh1 & Hc1).
  rewrite <- Hc1.
  destruct (contents t1 !! kv.1) as [v1|] eqn:Hlook.
  - destruct (insert_present 0 t1 kv v1 Hok1 Hlook) as (s & Hins & _).
    rewrite insert_no_growth in Hins by apply Hok1.
    injection Hins as Hins. rewrite Hins.
    exists t1, s. split_and!; try done. eapply table_ok_load; [done|].
    pose proof (ok_load _ _ Hok1). lia.
  - destruct (insert_absent 0 t1 kv Hok1 Hlook) as (t' & it & Hins & Hst & Hc).
    rewrite insert_no_growth in Hins by apply Hok1.
    injection Hins as Hins. rewrite Hins.
    exists t', it. split_and!; try done.
    + rewrite (st_size _ _ _ Hst). eapply stored_table_ok; done.
    + by rewrite (st_hasher _ _ _ Hst).
Qed.

(** ** [erase] *)

Lemma erase_loop_skip n i t key h1 :
  ¬ (status (data_ t !!! ((h1 + i) mod buffer_size_ t)) = 1%Z ∧
     key_of (data_ t !!! ((h1 + i) mod buffer_size_ t)) = key) →
  status (data_ t !!! ((h1 + i) mod buffer_size_ t)) ≠ (-1)%Z →
  erase_loop (S n) i t key h1 = erase_loop n (S i) t key h1.
Proof.
  intros Hm He. simpl.
  rewrite (proj2 (match_test_false _ _) Hm).
  by rewrite (proj2 (is_empty_false _) He).
Qed.

Lemma erase_loop_empty n i t key h1 :
  status (data_ t !!! ((h1 + i) mod buffer_size_ t)) = (-1)%Z →
  erase_loop (S n) i t key h1 = (t, ReturnEmpty).
Proof.
  intros Hs. simpl.
  rewrite (proj2 (match_test_false _ _)) by (intros [? _]; congruence).
  by rewrite (proj2 (is_empty_spec _) Hs).
Qed.

Lemma erase_loop_hit n i t key h1 :
  let p := (h1 + i) mod buffer_size_ t in
  let nd := data_ t !!! p in
  p < length (data_ t) →
  status nd = 1%Z → key_of nd = key →
  erase_loop (S n) i t key h1 =
  erase_loop n (S i)
    (mkHashMap (hasher_ t) (<[p := mkNode (keyvalue nd) 0 (dist_to_ideal nd)]> (data_ t))
               (cnt_all_ t) (S (cnt_dead_ t)) (buffer_size_ t)) key h1.
Proof.
  intros p nd Hp Ho Hk. simpl. fold p. fold nd.
  rewrite (proj2 (match_test_true _ _) (conj Ho Hk)). simpl.
  rewrite list_lookup_total_insert_eq by done. simpl. done.
Qed.

Lemma erase_loop_pass m n i t key h1 :
  (∀ j, i ≤ j < i + m →
     status (data_ t !!! ((h1 + j) mod buffer_size_ t)) ≠ (-1)%Z ∧
     ¬ (status (data_ t !!! ((h1 + j) mod buffer_size_ t)) = 1%Z ∧
        key_of (data_ t !!! ((h1 + j) mod buffer_size_ t)) = key)) →
  erase_loop (m + n) i t key h1 = erase_loop n (i + m) t key h1.
Proof.
  revert i. induction m as [|m IH]; intros i Hpass.
  - simpl. by rewrite Nat.add_0_r.
  - change (S m + n) with (S (m + n)).
    rewrite erase_loop_skip; [|apply Hpass; lia..].
    rewrite IH; [f_equal; lia|]. intros j Hj. apply Hpass. lia.
Qed.

(** Without an occupied match ahead the loop changes nothing. *)
Lemma erase_loop_absent n i t key h1 :
  (∀ j, i ≤ j < i + n →
     ¬ (status (data_ t !!! ((h1 + j) mod buffer_size_ t)) = 1%Z ∧
        key_of (data_ t !!! ((h1 + j) mod buffer_size_ t)) = key)) →
  (erase_loop n i t key h1).1 = t.
Proof.
  revert i. induction n as [|n IH]; intros i Hno; [done|].
  destruct (decide (status (data_ t !!! ((h1 + i) mod buffer_size_ t)) = (-1)%Z)) as [He|He].
  - by rewrite erase_loop_empty.
  - rewrite erase_loop_skip; [|apply Hno; lia|done].
    apply IH. intros j Hj. apply Hno. lia.
Qed.

Lemma erase_absent t key :
  length (data_ t) = buffer_size_ t →
  fresh_key (data_ t) key → erase t key = t.
Proof.
  intros Hlen Hfresh. unfold erase. apply erase_loop_absent.
  intros j Hj [Ho Hk]. eapply Hfresh; [|done..].
  rewrite Hlen. apply probe_lt. lia.
Qed.

(** The table with slot [s] turned into a tombstone. *)
Lemma slots_ok_tombstone hf d s :
  slots_ok hf d → s < length d →
  slots_ok hf (<[s := mkNode (keyvalue (d !!! s)) 0 (dist_to_ideal (d !!! s))]> d).
Proof.
  intros Hok Hs. split; rewrite ?length_insert.
  - intros s' Hs'. destruct (decide (s' = s)) as [->|Hne].
    + by rewrite list_lookup_total_insert_eq.
    + rewrite list_lookup_total_insert_ne by done. rewrite probe_insert.
      by apply (ok_dist _ _ Hok).
  - intros s' Hs'. destruct (decide (s' = s)) as [->|Hne].
    + by rewrite list_lookup_total_insert_eq.
    + rewrite list_lookup_total_insert_ne by done. intros Ho j Hj.
      rewrite probe_insert.
      destruct (decide (probe hf d (key_of (d !!! s')) j = s)) as [Heq|Hneq].
      * rewrite Heq. by rewrite list_lookup_total_insert_eq.
      * rewrite list_lookup_total_insert_ne by done.
        by apply (ok_chain _ _ Hok).
  - intros s1 s2 Hs1 Hs2.
    destruct (decide (s1 = s)) as [->|Hne1];
      [by rewrite list_lookup_total_insert_eq|].
    destruct (decide (s2 = s)) as [->|Hne2];
      [by rewrite (list_lookup_total_insert_eq _ s)|].
    rewrite !list_lookup_total_insert_ne by done. by apply (ok_uniq _ _ Hok).
Qed.

Lemma erase_present t s :
  length (data_ t) = buffer_size_ t →
  slots_ok (hasher_ t) (data_ t) →
  s < buffer_size_ t → status (data_ t !!! s) = 1%Z →
  erase t (key_of (data_ t !!! s)) =
  mkHashMap (hasher_ t)
    (<[s := mkNode (keyvalue (data_ t !!! s)) 0 (dist_to_ideal (data_ t !!! s))]> (data_ t))
    (cnt_all_ t) (S (cnt_dead_ t)) (buffer_size_ t).
Proof.
  intros Hlen Hok Hs Hocc.
  destruct (ok_dist _ _ Hok s) as [Hc Hp]; [lia|done|].
  set (k := key_of (data_ t !!! s)) in *. set (c := dist_to_ideal (data_ t !!! s)) in *.
  rewrite Hlen in Hc. unfold erase.
  assert ((get_hash t k + c) mod buffer_size_ t = s) as Hs' by (by rewrite probe_code).
  replace (buffer_size_ t) with (c + S (buffer_size_ t - S c)) at 1 by lia.
  rewrite erase_loop_pass.
  - simpl (0 + c). rewrite erase_loop_hit; rewrite Hs'; [|lia|done..].
    apply erase_loop_absent. simpl.
    intros j Hj [Ho Hk]. 
    destruct (decide ((get_hash t k + j) mod buffer_size_ t = s)) as [Heq|Hne].
    + rewrite Heq in Ho. rewrite list_lookup_total_insert_eq in Ho by lia. done.
    + rewrite list_lookup_total_insert_ne in Ho, Hk by done.
      apply Hne. apply (ok_uniq _ _ Hok); try done; try lia.
      rewrite Hlen. apply probe_lt. lia.
  - intros j Hj. rewrite probe_code by done.
    destruct (ok_chain _ _ Hok s ltac:(lia) Hocc j ltac:(lia)) as [Hne _].
    split; [done|]. intros [Ho Hk].
    assert (probe (hasher_ t) (data_ t) k j = s) as Heq.
    { apply (ok_uniq _ _ Hok); try done; try lia.
      apply probe_bound. lia. }
    rewrite <- Hp in Heq. unfold probe in Heq.
    apply probe_inj in Heq; lia.
Qed.

Lemma erase_spec t key :
  table_ok (buffer_size_ t + 2) t →
  table_ok (buffer_size_ t + 2) (erase t key) ∧
  buffer_size_ (erase t key) = buffer_size_ t ∧
  hasher_ (erase t key) = hasher_ t ∧
  contents (erase t key) = delete key (contents t).
Proof.
  intros Hinv. pose proof Hinv as [Hlen Hcap Hok Hall Hdead Hload].
  destruct (contents t !! key) as [v|] eqn:Hlook.
  - apply contents_lookup in Hlook as (s & Hs & Ho & Hkv); [|done].
    assert (key = key_of (data_ t !!! s)) as -> by (unfold key_of; by rewrite Hkv).
    rewrite erase_present by (done || lia).
    set (nd' := mkNode (keyvalue (data_ t !!! s)) 0 (dist_to_ideal (data_ t !!! s))).
    assert (slots_ok (hasher_ t) (<[s := nd']> (data_ t))) as Hok'
      by (by apply slots_ok_tombstone).
    split_and!; try done.
    + split; simpl; try done.
      * by rewrite length_insert.
      * rewrite Hall. unfold count_nonempty.
        pose proof (length_filter_insert (λ nd, status nd ≠ (-1)%Z) (data_ t) s nd' Hs) as Hc.
        rewrite decide_True in Hc by congruence.
        rewrite decide_True in Hc by done. lia.
      * rewrite Hdead. unfold count_tombstone.
        pose proof (length_filter_insert (λ nd, status nd ≠ (-1)%Z ∧ status nd ≠ 1%Z)
                      (data_ t) s nd' Hs) as Hc.
        rewrite decide_False in Hc by (intros [_ ?]; done).
        rewrite decide_True in Hc by done. lia.
    + apply map_eq. intros k. apply option_eq. intros v'.
      rewrite contents_lookup by done. simpl.
      rewrite holds_insert by done. simpl.
      destruct (decide (k = key_of (data_ t !!! s))) as [->|Hne].
      * rewrite lookup_delete_eq. split; [|done].
        intros [[? _]|(s' & Hne & Hs' & Ho' & Hkv')]; [done|].
        destruct Hne. apply (ok_uniq _ _ Hok); try done.
        unfold key_of. by rewrite Hkv'.
      * rewrite lookup_delete_ne by done. rewrite contents_lookup by done.
        rewrite (holds_split _ s) by done.
        split; [intros [[? _]|?]; [done|by right]|].
        intros [[_ Hkv']|?]; [|by right].
        destruct Hne. unfold key_of. by rewrite Hkv'.
  - rewrite erase_absent; [|done|by apply fresh_key_contents].
    split_and!; try done. by rewrite delete_id.
Qed.

(** ** Writes through references, assignment, construction *)

Lemma write_second_data t it v :
  it < length (data_ t) →
  data_ (write_second t it v) =
  <[it := mkNode ((keyvalue (data_ t !!! it)).1, v) (status (data_ t !!! it))
                 (dist_to_ideal (data_ t !!! it))]> (data_ t).
Proof.
  intros Hit. unfold write_second. simpl.
  apply list_eq. intros j. destruct (decide (j = it)) as [->|Hne].
  - rewrite list_lookup_alter_eq, list_lookup_insert_eq by done.
    by rewrite (list_lookup_lookup_total_lt _ _ Hit).
  - by rewrite list_lookup_alter_ne, list_lookup_insert_ne by (by apply not_eq_sym).
Qed.

(** Replacing a node by one with the same key, status and distance. *)
Lemma slots_ok_same_shape hf d p nd :
  slots_ok hf d → p < length d →
  status nd = status (d !!! p) → key_of nd = key_of (d !!! p) →
  dist_to_ideal nd = dist_to_ideal (d !!! p) →
  slots_ok hf (<[p := nd]> d).
Proof.
  intros Hok Hp Hst Hk Hd.
  assert (∀ s, status (<[p := nd]> d !!! s) = status (d !!! s) ∧
               key_of (<[p := nd]> d !!! s) = key_of (d !!! s) ∧
               dist_to_ideal (<[p := nd]> d !!! s) = dist_to_ideal (d !!! s)) as Hsame.
  { intros s. destruct (decide (s = p)) as [->|Hne].
    - by rewrite list_lookup_total_insert_eq.
    - by rewrite list_lookup_total_insert_ne. }
  split; rewrite ?length_insert.
  - intros s Hs. destruct (Hsame s) as (-> & -> & ->). rewrite probe_insert.
    by apply (ok_dist _ _ Hok).
  - intros s Hs. destruct (Hsame s) as (-> & -> & ->). intros Ho j Hj.
    rewrite probe_insert.
    destruct (Hsame (probe hf d (key_of (d !!! s)) j)) as (-> & _ & ->).
    by apply (ok_chain _ _ Hok).
  - intros s1 s2 Hs1 Hs2.
    destruct (Hsame s1) as (-> & -> & _). destruct (Hsame s2) as (-> & -> & _).
    by apply (ok_uniq _ _ Hok).
Qed.

Lemma write_second_ok l t it v :
  table_ok l t → it < length (data_ t) → table_ok l (write_second t it v).
Proof.
  intros [Hlen Hcap Hok Hall Hdead Hload] Hit.
  pose proof (write_second_data t it v Hit) as Hdata.
  set (nd' := mkNode _ _ _) in Hdata.
  split; rewrite ?Hdata; simpl.
  - by rewrite length_insert.
  - done.
  - by apply slots_ok_same_shape.
  - rewrite Hall. unfold count_nonempty.
    pose proof (length_filter_insert (λ nd, status nd ≠ (-1)%Z) (data_ t) it nd' Hit) as Hc.
    simpl in Hc. destruct (decide _); lia.
  - rewrite Hdead. unfold count_tombstone.
    pose proof (length_filter_insert (λ nd, status nd ≠ (-1)%Z ∧ status nd ≠ 1%Z)
                  (data_ t) it nd' Hit) as Hc.
    simpl in Hc. destruct (decide _); lia.
  - done.
Qed.

Lemma operator_assign_eq (this other : HashMap K V) : operator_assign this other = other.
Proof. by destruct other. Qed.

Lemma HashMap_copy_eq hasher (other : HashMap K V) : HashMap_copy hasher other = other.
Proof. apply operator_assign_eq. Qed.

Lemma clear_eq t : clear t = HashMap_new (hasher_ t).
Proof. apply operator_assign_eq. Qed.

Lemma HashMap_new_ok (hasher : K → nat) :
  table_ok 0 (HashMap_new hasher : HashMap K V).
Proof. by apply table_ok_fresh. Qed.

Lemma contents_new (hasher : K → nat) : contents (HashMap_new hasher : HashMap K V) = ∅.
Proof. apply contents_fresh. Qed.

Lemma Inv_new (hasher : K → nat) : Inv (HashMap_new hasher : HashMap K V).
Proof. eapply table_ok_load; [apply HashMap_new_ok|]. simpl. lia. Qed.

Lemma find_lt_or_end t key :
  0 < buffer_size_ t →
  find t key < buffer_size_ t ∨ find t key = buffer_size_ t.
Proof.
  intros Hpos. unfold find. destruct (find_loop _ _ _ _ _) as [it e] eqn:Hf.
  apply find_loop_sound in Hf as [(_ & (j & Hj & ->) & _)|[_ ->]]; simpl.
  - left. by apply probe_lt.
  - by right.
Qed.

Lemma operator_index_spec fuel t key :
  Inv t →
  ∃ t' it, operator_index (S fuel) t key = Some (t', it) ∧ Inv t' ∧
    hasher_ t' = hasher_ t ∧
    contents t' = match contents t !! key with
                  | Some _ => contents t
                  | None => <[key := value_init]> (contents t)
                  end.
Proof.
  intros Hinv. unfold operator_index.
  pose proof (find_value_contents t key (ok_length _ _ Hinv) (ok_slots _ _ Hinv)) as Hfv.
  unfold find_value in Hfv.
  destruct (bool_decide (find t key = end_ t)) eqn:Hend.
  - destruct (insert_spec fuel t (key, value_init) Hinv) as (t' & it & -> & ? & ? & Hc).
    exists t', it. split_and!; [done..|]. rewrite Hc. simpl. by rewrite <- Hfv.
  - exists t, (find t key). split_and!; [done..|]. by rewrite <- Hfv.
Qed.

(** ** More fuel never changes a result *)

Lemma foldl_resize_step_None ins (l : list (Node K V)) :
  foldl (resize_step ins) None l = None.
Proof. by induction l. Qed.

Lemma resize_with_mono ins ins' t t' :
  (∀ a kv r, ins a kv = Some r → ins' a kv = Some r) →
  resize_with ins t = Some t' → resize_with ins' t = Some t'.
Proof.
  intros Hmono. unfold resize_with. destruct (bool_decide _); [|done].
  cbv zeta. generalize (Some (mkHashMap (hasher_ t)
    (replicate (buffer_size_ t * 2) Node_default) 0 0 (buffer_size_ t * 2))).
  induction (data_ t) as [|nd l IH]; intros acc; simpl; [done|].
  destruct acc as [a|]; simpl; [|by rewrite foldl_resize_step_None].
  destruct (is_occupied nd); [|apply IH].
  destruct (ins a (keyvalue nd)) as [r|] eqn:Hr; simpl.
  - rewrite (Hmono _ _ _ Hr). apply IH.
  - by rewrite foldl_resize_step_None.
Qed.

Lemma insert_fuel_S fuel t kv r :
  insert fuel t kv = Some r → insert (S fuel) t kv = Some r.
Proof.
  revert t kv r. induction fuel as [|fuel IH]; intros t kv r;
    rewrite !insert_unfold; unfold resize.
  - destruct (resize_with (λ _ _, None) t) as [t1|] eqn:Hr; [|done].
    intros Hins.
    by rewrite (resize_with_mono (λ _ _, None) (insert 0) _ _ ltac:(done) Hr).
  - destruct (resize_with (insert fuel) t) as [t1|] eqn:Hr; [|done].
    intros Hins.
    by rewrite (resize_with_mono (insert fuel) (insert (S fuel)) _ _ IH Hr).
Qed.

Lemma insert_fuel_mono fuel fuel' t kv r :
  fuel ≤ fuel' → insert fuel t kv = Some r → insert fuel' t kv = Some r.
Proof.
  induction 1 as [|fuel' _ IH]; [done|]. intros Hins. by apply insert_fuel_S, IH.
Qed.

Lemma insert_Inv fuel t kv t' it :
  Inv t → insert fuel t kv = Some (t', it) →
  Inv t' ∧ hasher_ t' = hasher_ t ∧
  contents t' = match contents t !! kv.1 with
                | Some _ => contents t
                | None => <[kv.1 := kv.2]> (contents t)
                end.
Proof.
  intros Hinv Hins. apply insert_fuel_S in Hins.
  destruct (insert_spec fuel t kv Hinv) as (t1 & it1 & Hins1 & ? & ? & ?).
  rewrite Hins1 in Hins. by injection Hins as <- <-.
Qed.

Lemma operator_index_Inv fuel t key t' it :
  Inv t → operator_index fuel t key = Some (t', it) →
  Inv t' ∧ hasher_ t' = hasher_ t ∧
  contents t' = match contents t !! key with
                | Some _ => contents t
                | None => <[key := value_init]> (contents t)
                end.
Proof.
  intros Hinv Hidx.
  assert (operator_index (S fuel) t key = Some (t', it)) as Hidx'.
  { unfold operator_index in *. destruct (bool_decide _); [|done].
    by apply insert_fuel_S. }
  destruct (operator_index_spec fuel t key Hinv) as (t1 & it1 & Hi1 & ? & ? & ?).
  rewrite Hi1 in Hidx'. by injection Hidx' as <- <-.
Qed.

(** ** Every reachable table satisfies the invariant *)

Lemma reachable_Inv t : reachable t → Inv t.
Proof.
  induction 1 as [hasher|fuel t kv t' it _ IH Hins|t k _ IH|fuel t k t' it _ IH Hidx
                 |t it v _ IH Hit|t _ _|this other _ IH].
  - apply Inv_new.
  - by destruct (insert_Inv _ _ _ _ _ IH Hins).
  - unfold Inv. destruct (erase_spec t k IH) as (? & -> & _). done.
  - by destruct (operator_index_Inv _ _ _ _ _ IH Hidx).
  - by apply write_second_ok.
  - rewrite clear_eq. apply Inv_new.
  - by rewrite operator_assign_eq.
Qed.

(** ** What [find] returns, in terms of the represented mapping *)

Lemma find_Some t key v :
  Inv t → contents t !! key = Some v →
  find t key < buffer_size_ t ∧ find t key ≠ end_ t ∧
  status (data_ t !!! find t key) = 1%Z ∧
  keyvalue (data_ t !!! find t key) = (key, v).
Proof.
  intros Hinv Hc. pose proof Hinv as [Hlen _ Hok _ _ _].
  apply contents_lookup in Hc as (s & Hs & Ho & Hkv); [|done].
  assert (key = key_of (data_ t !!! s)) as -> by (unfold key_of; by rewrite Hkv).
  rewrite find_holder by (done || lia). unfold end_. split_and!; try done; lia.
Qed.

Lemma find_None t key :
  Inv t → contents t !! key = None ↔ find t key = end_ t.
Proof.
  intros Hinv. pose proof Hinv as [Hlen _ Hok _ _ _].
  pose proof (find_value_contents t key Hlen Hok) as Hfv. unfold find_value in Hfv.
  rewrite <- Hfv. case_bool_decide; split; done.
Qed.

Lemma resize_fuel_S fuel t t' : resize fuel t = Some t' → resize (S fuel) t = Some t'.
Proof.
  unfold resize. destruct fuel as [|fuel].
  - by apply resize_with_mono.
  - apply resize_with_mono. intros a kv r. apply insert_fuel_S.
Qed.

Lemma resize_Inv fuel t t' :
  Inv t → resize fuel t = Some t' →
  table_ok (buffer_size_ t') t' ∧ hasher_ t' = hasher_ t ∧ contents t' = contents t.
Proof.
  intros Hinv Hr. apply resize_fuel_S in Hr.
  destruct (resize_spec fuel t Hinv) as (t1 & Hr1 & ? & ? & ?).
  rewrite Hr1 in Hr. by injection Hr as <-.
Qed.

(** ** Writes through references do not touch keys *)

Lemma write_second_out_of_range t it v :
  length (data_ t) ≤ it → write_second t it v = t.
Proof.
  intros Hit. unfold write_second, set_data.
  set (f := λ nd : Node K V, mkNode ((keyvalue nd).1, v) (status nd) (dist_to_ideal nd)).
  assert (alter f it (data_ t) = data_ t) as ->; [|by destruct t].
  apply list_eq. intros j. destruct (decide (j = it)) as [->|Hne].
  - rewrite list_lookup_alter_eq. by rewrite (lookup_ge_None_2 _ _ Hit).
  - by rewrite list_lookup_alter_ne by (by apply not_eq_sym).
Qed.

Lemma occupied_keys_insert_same d p nd :
  p < length d → status nd = status (d !!! p) → key_of nd = key_of (d !!! p) →
  (occupied_pairs (<[p := nd]> d)).*1 = (occupied_pairs d).*1.
Proof.
  revert p. induction d as [|x d IH]; intros p Hp Hst Hk; simpl in Hp; [lia|].
  destruct p as [|p]; simpl.
  - change ((x :: d) !!! 0) with x in Hst, Hk.
    rewrite !occupied_pairs_cons, Hst.
    destruct (decide _); [|done]. rewrite !fmap_cons. f_equal. exact Hk.
  - change ((x :: d) !!! S p) with (d !!! p) in Hst, Hk.
    rewrite !occupied_pairs_cons. destruct (decide _).
    + rewrite !fmap_cons. f_equal. apply IH; [lia|done..].
    + apply IH; [lia|done..].
Qed.

Lemma write_second_Inv t it v : Inv t → Inv (write_second t it v).
Proof.
  intros Hinv. destruct (decide (it < length (data_ t))) as [Hit|Hit].
  - by apply write_second_ok.
  - rewrite write_second_out_of_range by lia. done.
Qed.

Lemma write_second_dom t it v : dom (contents (write_second t it v)) = dom (contents t).
Proof.
  destruct (decide (it < length (data_ t))) as [Hit|Hit].
  - unfold contents. rewrite !dom_list_to_map_L, write_second_data by done.
    by rewrite occupied_keys_insert_same.
  - by rewrite write_second_out_of_range by lia.
Qed.

(** ** Sequences of calls *)

Lemma union_singleton_absorb (k : K) (s : gset K) : k ∈ s → s = {[ k ]} ∪ s.
Proof.
  intros Hin. apply set_eq. intros x. rewrite elem_of_union, elem_of_singleton.
  split; [by right|by intros [->|?]].
Qed.

Lemma insert_each_reachable fuel l t t' :
  reachable t → insert_each fuel t l = Some t' → reachable t'.
Proof.
  revert t. induction l as [|kv l IH]; intros t Hr; simpl.
  - by intros [= <-].
  - destruct (insert fuel t kv) as [[t1 it]|] eqn:Hins; [|done]. simpl.
    apply IH. by eapply reach_insert.
Qed.

(** ** [find] and the probe sequence of the specification *)

Lemma find_loop_list_find n i t key h1 :
  (find_loop n i t key h1).1 =
  match list_find (λ s, status (data_ t !!! s) = (-1)%Z ∨
                        (status (data_ t !!! s) = 1%Z ∧ key_of (data_ t !!! s) = key))
                  ((λ j, (h1 + j) mod buffer_size_ t) <$> seq i n) with
  | Some (_, s) => if decide (status (data_ t !!! s) = (-1)%Z) then buffer_size_ t else s
  | None => buffer_size_ t
  end.
Proof.
  revert i. induction n as [|n IH]; intros i; [done|].
  cbn [seq fmap list_fmap list_find]. 
  set (p := (h1 + i) mod buffer_size_ t).
  destruct (decide (status (data_ t !!! p) = 1%Z ∧ key_of (data_ t !!! p) = key))
    as [[Ho Hk]|Hm].
  - rewrite find_loop_match by done. fold p.
    rewrite decide_True by (by right). simpl.
    rewrite decide_False by congruence. done.
  - destruct (decide (status (data_ t !!! p) = (-1)%Z)) as [He|He].
    + rewrite find_loop_empty by done.
      rewrite decide_True by (by left). simpl.
      by rewrite decide_True.
    + rewrite find_loop_skip by done. rewrite IH.
      rewrite decide_False by (intros [?|?]; done).
      by destruct (list_find _ _) as [[j s]|].
Qed.

(** ** An empty slot stops every scan *)

Lemma Inv_empty_slot t h :
  Inv t → ∃ e, e < buffer_size_ t ∧
    status (data_ t !!! ((h + e) mod buffer_size_ t)) = (-1)%Z.
Proof.
  intros [Hlen Hcap Hok Hall Hdead Hload]. unfold default_size_ in Hcap.
  destruct (exists_empty (data_ t)) as (s & Hs & He); [lia|].
  rewrite Hlen in Hs.
  destruct (probe_surj (buffer_size_ t) ltac:(lia) h s Hs) as (e & He1 & He2).
  exists e. by rewrite He2.
Qed.

Lemma find_loop_no_wrap n i t key h1 :
  (∃ e, i ≤ e < i + n ∧ status (data_ t !!! ((h1 + e) mod buffer_size_ t)) = (-1)%Z) →
  (find_loop n i t key h1).2 ≠ FallThrough.
Proof.
  revert i. induction n as [|n IH]; intros i (e & He & Hempty); [lia|].
  set (p := (h1 + i) mod buffer_size_ t).
  destruct (decide (status (data_ t !!! p) = 1%Z ∧ key_of (data_ t !!! p) = key))
    as [[Ho Hk]|Hm].
  - by rewrite find_loop_match.
  - destruct (decide (status (data_ t !!! p) = (-1)%Z)) as [Hemp|Hemp].
    + by rewrite find_loop_empty.
    + rewrite find_loop_skip by done. apply IH. exists e. split; [|done].
      destruct (decide (e = i)) as [->|]; [done|lia].
Qed.

Lemma erase_loop_no_wrap n i t key h1 :
  length (data_ t) = buffer_size_ t → i + n ≤ buffer_size_ t →
  (∃ e, i ≤ e < i + n ∧ status (data_ t !!! ((h1 + e) mod buffer_size_ t)) = (-1)%Z) →
  (erase_loop n i t key h1).2 ≠ FallThrough.
Proof.
  revert i t. induction n as [|n IH]; intros i t Hlen Hn (e & He & Hempty); [lia|].
  assert (0 < buffer_size_ t) as Hpos by lia.
  set (p := (h1 + i) mod buffer_size_ t).
  assert (p < length (data_ t)) as Hp by (rewrite Hlen; by apply probe_lt).
  destruct (decide (status (data_ t !!! p) = 1%Z ∧ key_of (data_ t !!! p) = key))
    as [[Ho Hk]|Hm].
  - rewrite erase_loop_hit by done. fold p.
    assert (e ≠ i) by (intros ->; fold p in Hempty; congruence).
    apply IH; simpl.
    + by rewrite length_insert.
    + lia.
    + exists e. split; [lia|]. rewrite list_lookup_total_insert_ne; [done|].
      unfold p. intros Heq. apply probe_inj in Heq; lia.
  - destruct (decide (status (data_ t !!! p) = (-1)%Z)) as [Hemp|Hemp].
    + by rewrite erase_loop_empty.
    + rewrite erase_loop_skip by done. apply IH; [done|lia|].
      exists e. split; [|done]. destruct (decide (e = i)) as [->|]; [done|lia].
Qed.

Lemma insert_loop_no_wrap t kv :
  table_ok (buffer_size_ t) t →
  ∃ t' it e,
    insert_loop (buffer_size_ t) 0 t kv.1 (get_hash t kv.1) kv 0 (-1) = (t', it, e) ∧
    e ≠ FallThrough ∧
    buffer_size_ t' = buffer_size_ t ∧
    2 * cnt_all_ t' ≤ buffer_size_ t' + 2.
Proof.
  intros Hok. pose proof Hok as [Hlen Hcap Hsl Hall Hdead Hload].
  unfold default_size_ in Hcap.
  destruct (contents t !! kv.1) as [v1|] eqn:Hlook.
  - apply contents_lookup in Hlook as (s & Hs & Ho & Hkv); [|done].
    exists t, s, ReturnMatch. rewrite (insert_loop_present t s); try done; try lia.
    + split_and!; try done. lia.
    + unfold key_of. by rewrite Hkv.
  - destruct (insert_loop_absent t kv (-1)) as (t' & it & Hrun & Hst); try done.
    + lia.
    + by apply fresh_key_contents.
    + exists t', it, ReturnEmpty. split_and!; try done.
      * apply Hst.
      * rewrite (st_size _ _ _ Hst), (st_all _ _ _ Hst). lia.
Qed.

(** ** Growth replays the occupied pairs in slot-array order *)

Lemma foldl_reinsert_None ins (l : list (KvType K V)) : foldl (reinsert ins) None l = None.
Proof. by induction l. Qed.

Lemma foldl_resize_step_pairs ins acc d :
  foldl (resize_step ins) acc d = foldl (reinsert ins) acc (occupied_pairs d).
Proof.
  revert acc. induction d as [|nd d IH]; intros acc; [done|].
  rewrite occupied_pairs_cons. simpl.
  destruct acc as [a|].
  - simpl. unfold is_occupied. destruct (decide (status nd = 1%Z)) as [Ho|Ho].
    + rewrite bool_decide_eq_true_2 by done. simpl. apply IH.
    + rewrite bool_decide_eq_false_2 by done. apply IH.
  - simpl. rewrite foldl_resize_step_None.
    destruct (decide _); simpl; by rewrite foldl_reinsert_None.
Qed.

Lemma count_tombstone_zero d s :
  count_tombstone d = 0 → status (d !!! s) = 1%Z ∨ status (d !!! s) = (-1)%Z.
Proof.
  intros Hz. unfold count_tombstone in Hz. apply nil_length_inv in Hz.
  destruct (decide (s < length d)) as [Hs|Hs].
  - destruct (decide (status (d !!! s) ≠ (-1)%Z ∧ status (d !!! s) ≠ 1%Z)) as [Ht|Ht].
    + assert (d !!! s ∈ filter (λ nd, status nd ≠ (-1)%Z ∧ status nd ≠ 1%Z) d) as Hin.
      { apply list_elem_of_filter. split; [done|].
        apply list_elem_of_lookup. exists s. by apply list_lookup_lookup_total_lt. }
      rewrite Hz in Hin. by apply elem_of_nil in Hin.
    + lia.
  - right. rewrite list_lookup_total_alt, lookup_ge_None_2 by lia. done.
Qed.

(** ** Objects in a store *)

Lemma store_step_other fuel (σ σ' : gmap nat (HashMap K V)) this o r other :
  store_step fuel σ this o = Some (σ', r) → other ≠ this → σ' !! other = σ !! other.
Proof.
  unfold store_step. intros Hstep Hne.
  destruct (σ !! this) as [t|]; [|done]. simpl in Hstep.
  destruct (step fuel t o) as [[t' r']|]; [|done]. simpl in Hstep.
  injection Hstep as <- <-. by rewrite lookup_insert_ne.
Qed.

Lemma store_run_other fuel ops (σ σ' : gmap nat (HashMap K V)) this rs other :
  store_run fuel σ this ops = Some (σ', rs) → other ≠ this → σ' !! other = σ !! other.
Proof.
  revert σ rs. induction ops as [|o ops IH]; intros σ rs; simpl.
  - by intros [= <- <-].
  - destruct (store_step fuel σ this o) as [[σ1 r]|] eqn:Hstep; [|done]. simpl.
    destruct (store_run fuel σ1 this ops) as [[σ2 rs']|] eqn:Hrun; [|done]. simpl.
    intros [= <- <-] Hne. rewrite (IH _ _ Hrun Hne). by eapply store_step_other.
Qed.

Lemma store_run_run fuel ops (σ : gmap nat (HashMap K V)) this t :
  σ !! this = Some t →
  store_run fuel σ this ops =
  '(t', rs) ← run fuel t ops; Some (<[this := t']> σ, rs).
Proof.
  revert σ t. induction ops as [|o ops IH]; intros σ t Hl; simpl.
  - by rewrite insert_id.
  - unfold store_step at 1. rewrite Hl. simpl.
    destruct (step fuel t o) as [[t1 r]|]; [|done]. simpl.
    rewrite (IH _ t1) by apply lookup_insert_eq.
    destruct (run fuel t1 ops) as [[t2 rs]|]; [|done]. simpl.
    by rewrite insert_insert_eq.
Qed.

(** ** The subtraction in [size] never wraps *)

Lemma Inv_dead_le_all t : Inv t → cnt_dead_ t ≤ cnt_all_ t.
Proof. intros [_ _ _ Hall Hdead _]. rewrite Hall, Hdead, count_split. lia. Qed.

Lemma slots_ok_chain_intact t :
  length (data_ t) = buffer_size_ t → 0 < buffer_size_ t →
  slots_ok (hasher_ t) (data_ t) → probe_chain_intact t.
Proof.
  intros Hlen Hpos Hok i Hi Ho h j Hj.
  destruct (ok_dist _ _ Hok i ltac:(lia) Ho) as [Hc Hp].
  pose proof (ok_chain _ _ Hok i ltac:(lia) Ho) as Hchain.
  set (k := key_of (data_ t !!! i)) in *.
  set (c := dist_to_ideal (data_ t !!! i)) in *.
  rewrite Hlen in Hc. unfold probe in Hp. rewrite Hlen in Hp.
  unfold h, get_hash in Hj.
  rewrite (probe_dist _ Hpos (hasher_ t k) i c Hc Hp) in Hj.
  unfold h. rewrite probe_code by done.
  destruct (decide (j = c)) as [->|Hne].
  - unfold probe. rewrite Hlen, Hp, Ho. done.
  - apply Hchain. lia.
Qed.

(** ** The scans of the re-insertions during growth *)

Lemma occupied_pairs_of_pairs (l : list (KvType K V)) :
  occupied_pairs ((λ kv, mkNode kv 1 0) <$> l) = l.
Proof.
  induction l as [|kv l IH]; [done|].
  rewrite fmap_cons, occupied_pairs_cons.
  rewrite decide_True by done. simpl. by rewrite IH.
Qed.

Lemma rehash_pairs fuel (l : list (KvType K V)) a :
  table_ok (buffer_size_ a + 2) a →
  NoDup l.*1 →
  (∀ kv', kv' ∈ l → contents a !! kv'.1 = None) →
  2 * (cnt_all_ a + length l) ≤ buffer_size_ a + 2 →
  ∃ a', foldl (reinsert (insert fuel)) (Some a) l = Some a' ∧
    table_ok (buffer_size_ a' + 2) a' ∧
    buffer_size_ a' = buffer_size_ a ∧
    cnt_all_ a' = cnt_all_ a + length l.
Proof.
  intros Hok Hnd Hfresh Hload.
  destruct (rehash_fold fuel ((λ kv, mkNode kv 1 0) <$> l) a)
    as (a' & Hrun & Hok' & _ & Hb & _ & Ha & _).
  - done.
  - by rewrite occupied_pairs_of_pairs.
  - by rewrite occupied_pairs_of_pairs.
  - by rewrite count_occupied_pairs, occupied_pairs_of_pairs.
  - exists a'. rewrite foldl_resize_step_pairs, occupied_pairs_of_pairs in Hrun.
    rewrite count_occupied_pairs, occupied_pairs_of_pairs in Ha. done.
Qed.

Lemma growth_scans_no_wrap fuel t l1 kv l2 :
  Inv t → buffer_size_ t < 2 * cnt_all_ t →
  occupied_pairs (data_ t) = l1 ++ kv :: l2 →
  ∃ a,
    foldl (reinsert (insert fuel))
          (Some (mkHashMap (hasher_ t) (replicate (buffer_size_ t * 2) Node_default)
                           0 0 (buffer_size_ t * 2))) l1 = Some a ∧
    2 * cnt_all_ a ≤ buffer_size_ a ∧
    (insert_loop (buffer_size_ a) 0 a kv.1 (get_hash a kv.1) kv 0 (-1)).2 ≠ FallThrough.
Proof.
  intros Hinv Hgrow Hsplit. pose proof Hinv as [Hlen Hcap Hok Hall Hdead Hload].
  unfold default_size_ in Hcap.
  set (a0 := mkHashMap (hasher_ t) (replicate (buffer_size_ t * 2) Node_default)
                       0 0 (buffer_size_ t * 2)).
  pose proof (NoDup_occupied_pairs (data_ t) (ok_uniq _ _ Hok)) as Hnd.
  assert (length l1 + 1 + length l2 ≤ cnt_all_ t) as Hcount.
  { rewrite Hall, count_split, count_occupied_pairs, Hsplit.
    rewrite length_app. simpl. lia. }
  rewrite Hsplit, fmap_app in Hnd. apply NoDup_app in Hnd as (Hnd1 & _ & _).
  destruct (rehash_pairs fuel l1 a0) as (a & Hrun & Hoka & Hb & Ha).
  - eapply table_ok_load; [apply table_ok_fresh|]; simpl; unfold default_size_; lia.
  - done.
  - intros kv' _. unfold a0. by rewrite contents_fresh.
  - simpl. lia.
  - simpl in Hb, Ha. exists a. split; [done|].
    assert (table_ok (buffer_size_ a) a) as Hoka'.
    { eapply table_ok_load; [done|]. lia. }
    split; [apply Hoka'|].
    destruct (insert_loop_no_wrap a kv Hoka') as (t' & it & e & -> & He & _). done.
Qed.

(** ** Iterators *)

Lemma advance_past_empty_spec n t idx :
  idx ≤ length (data_ t) → length (data_ t) - idx ≤ n →
  idx ≤ advance_past_empty n t idx ≤ length (data_ t) ∧
  (advance_past_empty n t idx < length (data_ t) →
   status (data_ t !!! advance_past_empty n t idx) = 1%Z) ∧
  (∀ j, idx ≤ j < advance_past_empty n t idx → status (data_ t !!! j) ≠ 1%Z).
Proof.
  revert idx. induction n as [|n IH]; intros idx Hle Hn; simpl.
  - split_and!; [lia..|]. intros j Hj. lia.
  - case_bool_decide as Hlt; simpl.
    + destruct (is_occupied (data_ t !!! idx)) eqn:Ho; simpl.
      * apply is_occupied_spec in Ho. split_and!; [lia..|done|]. intros j Hj. lia.
      * destruct (IH (S idx)) as (Hr & Hocc & Hskip); [lia..|].
        split_and!; [lia..|done|]. intros j Hj.
        destruct (decide (j = idx)) as [->|Hne].
        -- intros Hs. apply is_occupied_spec in Hs. congruence.
        -- apply Hskip. lia.
    + split_and!; [lia..|]. intros j Hj. lia.
Qed.

Lemma occupied_pairs_nil : occupied_pairs ([] : list (Node K V)) = [].
Proof. unfold occupied_pairs. by rewrite filter_nil. Qed.

Lemma occupied_pairs_drop_occupied d idx :
  idx < length d → status (d !!! idx) = 1%Z →
  occupied_pairs (drop idx d) = keyvalue (d !!! idx) :: occupied_pairs (drop (S idx) d).
Proof.
  intros Hlt Ho.
  rewrite (drop_S d (d !!! idx) idx) by (by apply list_lookup_lookup_total_lt).
  rewrite occupied_pairs_cons. by rewrite decide_True.
Qed.

Lemma occupied_pairs_drop_skip d idx r :
  idx ≤ r → r ≤ length d →
  (∀ j, idx ≤ j < r → status (d !!! j) ≠ 1%Z) →
  occupied_pairs (drop idx d) = occupied_pairs (drop r d).
Proof.
  intros Hle Hr. induction Hle as [|r Hle IH]; intros Hskip; [done|].
  rewrite IH; [|lia|intros j Hj; apply Hskip; lia].
  rewrite (drop_S d (d !!! r) r) by (apply list_lookup_lookup_total_lt; lia).
  rewrite occupied_pairs_cons. rewrite decide_False; [done|]. apply Hskip. lia.
Qed.

Lemma traverse_from_spec fuel t it :
  it ≤ length (data_ t) →
  (it < length (data_ t) → status (data_ t !!! it) = 1%Z) →
  length (data_ t) - it < fuel →
  traverse_from fuel t it = Some (occupied_pairs (drop it (data_ t))).
Proof.
  revert it. induction fuel as [|fuel IH]; intros it Hle Hocc Hfuel; [lia|].
  simpl. unfold end_. case_bool_decide as Hend.
  - subst it. by rewrite drop_all, occupied_pairs_nil.
  - assert (it < length (data_ t)) as Hlt by lia.
    unfold operator_incr, operator_deref.
    destruct (advance_past_empty_spec (length (data_ t) - S it) t (S it))
      as (Hr & Hro & Hskip); [lia..|].
    set (r := advance_past_empty _ _ _) in *.
    rewrite IH; [|lia|done|lia]. simpl.
    rewrite (occupied_pairs_drop_occupied _ it); [|exact Hlt|exact (Hocc Hlt)].
    rewrite (occupied_pairs_drop_skip _ (S it) r); [done|lia|lia|exact Hskip].
Qed.

Lemma traverse_spec fuel t :
  length (data_ t) < fuel → traverse fuel t = Some (occupied_pairs (data_ t)).
Proof.
  intros Hfuel. unfold traverse, begin.
  destruct (advance_past_empty_spec (length (data_ t)) t 0) as (Hr & Hro & Hskip); [lia..|].
  set (r := advance_past_empty _ _ _) in *.
  rewrite traverse_from_spec; [|lia|done|lia].
  rewrite <- (occupied_pairs_drop_skip _ 0 r); [done|lia|lia|exact Hskip].
Qed.

Lemma count_occupied_zero d :
  count_occupied d = 0 ↔ ∀ j, j < length d → status (d !!! j) ≠ 1%Z.
Proof.
  rewrite count_occupied_pairs. split.
  - intros Hz j Hj Ho. apply nil_length_inv in Hz.
    assert (holds d (keyvalue (d !!! j)).1 (keyvalue (d !!! j)).2) as Hh.
    { exists j. split_and!; [done..|]. by destruct (keyvalue _). }
    apply holds_occupied_pairs in Hh. rewrite Hz in Hh. by apply elem_of_nil in Hh.
  - intros Hno. destruct (occupied_pairs d) as [|[k v] l] eqn:Hl; [done|].
    assert (holds d k v) as (s & Hs & Ho & _).
    { apply holds_occupied_pairs. rewrite Hl. left. }
    by destruct (Hno s Hs).
Qed.

Lemma begin_end_iff t : begin t = end_ t ↔ count_occupied (data_ t) = 0.
Proof.
  unfold begin, end_.
  destruct (advance_past_empty_spec (length (data_ t)) t 0) as (Hr & Hro & Hskip); [lia..|].
  set (r := advance_past_empty _ _ _) in *.
  rewrite count_occupied_zero. split.
  - intros Heq j Hj. apply Hskip. lia.
  - intros Hno. destruct (decide (r = length (data_ t))) as [|Hne]; [done|].
    destruct (Hno r); [lia|]. apply Hro. lia.
Qed.

(** ** The iterator [insert] returns *)

Lemma int_of_size_t_small p :
  (Z.of_nat p < 2 ^ 31)%Z → int_of_size_t p = Z.of_nat p.
Proof.
  intros Hp. unfold int_of_size_t.
  rewrite Z.mod_small by lia.
  destruct (Z.ltb_spec (Z.of_nat p) (2 ^ 31)); lia.
Qed.

Lemma size_t_of_int_of_nat p :
  (Z.of_nat p < 2 ^ 31)%Z → size_t_of_int (Z.of_nat p) = p.
Proof.
  intros Hp. unfold size_t_of_int. rewrite Z.mod_small by lia. apply Nat2Z.id.
Qed.

Lemma occupied_in_range d p : status (d !!! p) = 1%Z → p < length d.
Proof.
  intros Ho. destruct (decide (p < length d)) as [|Hge]; [done|].
  rewrite list_lookup_total_alt, lookup_ge_None_2 in Ho by lia. done.
Qed.

(** Case analysis on one iteration of the loop of [insert]. *)
Lemma insert_loop_cases n i t key h1 kv cur ii :
  let p := (h1 + i) mod buffer_size_ t in
  let nd := data_ t !!! p in
  (status nd = 1%Z ∧ key_of nd = key ∧
   insert_loop (S n) i t key h1 kv cur ii = (t, p, ReturnMatch)) ∨
  (status nd = (-1)%Z ∧
   insert_loop (S n) i t key h1 kv cur ii =
   (mkHashMap (hasher_ t) (<[p := Node_of kv cur]> (data_ t))
              (S (cnt_all_ t)) (cnt_dead_ t) (buffer_size_ t),
    size_t_of_int (if bool_decide (ii = (-1)%Z) then int_of_size_t p else ii),
    ReturnEmpty)) ∨
  (status nd = 1%Z ∧ dist_to_ideal nd < cur ∧ p < length (data_ t) ∧
   insert_loop (S n) i t key h1 kv cur ii =
   insert_loop n (S i) (set_data t (<[p := mkNode kv 1 cur]> (data_ t))) key h1
     (keyvalue nd) (S (dist_to_ideal nd))
     (if bool_decide (ii = (-1)%Z) then int_of_size_t p else ii)) ∨
  (status nd ≠ (-1)%Z ∧ ¬ (status nd = 1%Z ∧ dist_to_ideal nd < cur) ∧
   insert_loop (S n) i t key h1 kv cur ii = insert_loop n (S i) t key h1 kv (S cur) ii).
Proof.
  intros p nd.
  destruct (decide (status nd = 1%Z ∧ key_of nd = key)) as [[Ho Hk]|Hm].
  { left. split_and!; [done..|]. by apply insert_loop_match. }
  destruct (decide (status nd = (-1)%Z)) as [He|He].
  { right; left. split; [done|]. by apply insert_loop_place. }
  destruct (decide (status nd = 1%Z ∧ dist_to_ideal nd < cur)) as [[Ho Hr]|Hr].
  - right; right; left. pose proof (occupied_in_range _ _ Ho) as Hp.
    split_and!; [done..|]. by apply insert_loop_swap.
  - right; right; right. split_and!; [done..|]. by apply insert_loop_pass.
Qed.

(** Slots outside the part of the probe sequence still to be scanned are
    not written. *)
Lemma insert_loop_untouched n i t key h1 kv cur ii t' it e s :
  insert_loop n i t key h1 kv cur ii = (t', it, e) →
  (∀ j, i ≤ j < i + n → (h1 + j) mod buffer_size_ t ≠ s) →
  data_ t' !!! s = data_ t !!! s.
Proof.
  revert i t kv cur ii. induction n as [|n IH]; intros i t kv cur ii Hrun Hs.
  { simpl in Hrun. by injection Hrun as <- _ _. }
  destruct (insert_loop_cases n i t key h1 kv cur ii)
    as [(_ & _ & Heq)|[(_ & Heq)|[(_ & _ & _ & Heq)|(_ & _ & Heq)]]];
    rewrite Heq in Hrun.
  - by injection Hrun as <- _ _.
  - injection Hrun as <- _ _. simpl.
    apply list_lookup_total_insert_ne. apply Hs. lia.
  - rewrite (IH _ _ _ _ _ Hrun); simpl.
    + apply list_lookup_total_insert_ne. apply Hs. lia.
    + intros j Hj. apply Hs. lia.
  - apply (IH _ _ _ _ _ Hrun). intros j Hj. apply Hs. lia.
Qed.

(** Once [insert_index] is set, it is what the loop returns. *)
Lemma insert_loop_index_kept n i t key h1 kv cur ii t' it :
  ii ≠ (-1)%Z →
  insert_loop n i t key h1 kv cur ii = (t', it, ReturnEmpty) →
  it = size_t_of_int ii.
Proof.
  revert i t kv cur. induction n as [|n IH]; intros i t kv cur Hii Hrun; [done|].
  destruct (insert_loop_cases n i t key h1 kv cur ii)
    as [(_ & _ & Heq)|[(_ & Heq)|[(_ & _ & _ & Heq)|(_ & _ & Heq)]]];
    rewrite Heq in Hrun.
  - done.
  - rewrite bool_decide_eq_false_2 in Hrun by done. by injection Hrun as _ <-.
  - rewrite bool_decide_eq_false_2 in Hrun by done. by eapply IH.
  - by eapply IH.
Qed.

(** Tombstones are never written by the loop. *)
Lemma insert_loop_keeps_tombstones n i t key h1 kv cur ii t' it e s :
  insert_loop n i t key h1 kv cur ii = (t', it, e) →
  status (data_ t !!! s) ≠ 1%Z → status (data_ t !!! s) ≠ (-1)%Z →
  data_ t' !!! s = data_ t !!! s.
Proof.
  revert i t kv cur ii. induction n as [|n IH]; intros i t kv cur ii Hrun Hn1 Hn2.
  { simpl in Hrun. by injection Hrun as <- _ _. }
  destruct (insert_loop_cases n i t key h1 kv cur ii)
    as [(_ & _ & Heq)|[(He & Heq)|[(Ho & _ & _ & Heq)|(_ & _ & Heq)]]];
    rewrite Heq in Hrun.
  - by injection Hrun as <- _ _.
  - injection Hrun as <- _ _. simpl.
    apply list_lookup_total_insert_ne. intros <-. done.
  - assert ((h1 + i) mod buffer_size_ t ≠ s) as Hne by (intros <-; done).
    assert (data_ (set_data t (<[(h1 + i) mod buffer_size_ t :=
              mkNode kv 1 cur]> (data_ t))) !!! s = data_ t !!! s) as Hsame.
    { simpl. by apply list_lookup_total_insert_ne. }
    rewrite (IH _ _ _ _ _ Hrun); rewrite ?Hsame; done.
  - by apply (IH _ _ _ _ _ Hrun).
Qed.

Lemma insert_loop_returns_slot n i t key h1 kv cur t' it e :
  carrying t key h1 i kv cur →
  n = buffer_size_ t - i →
  (Z.of_nat (buffer_size_ t) ≤ 2 ^ 31)%Z →
  insert_loop n i t key h1 kv cur (-1) = (t', it, e) →
  it < buffer_size_ t ∧ status (data_ t' !!! it) = 1%Z ∧ keyvalue (data_ t' !!! it) = kv.
Proof.
  revert i t kv cur. induction n as [|n IH]; intros i t kv cur Hcar Hn Hcap Hrun.
  { destruct Hcar as [_ _ _ _ _ _ _ (e0 & He0 & _)]. lia. }
  pose proof Hcar as [Hlen Hok Hfresh Hcur Hprobe Hchain Hahead (e0 & He0 & Hempty)].
  assert (0 < buffer_size_ t) as Hpos by lia.
  set (p := (h1 + i) mod buffer_size_ t) in *.
  assert (p < buffer_size_ t) as Hp by (by apply probe_lt).
  assert (int_of_size_t p = Z.of_nat p) as Hint by (apply int_of_size_t_small; lia).
  assert (size_t_of_int (Z.of_nat p) = p) as Hback by (apply size_t_of_int_of_nat; lia).
  destruct (insert_loop_cases n i t key h1 kv cur (-1))
    as [(Ho & Hk & Heq)|[(He & Heq)|[(Ho & Hr & _ & Heq)|(Hne & Hr & Heq)]]];
    repeat match goal with
           | H : context [(h1 + i) mod buffer_size_ t] |- _ => progress fold p in H
           end;
    rewrite Heq in Hrun.
  - destruct (Hahead i ltac:(lia)). done.
  - rewrite bool_decide_eq_true_2 in Hrun by done. rewrite Hint, Hback in Hrun.
    injection Hrun as <- <- _. simpl.
    rewrite list_lookup_total_insert_eq by lia. done.
  - rewrite bool_decide_eq_true_2 in Hrun by done. rewrite Hint in Hrun.
    destruct (insert_loop_carry n (S i) _ key h1 _ _ (Z.of_nat p)
                (carrying_swap t key h1 i kv cur Hcar Ho Hr) ltac:(simpl; lia))
      as (t2 & it2 & Hrun2 & _).
    fold p in Hrun2. rewrite Hrun2 in Hrun. injection Hrun as <- <- <-.
    apply insert_loop_index_kept in Hrun2 as Hit; [|lia]. rewrite Hback in Hit.
    subst it2. split; [done|].
    rewrite (insert_loop_untouched _ _ _ _ _ _ _ _ _ _ _ p Hrun2).
    + simpl. rewrite list_lookup_total_insert_eq by lia. done.
    + simpl. intros j Hj Heq'. apply probe_inj in Heq'; lia.
  - apply (IH (S i) t kv (S cur)); try done.
    + by apply carrying_pass.
    + lia.
Qed.

Lemma insert_returns_slot fuel t kv t' it :
  Inv t → insert fuel t kv = Some (t', it) →
  (Z.of_nat (buffer_size_ t') ≤ 2 ^ 31)%Z →
  it < buffer_size_ t' ∧ status (data_ t' !!! it) = 1%Z ∧
  keyvalue (data_ t' !!! it) = (kv.1, default kv.2 (contents t !! kv.1)).
Proof.
  intros Hinv Hins Hcap. apply insert_fuel_S in Hins. rewrite insert_unfold in Hins.
  destruct (resize_spec fuel t Hinv) as (t1 & Hres & Hok1 & _ & Hc1).
  rewrite Hres in Hins. rewrite <- Hc1.
  pose proof Hok1 as [Hlen Hcap1 Hok Hall Hdead Hload]. unfold default_size_ in Hcap1.
  destruct (contents t1 !! kv.1) as [v1|] eqn:Hlook; simpl.
  - destruct (insert_present 0 t1 kv v1 Hok1 Hlook) as (s & Hins1 & Hs & Ho & Hkv).
    rewrite insert_no_growth in Hins1 by done. rewrite Hins1 in Hins.
    by injection Hins as <- <-.
  - destruct (insert_loop _ _ _ _ _ _ _ _) as [[t2 it2] e] eqn:Hrun.
    simpl in Hins. injection Hins as <- <-.
    assert (carrying t1 kv.1 (get_hash t1 kv.1) 0 kv 0) as Hcar.
    { apply carrying_start; [done..|lia|by apply fresh_key_contents]. }
    destruct (insert_loop_carry (buffer_size_ t1) 0 t1 kv.1 (get_hash t1 kv.1) kv 0
                (-1) Hcar ltac:(lia)) as (t3 & it3 & Hrun3 & Hst).
    rewrite Hrun in Hrun3. injection Hrun3 as <- <- ->.
    rewrite (st_size _ _ _ Hst) in *.
    destruct (insert_loop_returns_slot (buffer_size_ t1) 0 t1 kv.1 (get_hash t1 kv.1)
                kv 0 _ _ _ Hcar ltac:(lia) Hcap Hrun) as (? & ? & ?).
    split_and!; [done..|]. by destruct kv.
Qed.

Lemma write_second_contents t it v :
  Inv t → it < length (data_ t) → status (data_ t !!! it) = 1%Z →
  contents (write_second t it v) = <[key_of (data_ t !!! it) := v]> (contents t).
Proof.
  intros Hinv Hit Ho. pose proof (write_second_ok _ t it v Hinv Hit) as Hinv'.
  pose proof (ok_slots _ _ Hinv) as Hok.
  apply map_eq. intros k. apply option_eq. intros v'.
  rewrite contents_lookup by apply Hinv'.
  rewrite write_second_data by done. rewrite holds_insert by done. simpl.
  destruct (decide (k = key_of (data_ t !!! it))) as [->|Hne].
  - rewrite lookup_insert_eq. split.
    + intros [[_ [= ->]]|(s & Hne & Hs & Hos & Hkv)]; [done|].
      destruct Hne. apply (ok_uniq _ _ Hok); try done. unfold key_of. by rewrite Hkv.
    + intros [= ->]. by left.
  - rewrite lookup_insert_ne by done. rewrite contents_lookup by done.
    rewrite (holds_split _ it) by done. split.
    + intros [[_ [= Hk _]]|?]; [by destruct Hne|by right].
    + intros [[_ Hkv]|?]; [|by right]. destruct Hne. unfold key_of. by rewrite Hkv.
Qed.

Lemma find_value_Inv t key : Inv t → find_value t key = contents t !! key.
Proof. intros Hinv. apply find_value_contents; apply Hinv. Qed.

Lemma find_loop_same_shape n i t t' key h1 :
  buffer_size_ t' = buffer_size_ t →
  (∀ s, status (data_ t' !!! s) = status (data_ t !!! s) ∧
        key_of (data_ t' !!! s) = key_of (data_ t !!! s)) →
  find_loop n i t' key h1 = find_loop n i t key h1.
Proof.
  intros Hb Hsame. revert i. induction n as [|n IH]; intros i; simpl.
  - by rewrite Hb.
  - rewrite Hb. destruct (Hsame ((h1 + i) mod buffer_size_ t)) as [Hs Hk].
    unfold is_occupied, is_empty. unfold key_of in Hk. rewrite Hs, Hk, IH. done.
Qed.

Lemma write_second_shape t it v s :
  status (data_ (write_second t it v) !!! s) = status (data_ t !!! s) ∧
  key_of (data_ (write_second t it v) !!! s) = key_of (data_ t !!! s).
Proof.
  destruct (decide (it < length (data_ t))) as [Hit|Hit];
    [|by rewrite write_second_out_of_range by lia].
  rewrite write_second_data by done.
  destruct (decide (s = it)) as [->|Hne].
  - by rewrite list_lookup_total_insert_eq.
  - by rewrite list_lookup_total_insert_ne.
Qed.

Lemma write_second_find t it v key :
  find (write_second t it v) key = find t key.
Proof.
  unfold find, get_hash. simpl.
  rewrite (find_loop_same_shape _ _ t); [done..|]. apply write_second_shape.
Qed.

(** ** Members that the operations leave alone *)

Lemma erase_loop_fields n i t key h1 :
  hasher_ (erase_loop n i t key h1).1 = hasher_ t ∧
  cnt_all_ (erase_loop n i t key h1).1 = cnt_all_ t ∧
  buffer_size_ (erase_loop n i t key h1).1 = buffer_size_ t ∧
  length (data_ (erase_loop n i t key h1).1) = length (data_ t).
Proof.
  revert i t. induction n as [|n IH]; intros i t; [done|].
  simpl. destruct (is_occupied _ && _).
  - destruct (is_empty _); [simpl; by rewrite length_insert|].
    destruct (IH (S i) (mkHashMap (hasher_ t)
      (<[(h1 + i) mod buffer_size_ t :=
           mkNode (keyvalue (data_ t !!! ((h1 + i) mod buffer_size_ t))) 0
                  (dist_to_ideal (data_ t !!! ((h1 + i) mod buffer_size_ t)))]> (data_ t))
      (cnt_all_ t) (S (cnt_dead_ t)) (buffer_size_ t))) as (-> & -> & -> & ->).
    simpl. by rewrite length_insert.
  - destruct (is_empty _); [done|]. apply IH.
Qed.

Lemma insert_loop_shape t kv :
  table_ok (buffer_size_ t) t →
  ∃ t' it e,
    insert_loop (buffer_size_ t) 0 t kv.1 (get_hash t kv.1) kv 0 (-1) = (t', it, e) ∧
    buffer_size_ t' = buffer_size_ t ∧ cnt_dead_ t' = cnt_dead_ t ∧
    cnt_all_ t' = (if contents t !! kv.1 is Some _ then cnt_all_ t else S (cnt_all_ t)).
Proof.
  intros Hok. pose proof Hok as [Hlen Hcap Hsl Hall Hdead Hload].
  unfold default_size_ in Hcap.
  destruct (contents t !! kv.1) as [v1|] eqn:Hlook.
  - apply contents_lookup in Hlook as (s & Hs & Ho & Hkv); [|done].
    exists t, s, ReturnMatch. rewrite (insert_loop_present t s); try done; try lia.
    unfold key_of. by rewrite Hkv.
  - destruct (insert_loop_absent t kv (-1)) as (t' & it & Hrun & Hst); try done.
    + lia.
    + by apply fresh_key_contents.
    + exists t', it, ReturnEmpty. split_and!; try done; apply Hst.
Qed.

Lemma insert_capacity fuel t kv t' it :
  Inv t → insert fuel t kv = Some (t', it) →
  cnt_all_ t' ≤ S (cnt_all_ t) ∧
  ((2 * cnt_all_ t ≤ buffer_size_ t ∧ buffer_size_ t' = buffer_size_ t ∧
    cnt_dead_ t' = cnt_dead_ t) ∨
   (buffer_size_ t < 2 * cnt_all_ t ∧ buffer_size_ t' = buffer_size_ t * 2 ∧
    cnt_dead_ t' = 0)).
Proof.
  intros Hinv Hins. apply insert_fuel_S in Hins. rewrite insert_unfold in Hins.
  destruct (decide (buffer_size_ t < 2 * cnt_all_ t)) as [Hg|Hg].
  - destruct (resize_growth fuel t Hinv Hg) as (t1 & Hres & Hok1 & Hb & _ & Hd & Ha & _).
    rewrite Hres in Hins.
    destruct (insert_loop_shape t1 kv Hok1) as (t2 & it2 & e & Hrun & Hb2 & Hd2 & Ha2).
    rewrite Hrun in Hins. simpl in Hins. injection Hins as <- <-.
    assert (count_occupied (data_ t) ≤ cnt_all_ t).
    { rewrite (ok_all _ _ Hinv), count_split. lia. }
    split; [destruct (contents t1 !! kv.1); lia|]. right. split_and!; [done|lia|lia].
  - unfold resize in Hins. rewrite resize_with_no_growth in Hins by lia.
    destruct (insert_loop_shape t kv) as (t2 & it2 & e & Hrun & Hb2 & Hd2 & Ha2).
    { eapply table_ok_load; [done|lia]. }
    rewrite Hrun in Hins. simpl in Hins. injection Hins as <- <-.
    split; [destruct (contents t !! kv.1); lia|]. left. split_and!; [lia|done..].
Qed.

Lemma step_Inv fuel t o t' r :
  Inv t → step fuel t o = Some (t', r) → Inv t' ∧ hasher_ t' = hasher_ t.
Proof.
  intros Hinv. destruct o as [kv|k|k|k v|k| |]; simpl.
  - destruct (insert fuel t kv) as [[t1 it]|] eqn:Hins; [|done]. simpl.
    intros [= <- _]. by destruct (insert_Inv _ _ _ _ _ Hinv Hins) as (? & ? & _).
  - intros [= <- _]. destruct (erase_spec t k Hinv) as (? & Hb & ? & _).
    split; [|done]. unfold Inv. by rewrite Hb.
  - by intros [= <- _].
  - destruct (operator_index fuel t k) as [[t1 it]|] eqn:Hidx; [|done]. simpl.
    case_bool_decide; [|done].
    intros [= <- _]. destruct (operator_index_Inv _ _ _ _ _ Hinv Hidx) as (? & ? & _).
    split; [by apply write_second_Inv|done].
  - by intros [= <- _].
  - by intros [= <- _].
  - intros [= <- _]. rewrite clear_eq. split; [apply Inv_new|done].
Qed.

Lemma run_Inv fuel ops t t' rs :
  Inv t → run fuel t ops = Some (t', rs) → Inv t' ∧ hasher_ t' = hasher_ t.
Proof.
  revert t rs. induction ops as [|o ops IH]; intros t rs Hinv; simpl.
  - by intros [= <- _].
  - destruct (step fuel t o) as [[t1 r]|] eqn:Hstep; [|done]. simpl.
    destruct (run fuel t1 ops) as [[t2 rs2]|] eqn:Hrun; [|done]. simpl.
    intros [= <- _]. destruct (step_Inv _ _ _ _ _ Hinv Hstep) as [Hinv1 Hh1].
    destruct (IH _ _ Hinv1 Hrun) as [? Hh2]. split; [done|congruence].
Qed.

(** ** Construction from a sequence of pairs *)

(** [insert] on the represented mapping: the first value of a key wins. *)
Lemma insert_first_union (m : gmap K V) (l : list (KvType K V)) :
  foldl (λ m kv, if m !! kv.1 is Some _ then m else <[kv.1 := kv.2]> m) m l =
  m ∪ list_to_map l.
Proof.
  revert m. induction l as [|[k v] l IH]; intros m; simpl.
  - by rewrite (right_id_L ∅ (∪)).
  - rewrite IH. destruct (m !! k) as [x|] eqn:Hm.
    + apply map_eq. intros i. rewrite !lookup_union.
      destruct (decide (i = k)) as [->|Hne].
      * rewrite lookup_insert_eq, Hm. by destruct (list_to_map l !! k).
      * by rewrite lookup_insert_ne.
    + rewrite <- insert_union_l. by rewrite insert_union_r.
Qed.

Lemma insert_each_spec fuel l t :
  Inv t →
  ∃ t', insert_each (S fuel) t l = Some t' ∧ Inv t' ∧ hasher_ t' = hasher_ t ∧
    contents t' = contents t ∪ list_to_map l.
Proof.
  rewrite <- insert_first_union.
  revert t. induction l as [|kv l IH]; intros t Hinv.
  - by exists t.
  - destruct (insert_spec fuel t kv Hinv) as (t1 & it & Hins & Hinv1 & Hh1 & Hc1).
    destruct (IH t1 Hinv1) as (t' & Hrun & Hinv' & Hh' & Hc').
    exists t'. cbn [insert_each]. rewrite Hins. cbn. rewrite Hrun.
    split_and!; [done..|congruence|]. rewrite Hc', Hc1. done.
Qed.

Lemma operator_index_slot fuel t k t' it :
  Inv t → operator_index fuel t k = Some (t', it) →
  (Z.of_nat (buffer_size_ t') ≤ 2 ^ 31)%Z →
  it < buffer_size_ t' ∧ status (data_ t' !!! it) = 1%Z ∧
  keyvalue (data_ t' !!! it) = (k, default value_init (contents t !! k)).
Proof.
  intros Hinv Hidx Hcap. unfold operator_index in Hidx.
  case_bool_decide as Hend.
  - apply (insert_returns_slot _ _ _ _ _ Hinv Hidx Hcap).
  - injection Hidx as <- <-.
    destruct (contents t !! k) as [v|] eqn:Hlook.
    + by destruct (find_Some t k v Hinv Hlook) as (? & _ & ? & ?).
    + by apply find_None in Hlook.
Qed.

Lemma slot_is_found t it :
  Inv t → it < buffer_size_ t → status (data_ t !!! it) = 1%Z →
  find t (key_of (data_ t !!! it)) = it ∧ it ≠ end_ t.
Proof.
  intros Hinv Hit Ho. split.
  - apply find_holder; [apply Hinv..|done|done].
  - unfold end_. rewrite (ok_length _ _ Hinv). lia.
Qed.

Lemma insert_capacity_bound fuel t kv t' it :
  Inv t → insert fuel t kv = Some (t', it) →
  (Z.of_nat (buffer_size_ t) ≤ 2 ^ 30)%Z → (Z.of_nat (buffer_size_ t') ≤ 2 ^ 31)%Z.
Proof.
  intros Hinv Hins Hcap.
  destruct (insert_capacity _ _ _ _ _ Hinv Hins) as (_ & [(_ & -> & _)|(_ & -> & _)]); lia.
Qed.

Lemma operator_index_capacity_bound fuel t k t' it :
  Inv t → operator_index fuel t k = Some (t', it) →
  (Z.of_nat (buffer_size_ t) ≤ 2 ^ 30)%Z → (Z.of_nat (buffer_size_ t') ≤ 2 ^ 31)%Z.
Proof.
  intros Hinv Hidx Hcap. unfold operator_index in Hidx. case_bool_decide.
  - by eapply insert_capacity_bound.
  - injection Hidx as <- _. lia.
Qed.

(** ** Sequences of calls in the range of [int] *)

Lemma step_dom fuel t o t' r :
  Inv t → step fuel t o = Some (t', r) →
  dom (contents t') = live_keys_step (dom (contents t)) o.
Proof.
  intros Hinv. destruct o as [kv|k|k|k v|k| |]; simpl.
  - destruct (insert fuel t kv) as [[t1 it]|] eqn:Hins; [|done]. simpl.
    intros [= <- _]. destruct (insert_Inv _ _ _ _ _ Hinv Hins) as (_ & _ & ->).
    destruct (contents t !! kv.1) eqn:Hl.
    + apply union_singleton_absorb, elem_of_dom. eauto.
    + by rewrite dom_insert_L.
  - intros [= <- _]. destruct (erase_spec t k Hinv) as (_ & _ & _ & ->).
    by rewrite dom_delete_L.
  - by intros [= <- _].
  - destruct (operator_index fuel t k) as [[t1 it]|] eqn:Hidx; [|done]. simpl.
    case_bool_decide; [|done]. intros [= <- _].
    destruct (operator_index_Inv _ _ _ _ _ Hinv Hidx) as (_ & _ & Hc).
    rewrite write_second_dom, Hc. destruct (contents t !! k) eqn:Hl.
    + apply union_singleton_absorb, elem_of_dom. eauto.
    + by rewrite dom_insert_L.
  - by intros [= <- _].
  - by intros [= <- _].
  - intros [= <- _]. by rewrite clear_eq, contents_new, dom_empty_L.
Qed.

Lemma run_dom fuel ops t t' rs :
  Inv t → run fuel t ops = Some (t', rs) →
  dom (contents t') = foldl live_keys_step (dom (contents t)) ops.
Proof.
  revert t rs. induction ops as [|o ops IH]; intros t rs Hinv; simpl.
  - by intros [= <- _].
  - destruct (step fuel t o) as [[t1 r]|] eqn:Hstep; [|done]. simpl.
    destruct (run fuel t1 ops) as [[t2 rs2]|] eqn:Hrun; [|done]. simpl.
    intros [= <- _]. destruct (step_Inv _ _ _ _ _ Hinv Hstep) as [Hinv1 _].
    by rewrite (IH _ _ Hinv1 Hrun), (step_dom _ _ _ _ _ Hinv Hstep).
Qed.

(** A call returns: always when it does not write through [operator[]],
    and on a table of at most 2^30 slots when it does. *)
Lemma step_returns fuel t o :
  Inv t →
  (writes_through_index o = true → (Z.of_nat (buffer_size_ t) ≤ 2 ^ 30)%Z) →
  ∃ t' r, step (S fuel) t o = Some (t', r).
Proof.
  intros Hinv Hcap. destruct o as [kv|k|k|k v|k| |]; cbn [step]; try by eauto.
  - destruct (insert_spec fuel t kv Hinv) as (t' & it & -> & _). simpl. eauto.
  - destruct (operator_index_spec fuel t k Hinv) as (t' & it & Hidx & Hinv' & _).
    rewrite Hidx. simpl.
    pose proof (operator_index_capacity_bound _ _ _ _ _ Hinv Hidx (Hcap eq_refl)) as Hcap'.
    destruct (operator_index_slot _ _ _ _ _ Hinv Hidx Hcap') as (Hit & _).
    rewrite bool_decide_eq_true_2 by (by rewrite (ok_length _ _ Hinv')). eauto.
Qed.

(** How a call moves the capacity and the count of non-empty slots. *)
Lemma step_capacity fuel t o t' r :
  Inv t → step fuel t o = Some (t', r) →
  cnt_all_ t' ≤ S (cnt_all_ t) ∧
  (buffer_size_ t' = buffer_size_ t ∨
   (buffer_size_ t < 2 * cnt_all_ t ∧ buffer_size_ t' = buffer_size_ t * 2) ∨
   buffer_size_ t' = default_size_).
Proof.
  intros Hinv. destruct o as [kv|k|k|k v|k| |]; simpl.
  - destruct (insert fuel t kv) as [[t1 it]|] eqn:Hins; [|done]. simpl.
    intros [= <- _].
    destruct (insert_capacity _ _ _ _ _ Hinv Hins) as (? & [(_ & ? & _)|(? & ? & _)]);
      auto.
  - intros [= <- _]. unfold erase.
    destruct (erase_loop_fields (buffer_size_ t) 0 t k (get_hash t k)) as (_ & -> & -> & _).
    auto.
  - intros [= <- _]. auto.
  - destruct (operator_index fuel t k) as [[t1 it]|] eqn:Hidx; [|done]. simpl.
    case_bool_decide; [|done]. intros [= <- _]. simpl.
    unfold operator_index in Hidx. case_bool_decide.
    + destruct (insert_capacity _ _ _ _ _ Hinv Hidx) as (? & [(_ & ? & _)|(? & ? & _)]);
        auto.
    + injection Hidx as <- _. auto.
  - intros [= <- _]. auto.
  - intros [= <- _]. auto.
  - intros [= <- _]. rewrite clear_eq. simpl. split; [lia|auto].
Qed.

Lemma run_returns_plain fuel ops t :
  Inv t → existsb writes_through_index ops = false →
  ∃ t' rs, run (S fuel) t ops = Some (t', rs).
Proof.
  revert t. induction ops as [|o ops IH]; intros t Hinv Hops; [by exists t, []|].
  simpl in Hops. apply orb_false_iff in Hops as [Ho Hops].
  destruct (step_returns fuel t o Hinv) as (t1 & r & Hstep); [by rewrite Ho|].
  destruct (step_Inv _ _ _ _ _ Hinv Hstep) as [Hinv1 _].
  destruct (IH t1 Hinv1 Hops) as (t' & rs & Hrun).
  exists t', (r :: rs). cbn [run]. rewrite Hstep. cbn. by rewrite Hrun.
Qed.

Lemma run_returns_bounded fuel ops t a c :
  Inv t → cnt_all_ t ≤ a → buffer_size_ t ≤ c + 4 * a → default_size_ ≤ c →
  (Z.of_nat (c + 4 * (a + length ops)) ≤ 2 ^ 30)%Z →
  ∃ t' rs, run (S fuel) t ops = Some (t', rs).
Proof.
  revert t a. induction ops as [|o ops IH]; intros t a Hinv Hcnt Hcap Hc Hn;
    [by exists t, []|].
  simpl in Hn.
  destruct (step_returns fuel t o Hinv) as (t1 & r & Hstep); [intros _; lia|].
  destruct (step_Inv _ _ _ _ _ Hinv Hstep) as [Hinv1 _].
  destruct (step_capacity _ _ _ _ _ Hinv Hstep) as [Hcnt1 Hcap1].
  destruct (IH t1 (S a) Hinv1) as (t' & rs & Hrun); [lia| |done|lia|].
  { destruct Hcap1 as [->|[[? ->]| ->]]; lia. }
  exists t', (r :: rs). cbn [run]. rewrite Hstep. cbn. by rewrite Hrun.
Qed.

(** Calls that stay in the range of [int] return, and keep the invariant,
    the hash functor and the account of the keys. *)
Lemma run_spec fuel ops t :
  Inv t → index_writes_in_range t ops →
  ∃ t' rs, run (S fuel) t ops = Some (t', rs) ∧ Inv t' ∧ hasher_ t' = hasher_ t ∧
    dom (contents t') = foldl live_keys_step (dom (contents t)) ops.
Proof.
  intros Hinv Hrange.
  assert (∃ t' rs, run (S fuel) t ops = Some (t', rs)) as (t' & rs & Hrun).
  { destruct (existsb writes_through_index ops) eqn:Hops.
    - destruct (Hrange Hops) as [Hb Hn].
      pose proof (ok_load _ _ Hinv) as Hload. pose proof (ok_capacity _ _ Hinv) as Hcap.
      apply (run_returns_bounded fuel ops t (cnt_all_ t) (buffer_size_ t)); [done|lia|lia|done|].
      lia.
    - by apply run_returns_plain. }
  exists t', rs. destruct (run_Inv _ _ _ _ _ Hinv Hrun) as [Hinv' Hh].
  split_and!; [done..|]. by eapply run_dom.
Qed.

Lemma new_index_writes_in_range (hasher : K → nat) (ops : list (op K V)) :
  (existsb writes_through_index ops = true → (Z.of_nat (length ops) ≤ 2 ^ 27)%Z) →
  index_writes_in_range (HashMap_new hasher) ops.
Proof. intros Hn Hops. split; [simpl; unfold default_size_; lia|by apply Hn]. Qed.

(** * The claims of the specification *)

(** C1 (amended).  Round trip.  On every reachable table [insert((k, v))]
    returns, and afterwards [find(k)] returns an occupied slot holding [k]
    whose value is [v] when [k] was absent before the call, and the value
    stored before the call when [k] was present.  After [erase(k)],
    [find(k)] returns [end()]. *)
Theorem insert_find_erase_round_trip fuel t k v :
  reachable t →
  (∃ t' it, insert (S fuel) t (k, v) = Some (t', it) ∧
     find t' k ≠ end_ t' ∧
     status (data_ t' !!! find t' k) = 1%Z ∧
     keyvalue (data_ t' !!! find t' k) = (k, default v (find_value t k))) ∧
  find (erase t k) k = end_ (erase t k).
Proof.
  intros Hr. apply reachable_Inv in Hr as Hinv. split.
  - destruct (insert_spec fuel t (k, v) Hinv) as (t' & it & Hins & Hinv' & _ & Hc).
    exists t', it. split; [done|].
    rewrite (find_value_contents t k) by apply Hinv. simpl in Hc.
    assert (contents t' !! k = Some (default v (contents t !! k))) as Hlook.
    { rewrite Hc. destruct (contents t !! k) eqn:Hl; simpl; [done|].
      apply lookup_insert_eq. }
    by destruct (find_Some t' k _ Hinv' Hlook) as (_ & ? & ? & ?).
  - destruct (erase_spec t k Hinv) as (Hinv' & Hb & _ & Hc).
    apply find_None.
    + unfold Inv. by rewrite Hb.
    + rewrite Hc. apply lookup_delete_eq.
Qed.

(** C2.  Idempotent insert.  If a reachable table maps [k] to [v1], then
    [insert((k, v2))] returns the slot that holds [(k, v1)]; the represented
    mapping (hence the value of [k]) and [size()] are unchanged, and the
    table is unchanged altogether unless the growth check at the start of
    the call rebuilt it. *)
Theorem insert_existing_key_noop fuel t k v1 v2 :
  reachable t → find_value t k = Some v1 →
  ∃ t' it, insert (S fuel) t (k, v2) = Some (t', it) ∧
    it < buffer_size_ t' ∧
    status (data_ t' !!! it) = 1%Z ∧
    keyvalue (data_ t' !!! it) = (k, v1) ∧
    find_value t' k = Some v1 ∧
    contents t' = contents t ∧
    size t' = size t ∧
    (2 * cnt_all_ t ≤ buffer_size_ t → t' = t).
Proof.
  intros Hr Hfv. apply reachable_Inv in Hr as Hinv.
  rewrite (find_value_contents t k) in Hfv by apply Hinv.
  rewrite insert_unfold.
  destruct (resize_spec fuel t Hinv) as (t1 & Hres & Hok1 & Hh1 & Hc1).
  rewrite Hres. rewrite <- Hc1 in Hfv.
  destruct (insert_present 0 t1 (k, v2) v1 Hok1 Hfv) as (s & Hins & Hs & Ho & Hkv).
  rewrite insert_no_growth in Hins by apply Hok1. injection Hins as Hins.
  simpl in *. rewrite Hins.
  assert (table_ok (buffer_size_ t1 + 2) t1) as Hinv1.
  { eapply table_ok_load; [done|]. pose proof (ok_load _ _ Hok1). lia. }
  exists t1, s. split_and!; try done.
  - by rewrite (find_value_contents t1 k) by apply Hok1.
  - by rewrite !size_size_contents, Hc1.
  - intros Hload. unfold resize in Hres.
    rewrite resize_with_no_growth in Hres by done. congruence.
Qed.

(** C3.  Uniqueness and size accounting.  Every sequence of inserts,
    erases and the other calls on a new table returns, provided it has at
    most 2^27 calls when one of them is an assignment [map[k] = v] (whose
    write is defined only while slot indices fit [int]); in the resulting
    table no two occupied slots hold the same key, and [size()] is the
    number of keys inserted and not subsequently erased. *)
Theorem unique_keys_and_size fuel (hasher : K → nat) (ops : list (op K V)) :
  (existsb writes_through_index ops = true → (Z.of_nat (length ops) ≤ 2 ^ 27)%Z) →
  ∃ t rs, run (S fuel) (HashMap_new hasher) ops = Some (t, rs) ∧
    (∀ s1 s2, s1 < buffer_size_ t → s2 < buffer_size_ t →
       status (data_ t !!! s1) = 1%Z → status (data_ t !!! s2) = 1%Z →
       key_of (data_ t !!! s1) = key_of (data_ t !!! s2) → s1 = s2) ∧
    dom (contents t) = live_keys ops ∧
    size t = base.size (live_keys ops).
Proof.
  intros Hn.
  destruct (run_spec fuel ops (HashMap_new hasher) (Inv_new hasher)
              (new_index_writes_in_range hasher ops Hn))
    as (t & rs & Hrun & Hinv & _ & Hdom).
  rewrite contents_new, dom_empty_L in Hdom. fold (live_keys ops) in Hdom.
  exists t, rs. split_and!; try done.
  - rewrite <- (ok_length _ _ Hinv). apply (ok_uniq _ _ (ok_slots _ _ Hinv)).
  - by rewrite size_size_contents, <- Hdom, size_dom.
Qed.

(** C4.  The contract of [find].  [find] returns what the specification
    describes: along the probe sequence [h, h+1, ...] (mod capacity) from
    [h = hash(key) mod capacity], the first slot that is empty or an occupied
    match decides (the match itself, [end()] for an empty slot); tombstones
    and other keys are passed over; [end()] when the whole capacity has been
    scanned. *)
Theorem find_follows_probe_sequence t key :
  length (data_ t) = buffer_size_ t →
  find t key = find_spec t key ∧
  (find t key = end_ t ∨
   (find t key < buffer_size_ t ∧
    status (data_ t !!! find t key) = 1%Z ∧
    key_of (data_ t !!! find t key) = key)).
Proof.
  intros Hlen. split.
  - unfold find, find_spec, probe_sequence, end_, get_hash.
    rewrite find_loop_list_find, Hlen. done.
  - unfold find, end_. destruct (find_loop _ _ _ _ _) as [it e] eqn:Hf.
    apply find_loop_sound in Hf as [(_ & (j & Hj & ->) & Ho & Hk)|[_ ->]]; simpl.
    + right. split_and!; [|done..]. apply probe_lt. lia.
    + by left.
Qed.

(** C5.  Probe-chain integrity.  In every reachable table the wrapping run
    of slots from the ideal slot of an occupied key up to the slot holding
    it has no empty slot; the table that growth builds has the property
    too. *)
Theorem probe_chain_integrity t :
  reachable t →
  probe_chain_intact t ∧
  ∀ fuel t', resize fuel t = Some t' → probe_chain_intact t'.
Proof.
  intros Hr. apply reachable_Inv in Hr as Hinv. split.
  - pose proof (ok_capacity _ _ Hinv). unfold default_size_ in *.
    apply slots_ok_chain_intact; [apply Hinv|lia|apply Hinv].
  - intros fuel t' Hres. destruct (resize_Inv fuel t t' Hinv Hres) as (Hok' & _ & _).
    pose proof (ok_capacity _ _ Hok'). unfold default_size_ in *.
    apply slots_ok_chain_intact; [apply Hok'|lia|apply Hok'].
Qed.

(** C6.  Growth policy.  [insert] starts with the growth check.  When
    [cnt_all_] does not exceed half the capacity the table is left as it is;
    when it does, the capacity doubles, the occupied pairs of the old array
    are re-inserted in slot-array order into a fresh array with both
    counters reset, and the result holds exactly the mapping held before
    and no tombstone. *)
Theorem growth_policy fuel t kv :
  reachable t →
  insert (S fuel) t kv =
    (t1 ← resize (S fuel) t;
     Some (insert_loop (buffer_size_ t1) 0 t1 kv.1 (get_hash t1 kv.1) kv 0 (-1)).1) ∧
  (2 * cnt_all_ t ≤ buffer_size_ t → resize (S fuel) t = Some t) ∧
  (buffer_size_ t < 2 * cnt_all_ t →
   ∃ t', resize (S fuel) t = Some t' ∧
     resize (S fuel) t =
       foldl (reinsert (insert fuel))
             (Some (mkHashMap (hasher_ t)
                      (replicate (buffer_size_ t * 2) Node_default) 0 0
                      (buffer_size_ t * 2)))
             (occupied_pairs (data_ t)) ∧
     buffer_size_ t' = 2 * buffer_size_ t ∧
     length (data_ t') = 2 * buffer_size_ t ∧
     cnt_dead_ t' = 0 ∧
     (∀ s, status (data_ t' !!! s) = 1%Z ∨ status (data_ t' !!! s) = (-1)%Z) ∧
     cnt_all_ t' = size t ∧
     contents t' = contents t).
Proof.
  intros Hr. apply reachable_Inv in Hr as Hinv. split_and!.
  - rewrite insert_unfold. by destruct (resize (S fuel) t).
  - intros Hload. unfold resize. by rewrite resize_with_no_growth.
  - intros Hgrow.
    destruct (resize_growth fuel t Hinv Hgrow)
      as (t' & Hres & Hok' & Hb & Hh & Hd & Ha & Hc).
    exists t'. split_and!; try done.
    + unfold resize, resize_with. rewrite bool_decide_eq_true_2 by done.
      cbv zeta. apply foldl_resize_step_pairs.
    + lia.
    + rewrite (ok_length _ _ Hok'). lia.
    + intros s. apply count_tombstone_zero. by rewrite <- (ok_dead _ _ Hok').
    + by rewrite Ha, size_count.
Qed.

(** C7.  [at] raises [KeyNotFound] exactly when [find] returns [end()];
    otherwise it returns the value of the slot [find] returns, which on a
    reachable table is the value the key is mapped to.  [at] leaves the
    table as it is. *)
Theorem at_KeyNotFound_iff_absent t key :
  (at_ t key = inl KeyNotFound ↔ find t key = end_ t) ∧
  (find t key ≠ end_ t → at_ t key = inr (keyvalue (data_ t !!! find t key)).2) ∧
  (∀ fuel, step fuel t (OpAt key) = Some (t, RValue (at_ t key))) ∧
  (reachable t →
   at_ t key = match contents t !! key with
               | Some v => inr v
               | None => inl KeyNotFound
               end).
Proof.
  split_and!.
  - unfold at_. case_bool_decide; split; done.
  - intros Hne. unfold at_. by rewrite bool_decide_eq_false_2.
  - done.
  - intros Hr. apply reachable_Inv in Hr as Hinv.
    pose proof (find_value_contents t key (ok_length _ _ Hinv) (ok_slots _ _ Hinv)) as Hfv.
    rewrite <- Hfv. unfold at_, find_value. by case_bool_decide.
Qed.

(** C8.  [clear] leaves the table a newly constructed one with the same
    hash functor: the default capacity, both counters zero, every slot
    empty; every later sequence of calls gives the same results and the
    same tables on both. *)
Theorem clear_is_fresh t :
  clear t = HashMap_new (hasher_ t) ∧
  buffer_size_ (clear t) = default_size_ ∧
  length (data_ (clear t)) = default_size_ ∧
  cnt_all_ (clear t) = 0 ∧
  cnt_dead_ (clear t) = 0 ∧
  (∀ s, status (data_ (clear t) !!! s) = (-1)%Z) ∧
  (∀ fuel ops, run fuel (clear t) ops = run fuel (HashMap_new (hasher_ t)) ops).
Proof.
  rewrite clear_eq. split_and!; try done.
  intros s. apply replicate_default_status.
Qed.

(** C9.  Copy independence.  The copy constructor and copy assignment make
    [this] equal to [other] member by member; whatever calls are then made
    on [this], the object [other] stays as it was.  The calls return when
    [other] was reachable and the writes through [operator[]] stay in range:
    no call is an assignment [map[k] = v], or [other] has at most 2^27
    slots and the calls are at most 2^27. *)
Theorem copy_independence fuel hasher (σ : gmap nat (HashMap K V)) this other src ops :
  this ≠ other → σ !! other = Some src →
  (∃ σ1, store_copy_construct hasher σ this other = Some σ1 ∧
         copy_independent fuel σ1 this other src ops) ∧
  (∀ dst, σ !! this = Some dst →
     ∃ σ1, store_assign σ this other = Some σ1 ∧
           copy_independent fuel σ1 this other src ops).
Proof.
  intros Hne Hsrc.
  assert (copy_independent fuel (<[this := src]> σ) this other src ops) as Hind.
  { unfold copy_independent. split_and!.
    - apply lookup_insert_eq.
    - by rewrite lookup_insert_ne.
    - intros fuel' σ2 rs Hrun.
      rewrite (store_run_other _ _ _ _ _ _ _ Hrun) by done.
      by rewrite lookup_insert_ne.
    - intros Hr Hrange. rewrite (store_run_run _ _ _ _ src) by apply lookup_insert_eq.
      destruct (run_spec fuel ops src (reachable_Inv _ Hr) Hrange) as (t' & rs & -> & _).
      simpl. eauto. }
  split.
  - exists (<[this := src]> σ). split; [|done].
    unfold store_copy_construct. rewrite Hsrc. simpl. by rewrite HashMap_copy_eq.
  - intros dst Hdst. exists (<[this := src]> σ). split; [|done].
    unfold store_assign. rewrite Hdst, Hsrc. simpl. by rewrite operator_assign_eq.
Qed.

(** C10.  An empty slot always exists.  In a reachable table the count of
    non-empty slots is at most half the capacity plus one, and at most half
    the capacity after the growth check of [insert]; some slot is empty; so
    the loops of [insert] (the scan of the call itself and the scans of the
    re-insertions during growth), [find] and [erase] all leave through a
    [return] inside the loop, never through the one after it. *)
Theorem empty_slot_always_exists fuel t kv key :
  reachable t →
  2 * cnt_all_ t ≤ buffer_size_ t + 2 ∧
  (∃ s, s < buffer_size_ t ∧ status (data_ t !!! s) = (-1)%Z) ∧
  (∃ t1, resize (S fuel) t = Some t1 ∧
     2 * cnt_all_ t1 ≤ buffer_size_ t1 ∧
     (∃ s, s < buffer_size_ t1 ∧ status (data_ t1 !!! s) = (-1)%Z) ∧
     ∃ t' it e,
       insert_loop (buffer_size_ t1) 0 t1 kv.1 (get_hash t1 kv.1) kv 0 (-1) = (t', it, e) ∧
       e ≠ FallThrough ∧
       2 * cnt_all_ t' ≤ buffer_size_ t' + 2) ∧
  (∀ l1 kv' l2,
     buffer_size_ t < 2 * cnt_all_ t →
     occupied_pairs (data_ t) = l1 ++ kv' :: l2 →
     ∃ a,
       foldl (reinsert (insert fuel))
             (Some (mkHashMap (hasher_ t)
                      (replicate (buffer_size_ t * 2) Node_default) 0 0
                      (buffer_size_ t * 2))) l1 = Some a ∧
       2 * cnt_all_ a ≤ buffer_size_ a ∧
       (insert_loop (buffer_size_ a) 0 a kv'.1 (get_hash a kv'.1) kv' 0 (-1)).2
         ≠ FallThrough) ∧
  (find_loop (buffer_size_ t) 0 t key (get_hash t key)).2 ≠ FallThrough ∧
  (erase_loop (buffer_size_ t) 0 t key (get_hash t key)).2 ≠ FallThrough.
Proof.
  intros Hr. apply reachable_Inv in Hr as Hinv.
  assert (∀ t0 : HashMap K V, Inv t0 →
            ∃ s, s < buffer_size_ t0 ∧ status (data_ t0 !!! s) = (-1)%Z) as Hslot.
  { intros t0 Hinv0. destruct (Inv_empty_slot t0 0 Hinv0) as (e & He & Hempty).
    pose proof (ok_capacity _ _ Hinv0). unfold default_size_ in *.
    eexists. split; [|exact Hempty]. apply probe_lt. lia. }
  split_and!.
  - apply Hinv.
  - by apply Hslot.
  - destruct (resize_spec fuel t Hinv) as (t1 & Hres & Hok1 & _ & _).
    exists t1. split_and!; [done|apply Hok1| |].
    + apply Hslot. eapply table_ok_load; [done|]. pose proof (ok_load _ _ Hok1). lia.
    + destruct (insert_loop_no_wrap t1 kv Hok1) as (t' & it & e & Hrun & He & _ & Hl).
      by exists t', it, e.
  - intros l1 kv' l2 Hgrow Hsplit. by eapply growth_scans_no_wrap.
  - apply find_loop_no_wrap.
    destruct (Inv_empty_slot t (get_hash t key) Hinv) as (e & He & Hempty).
    exists e. split; [lia|done].
  - apply erase_loop_no_wrap; [apply Hinv|lia|].
    destruct (Inv_empty_slot t (get_hash t key) Hinv) as (e & He & Hempty).
    exists e. split; [lia|done].
Qed.

(** * Further properties of the code *)

(** X1.  Iteration.  On a reachable table the loop
    [for (it = begin(); it != end(); ++it)] ends and visits the pairs of the
    occupied slots in slot order: every key at most once, [size()] pairs in
    all, and exactly the pairs [find] gives. *)
Theorem traverse_visits_live_pairs fuel t :
  reachable t → length (data_ t) < fuel →
  ∃ l, traverse fuel t = Some l ∧
    l = occupied_pairs (data_ t) ∧
    NoDup l.*1 ∧
    length l = size t ∧
    l ≡ₚ map_to_list (contents t) ∧
    (∀ k v, (k, v) ∈ l ↔ find_value t k = Some v).
Proof.
  intros Hr Hfuel. apply reachable_Inv in Hr as Hinv.
  pose proof (NoDup_occupied_pairs _ (ok_uniq _ _ (ok_slots _ _ Hinv))) as Hnd.
  exists (occupied_pairs (data_ t)). split_and!; try done.
  - by apply traverse_spec.
  - by rewrite size_count, count_occupied_pairs.
  - symmetry. by apply map_to_list_to_map.
  - intros k v. rewrite find_value_Inv by done.
    rewrite contents_lookup by apply Hinv. symmetry. apply holds_occupied_pairs.
Qed.

(** X2.  On a reachable table [begin() == end()] exactly when [empty()]
    holds, that is when [size()] is 0 and no key is mapped. *)
Theorem begin_is_end_iff_empty t :
  reachable t →
  (begin t = end_ t ↔ empty t = true) ∧
  (empty t = true ↔ size t = 0) ∧
  (size t = 0 ↔ contents t = ∅).
Proof.
  intros Hr. apply reachable_Inv in Hr as Hinv. split_and!.
  - rewrite begin_end_iff, <- size_count by done.
    unfold empty, size. by rewrite bool_decide_eq_true.
  - unfold empty, size. by rewrite bool_decide_eq_true.
  - rewrite size_size_contents by done. apply map_size_empty_iff.
Qed.

(** X3.  [begin()] is the first occupied slot, or [end()] when there is
    none; [++it] on an iterator below [end()] moves to the next occupied
    slot, or to [end()] when there is none; the post-increment returns the
    iterator it was called on. *)
Theorem increment_reaches_next_occupied t it :
  it < length (data_ t) →
  (begin t ≤ end_ t ∧
   (begin t ≠ end_ t → status (data_ t !!! begin t) = 1%Z) ∧
   (∀ j, j < begin t → status (data_ t !!! j) ≠ 1%Z)) ∧
  (it < operator_incr t it ≤ end_ t ∧
   (operator_incr t it ≠ end_ t → status (data_ t !!! operator_incr t it) = 1%Z) ∧
   (∀ j, it < j < operator_incr t it → status (data_ t !!! j) ≠ 1%Z)) ∧
  operator_post_incr t it = (it, operator_incr t it).
Proof.
  intros Hit. unfold begin, operator_incr, end_. split_and!; try done.
  - destruct (advance_past_empty_spec (length (data_ t)) t 0) as (? & _ & _); lia.
  - destruct (advance_past_empty_spec (length (data_ t)) t 0) as (? & Ho & _); [lia..|].
    intros Hne. apply Ho. lia.
  - destruct (advance_past_empty_spec (length (data_ t)) t 0) as (_ & _ & Hs); [lia..|].
    intros j Hj. apply Hs. lia.
  - destruct (advance_past_empty_spec (length (data_ t) - S it) t (S it))
      as (? & _ & _); lia.
  - destruct (advance_past_empty_spec (length (data_ t) - S it) t (S it))
      as (? & _ & _); lia.
  - destruct (advance_past_empty_spec (length (data_ t) - S it) t (S it))
      as (? & Ho & _); [lia..|].
    intros Hne. apply Ho. lia.
  - destruct (advance_past_empty_spec (length (data_ t) - S it) t (S it))
      as (_ & _ & Hs); [lia..|].
    intros j Hj. apply Hs. lia.
Qed.

(** X4.  The iterator [insert] returns.  On a reachable table of at most
    2^30 slots, [insert((k, v))] returns the iterator [find(k)] gives
    afterwards: it is not [end()] and points to the pair of [k], with the
    value [v] for a new key and the value already stored otherwise. *)
Theorem insert_returns_slot_of_key fuel t k v :
  reachable t → (Z.of_nat (buffer_size_ t) ≤ 2 ^ 30)%Z →
  ∃ t' it, insert (S fuel) t (k, v) = Some (t', it) ∧
    it = find t' k ∧ it ≠ end_ t' ∧
    operator_deref t' it = (k, default v (find_value t k)).
Proof.
  intros Hr Hcap. apply reachable_Inv in Hr as Hinv.
  destruct (insert_spec fuel t (k, v) Hinv) as (t' & it & Hins & Hinv' & _ & _).
  exists t', it. split; [done|].
  pose proof (insert_capacity_bound _ _ _ _ _ Hinv Hins Hcap) as Hcap'.
  destruct (insert_returns_slot _ _ _ _ _ Hinv Hins Hcap') as (Hit & Ho & Hkv).
  destruct (slot_is_found t' it Hinv' Hit Ho) as [Hf Hne].
  unfold key_of in Hf. rewrite Hkv in Hf. simpl in *.
  rewrite find_value_Inv by done. unfold operator_deref. by rewrite Hf.
Qed.

(** X5.  [operator[]] finds or creates.  On a reachable table of at most
    2^30 slots, [map[k]] leaves a present key as it is and maps an absent
    one to the value-initialised value; no other key changes; the reference
    returned is to the value of [k] in the slot [find(k)] gives. *)
Theorem operator_index_finds_or_creates fuel t k :
  reachable t → (Z.of_nat (buffer_size_ t) ≤ 2 ^ 30)%Z →
  ∃ t' it, operator_index (S fuel) t k = Some (t', it) ∧
    find_value t' k = Some (default value_init (find_value t k)) ∧
    (∀ k', k' ≠ k → find_value t' k' = find_value t k') ∧
    size t' = (if find_value t k is Some _ then size t else S (size t)) ∧
    it = find t' k ∧ it ≠ end_ t' ∧
    operator_deref t' it = (k, default value_init (find_value t k)).
Proof.
  intros Hr Hcap. apply reachable_Inv in Hr as Hinv.
  destruct (operator_index_spec fuel t k Hinv) as (t' & it & Hidx & Hinv' & _ & Hc).
  exists t', it. split; [done|].
  pose proof (operator_index_capacity_bound _ _ _ _ _ Hinv Hidx Hcap) as Hcap'.
  destruct (operator_index_slot _ _ _ _ _ Hinv Hidx Hcap') as (Hit & Ho & Hkv).
  destruct (slot_is_found t' it Hinv' Hit Ho) as [Hf Hne].
  unfold key_of in Hf. rewrite Hkv in Hf. simpl in *.
  rewrite !find_value_Inv by done. split_and!.
  - rewrite Hc. destruct (contents t !! k) eqn:Hl; simpl; [done|apply lookup_insert_eq].
  - intros k' Hk'. rewrite !find_value_Inv by done. rewrite Hc.
    destruct (contents t !! k); [done|]. by rewrite lookup_insert_ne.
  - rewrite !size_size_contents by done. rewrite Hc.
    destruct (contents t !! k) eqn:Hl; [done|]. by rewrite map_size_insert_None.
  - done.
  - done.
  - exact Hkv.
Qed.

(** X6.  [map[k] = v] is an upsert.  On a reachable table of at most 2^30
    slots, the assignment through the reference [operator[]] returns maps
    [k] to [v], whether [k] was present or not, and changes no other key. *)
Theorem index_assign_upserts fuel t k v :
  reachable t → (Z.of_nat (buffer_size_ t) ≤ 2 ^ 30)%Z →
  ∃ t' it, operator_index (S fuel) t k = Some (t', it) ∧
    contents (write_second t' it v) = <[k := v]> (contents t) ∧
    find_value (write_second t' it v) k = Some v ∧
    (∀ k', k' ≠ k → find_value (write_second t' it v) k' = find_value t k') ∧
    size (write_second t' it v) = (if find_value t k is Some _ then size t else S (size t)).
Proof.
  intros Hr Hcap. apply reachable_Inv in Hr as Hinv.
  destruct (operator_index_spec fuel t k Hinv) as (t' & it & Hidx & Hinv' & _ & Hc).
  exists t', it. split; [done|].
  pose proof (operator_index_capacity_bound _ _ _ _ _ Hinv Hidx Hcap) as Hcap'.
  destruct (operator_index_slot _ _ _ _ _ Hinv Hidx Hcap') as (Hit & Ho & Hkv).
  pose proof (write_second_Inv t' it v Hinv') as Hinv''.
  assert (contents (write_second t' it v) = <[k := v]> (contents t)) as Hcw.
  { rewrite write_second_contents; [|done|by rewrite (ok_length _ _ Hinv')|done].
    unfold key_of. rewrite Hkv. simpl. rewrite Hc.
    destruct (contents t !! k); [done|]. apply insert_insert_eq. }
  rewrite !find_value_Inv by done. split_and!.
  - done.
  - rewrite Hcw. apply lookup_insert_eq.
  - intros k' Hk'. rewrite !find_value_Inv by done. rewrite Hcw.
    by rewrite lookup_insert_ne.
  - rewrite !size_size_contents by done. rewrite Hcw.
    destruct (contents t !! k) eqn:Hl.
    + by rewrite map_size_insert_Some by eauto.
    + by rewrite map_size_insert_None.
Qed.

(** X7.  A write through the iterator [find] returns.  On a reachable table
    holding [k], [find(k)->second = v] maps [k] to [v], changes no other key
    and no slot's key or status, so that [find] returns the same iterators
    as before. *)
Theorem write_through_find t k v :
  reachable t → find t k ≠ end_ t →
  contents (write_second t (find t k) v) = <[k := v]> (contents t) ∧
  find_value (write_second t (find t k) v) k = Some v ∧
  size (write_second t (find t k) v) = size t ∧
  (∀ k', find (write_second t (find t k) v) k' = find t k').
Proof.
  intros Hr Hne. apply reachable_Inv in Hr as Hinv.
  pose proof (write_second_Inv t (find t k) v Hinv) as Hinv'.
  destruct (contents t !! k) as [v0|] eqn:Hlook; [|by apply find_None in Hlook].
  destruct (find_Some t k v0 Hinv Hlook) as (Hlt & _ & Ho & Hkv).
  assert (contents (write_second t (find t k) v) = <[k := v]> (contents t)) as Hcw.
  { rewrite write_second_contents; [|done|by rewrite (ok_length _ _ Hinv)|done].
    unfold key_of. by rewrite Hkv. }
  split_and!.
  - done.
  - rewrite find_value_Inv by done. rewrite Hcw. apply lookup_insert_eq.
  - rewrite !size_size_contents by done. rewrite Hcw.
    by rewrite map_size_insert_Some by eauto.
  - intros k'. apply write_second_find.
Qed.

Lemma erase_fields t key :
  hasher_ (erase t key) = hasher_ t ∧ cnt_all_ (erase t key) = cnt_all_ t ∧
  buffer_size_ (erase t key) = buffer_size_ t ∧
  length (data_ (erase t key)) = length (data_ t).
Proof. apply erase_loop_fields. Qed.

Lemma erase_Inv t key : Inv t → Inv (erase t key).
Proof.
  intros Hinv. destruct (erase_spec t key Hinv) as (? & Hb & _). unfold Inv. by rewrite Hb.
Qed.

(** X8.  [erase] removes one key and frees nothing.  On a reachable table
    [erase(k)] unmaps [k] and leaves every other key as it is; [size()]
    drops by one when [k] was present; the capacity and the count of
    non-empty slots [cnt_all_] that drives growth are unchanged. *)
Theorem erase_removes_only_key t k :
  reachable t →
  contents (erase t k) = delete k (contents t) ∧
  find_value (erase t k) k = None ∧
  (∀ k', k' ≠ k → find_value (erase t k) k' = find_value t k') ∧
  size (erase t k) = (if find_value t k is Some _ then size t - 1 else size t) ∧
  cnt_all_ (erase t k) = cnt_all_ t ∧
  buffer_size_ (erase t k) = buffer_size_ t.
Proof.
  intros Hr. apply reachable_Inv in Hr as Hinv.
  pose proof (erase_Inv t k Hinv) as Hinv'.
  destruct (erase_spec t k Hinv) as (_ & _ & _ & Hc).
  destruct (erase_fields t k) as (_ & Ha & Hb & _).
  rewrite !find_value_Inv by done. split_and!; try done.
  - rewrite Hc. apply lookup_delete_eq.
  - intros k' Hk'. rewrite !find_value_Inv by done. rewrite Hc.
    by rewrite lookup_delete_ne.
  - rewrite !size_size_contents by done. rewrite Hc.
    destruct (contents t !! k) eqn:Hl.
    + rewrite map_size_delete_Some by eauto. lia.
    + by rewrite map_size_delete_None.
Qed.

(** X9.  Erasing an absent key changes nothing at all, and a second
    [erase(k)] changes nothing after the first. *)
Theorem erase_absent_is_identity t k :
  reachable t →
  (find t k = end_ t → erase t k = t) ∧
  erase (erase t k) k = erase t k.
Proof.
  intros Hr. apply reachable_Inv in Hr as Hinv.
  assert (∀ t0 : HashMap K V, Inv t0 → find t0 k = end_ t0 → erase t0 k = t0) as Habs.
  { intros t0 Hinv0 Hend. apply find_None in Hend; [|done].
    apply erase_absent; [apply Hinv0|]. apply fresh_key_contents; [apply Hinv0|done]. }
  split; [by apply Habs|].
  apply Habs; [by apply erase_Inv|]. apply find_None; [by apply erase_Inv|].
  destruct (erase_spec t k Hinv) as (_ & _ & _ & ->). apply lookup_delete_eq.
Qed.

(** X10.  [insert] touches one key.  On a reachable table [insert((k, v))]
    leaves the value of every other key as it is, and [size()] grows by one
    exactly when [k] was absent. *)
Theorem insert_leaves_other_keys fuel t k v :
  reachable t →
  ∃ t' it, insert (S fuel) t (k, v) = Some (t', it) ∧
    (∀ k', k' ≠ k → find_value t' k' = find_value t k') ∧
    size t' = (if find_value t k is Some _ then size t else S (size t)) ∧
    hasher_ t' = hasher_ t.
Proof.
  intros Hr. apply reachable_Inv in Hr as Hinv.
  destruct (insert_spec fuel t (k, v) Hinv) as (t' & it & Hins & Hinv' & Hh & Hc).
  exists t', it. simpl in Hc. rewrite find_value_Inv by done. split_and!; try done.
  - intros k' Hk'. rewrite !find_value_Inv by done. rewrite Hc.
    destruct (contents t !! k); [done|]. by rewrite lookup_insert_ne.
  - rewrite !size_size_contents by done. rewrite Hc.
    destruct (contents t !! k) eqn:Hl; [done|]. by rewrite map_size_insert_None.
Qed.

(** X11.  Construction from a sequence of pairs.  The constructors that
    replay [insert] return a reachable table that maps every key of the
    sequence to the value of its first occurrence, and nothing else. *)
Theorem construction_from_list fuel (hasher : K → nat) (l : list (KvType K V)) :
  ∃ t, HashMap_of_list (S fuel) hasher l = Some t ∧
    reachable t ∧
    contents t = list_to_map l ∧
    (∀ k, find_value t k = (λ r, r.2.2) <$> list_find (λ kv, kv.1 = k) l) ∧
    hasher_ t = hasher.
Proof.
  destruct (insert_each_spec fuel l (HashMap_new hasher) (Inv_new hasher))
    as (t & Hrun & Hinv & Hh & Hc).
  rewrite contents_new, (left_id_L ∅ (∪)) in Hc.
  exists t. split_and!; try done.
  - eapply insert_each_reachable; [apply reach_new|exact Hrun].
  - intros k. rewrite find_value_Inv by done. rewrite Hc. clear.
    induction l as [|[k0 v0] l IH]; [done|]. cbn [list_to_map foldr list_find].
    simpl. destruct (decide (k0 = k)) as [->|Hne].
    + by rewrite lookup_insert_eq.
    + rewrite lookup_insert_ne by done. rewrite IH.
      by destruct (list_find _ l) as [[j [k1 v1]]|].
Qed.

Lemma reachable_capacity t : reachable t → ∃ n, buffer_size_ t = default_size_ * 2 ^ n.
Proof.
  assert (∀ fuel (t0 : HashMap K V) kv t' it,
            Inv t0 → (∃ n, buffer_size_ t0 = default_size_ * 2 ^ n) →
            insert fuel t0 kv = Some (t', it) →
            ∃ n, buffer_size_ t' = default_size_ * 2 ^ n) as Hins.
  { intros fuel t0 kv t' it Hinv [n Hn] Hrun.
    destruct (insert_capacity _ _ _ _ _ Hinv Hrun) as (_ & [(_ & -> & _)|(_ & -> & _)]).
    - by exists n.
    - exists (S n). rewrite Hn, Nat.pow_succ_r'. lia. }
  induction 1 as [hasher|fuel t kv t' it Hr IH Hrun|t k _ IH|fuel t k t' it Hr IH Hidx
                 |t it v _ IH Hit|t _ _|this other _ IH].
  - by exists 0.
  - eapply Hins; [by apply reachable_Inv|done..].
  - destruct (erase_fields t k) as (_ & _ & -> & _). done.
  - unfold operator_index in Hidx. case_bool_decide.
    + eapply Hins; [by apply reachable_Inv|done..].
    + by injection Hidx as <- _.
  - done.
  - rewrite clear_eq. by exists 0.
  - by rewrite operator_assign_eq.
Qed.

(** X12.  The capacity only grows.  In a reachable table the slot array has
    [buffer_size_] slots and the capacity is 16 times a power of two;
    [insert] keeps or doubles it, [erase] keeps it, and only [clear] brings
    it back to 16. *)
Theorem capacity_only_grows fuel t kv k :
  reachable t →
  (∃ n, buffer_size_ t = default_size_ * 2 ^ n) ∧
  length (data_ t) = buffer_size_ t ∧
  (∃ t' it, insert (S fuel) t kv = Some (t', it) ∧
     (buffer_size_ t' = buffer_size_ t ∨ buffer_size_ t' = 2 * buffer_size_ t)) ∧
  buffer_size_ (erase t k) = buffer_size_ t ∧
  buffer_size_ (clear t) = default_size_.
Proof.
  intros Hr. apply reachable_Inv in Hr as Hinv. split_and!.
  - by apply reachable_capacity.
  - apply Hinv.
  - destruct (insert_spec fuel t kv Hinv) as (t' & it & Hins & _).
    exists t', it. split; [done|].
    destruct (insert_capacity _ _ _ _ _ Hinv Hins) as (_ & [(_ & -> & _)|(_ & -> & _)]);
      [by left|right; lia].
  - by destruct (erase_fields t k) as (_ & _ & -> & _).
  - by rewrite clear_eq.
Qed.


(** X14.  Tombstones are not reused.  When no growth is due, [insert] on a
    reachable table leaves every tombstone slot and [cnt_dead_] as they
    are; so erasing a key and inserting it again takes one more slot:
    [cnt_all_] and [cnt_dead_] both grow by one while [size()] is what it
    was. *)
Theorem tombstones_not_reused fuel t kv :
  reachable t → 2 * cnt_all_ t ≤ buffer_size_ t →
  (∃ t' it, insert (S fuel) t kv = Some (t', it) ∧
     cnt_dead_ t' = cnt_dead_ t ∧
     ∀ s, status (data_ t !!! s) ≠ 1%Z → status (data_ t !!! s) ≠ (-1)%Z →
          data_ t' !!! s = data_ t !!! s) ∧
  (∀ v0, find_value t kv.1 = Some v0 →
     ∃ t' it, insert (S fuel) (erase t kv.1) kv = Some (t', it) ∧
       cnt_all_ t' = S (cnt_all_ t) ∧
       cnt_dead_ t' = S (cnt_dead_ t) ∧
       size t' = size t ∧
       buffer_size_ t' = buffer_size_ t).
Proof.
  intros Hr Hload. apply reachable_Inv in Hr as Hinv. split.
  - rewrite insert_no_growth by done.
    destruct (insert_loop_shape t kv) as (t' & it & e & Hrun & _ & Hd & _).
    { eapply table_ok_load; [done|lia]. }
    rewrite Hrun. exists t', it. split_and!; [done..|].
    intros s Hn1 Hn2. by eapply insert_loop_keeps_tombstones.
  - intros v0 Hfv. rewrite find_value_Inv in Hfv by done.
    pose proof (erase_Inv t kv.1 Hinv) as Hinv'.
    destruct (erase_spec t kv.1 Hinv) as (_ & _ & _ & Hc).
    destruct (erase_fields t kv.1) as (_ & Ha & Hb & _).
    assert (size (erase t kv.1) = size t - 1 ∧ 0 < size t) as [Hsz Hpos].
    { rewrite !size_size_contents by done. rewrite Hc.
      rewrite map_size_delete_Some by eauto.
      assert (base.size (contents t) ≠ 0); [|lia].
      intros Hz. apply map_size_empty_iff in Hz. rewrite Hz in Hfv. done. }
    pose proof (Inv_dead_le_all _ Hinv) as Hle.
    pose proof (Inv_dead_le_all _ Hinv') as Hle'.
    rewrite insert_no_growth by lia.
    destruct (insert_loop_shape (erase t kv.1) kv) as (t' & it & e & Hrun & Hb' & Hd' & Ha').
    { eapply table_ok_load; [done|lia]. }
    rewrite Hrun. exists t', it. split; [done|].
    rewrite Hc, lookup_delete_eq in Ha'. unfold size in *.
    split_and!; lia.
Qed.

(** X15.  Robin Hood ordering.  In a reachable table the [dist_to_ideal]
    of an occupied slot is its distance (mod capacity) from the slot its key
    hashes to, and every occupied slot passed on the way from there is at
    least as far from its own ideal slot as the key is at that point. *)
Theorem robin_hood_ordering t i :
  reachable t → i < buffer_size_ t → status (data_ t !!! i) = 1%Z →
  let h := get_hash t (key_of (data_ t !!! i)) in
  let c := dist_to_ideal (data_ t !!! i) in
  c < buffer_size_ t ∧
  (h + c) mod buffer_size_ t = i ∧
  ∀ j, j < c →
    status (data_ t !!! ((h + j) mod buffer_size_ t)) ≠ (-1)%Z ∧
    (status (data_ t !!! ((h + j) mod buffer_size_ t)) = 1%Z →
     j ≤ dist_to_ideal (data_ t !!! ((h + j) mod buffer_size_ t))).
Proof.
  intros Hr Hi Ho h c. apply reachable_Inv in Hr as Hinv.
  pose proof (ok_length _ _ Hinv) as Hlen. pose proof (ok_slots _ _ Hinv) as Hok.
  destruct (ok_dist _ _ Hok i ltac:(lia) Ho) as [Hc Hp].
  pose proof (ok_chain _ _ Hok i ltac:(lia) Ho) as Hchain.
  unfold h, c. split_and!.
  - lia.
  - by rewrite probe_code.
  - intros j Hj. rewrite probe_code by done. by apply Hchain.
Qed.

(** X16.  The counters count slots.  In a reachable table [cnt_all_] is the
    number of non-empty slots, [cnt_dead_] the number of tombstones and
    [size()] the number of occupied slots; the subtraction in [size()] does
    not wrap, and at most half the slots plus one are non-empty. *)
Theorem counters_count_slots t :
  reachable t →
  cnt_all_ t = count_nonempty (data_ t) ∧
  cnt_dead_ t = count_tombstone (data_ t) ∧
  size t = count_occupied (data_ t) ∧
  cnt_dead_ t ≤ cnt_all_ t ∧
  2 * cnt_all_ t ≤ buffer_size_ t + 2 ∧
  size t < buffer_size_ t.
Proof.
  intros Hr. apply reachable_Inv in Hr as Hinv.
  pose proof (Inv_dead_le_all _ Hinv) as Hle.
  pose proof (ok_capacity _ _ Hinv) as Hcap. unfold default_size_ in Hcap.
  pose proof (ok_load _ _ Hinv) as Hload.
  split_and!.
  - apply (ok_all _ _ Hinv).
  - apply (ok_dead _ _ Hinv).
  - by apply size_count.
  - done.
  - done.
  - unfold size. lia.
Qed.

Lemma operator_index_capacity fuel t k t' it :
  Inv t → operator_index fuel t k = Some (t', it) →
  cnt_all_ t' ≤ S (cnt_all_ t) ∧
  (buffer_size_ t' = buffer_size_ t ∨
   (buffer_size_ t < 2 * cnt_all_ t ∧ buffer_size_ t' = buffer_size_ t * 2)).
Proof.
  intros Hinv Hidx. unfold operator_index in Hidx. case_bool_decide.
  - destruct (insert_capacity _ _ _ _ _ Hinv Hidx) as (? & [(_ & ? & _)|(? & ? & _)]);
      split; auto.
  - injection Hidx as <- _. split; [lia|by left].
Qed.

(** ** Construction from a range of iterators *)

Lemma insert_range_traverse n fuel t other cur :
  insert_range n fuel t other cur (end_ other) =
  l ← traverse_from n other cur; insert_each fuel t l.
Proof.
  revert t cur. induction n as [|n IH]; intros t cur; [done|].
  cbn [insert_range traverse_from]. case_bool_decide; [done|].
  change (operator_post_incr other cur).2 with (operator_incr other cur).
  destruct (traverse_from n other (operator_incr other cur)) as [l|] eqn:Htr; simpl.
  - destruct (insert fuel t (operator_deref other cur)) as [[t' it]|]; [|done]. simpl.
    by rewrite IH, Htr.
  - destruct (insert fuel t (operator_deref other cur)) as [[t' it]|]; [|done]. simpl.
    by rewrite IH, Htr.
Qed.

Lemma insert_each_dead_zero fuel l t t' :
  Inv t → cnt_dead_ t = 0 → insert_each fuel t l = Some t' → cnt_dead_ t' = 0.
Proof.
  revert t. induction l as [|kv l IH]; intros t Hinv Hd; simpl.
  - by intros [= <-].
  - destruct (insert fuel t kv) as [[t1 it]|] eqn:Hins; [|done]. simpl.
    destruct (insert_Inv _ _ _ _ _ Hinv Hins) as (Hinv1 & _).
    apply IH; [done|].
    destruct (insert_capacity _ _ _ _ _ Hinv Hins) as (_ & [(_ & _ & ->)|(_ & _ & ->)]); done.
Qed.

(** X18.  Copy by iteration.  The table constructed from the range
    [other.begin(), other.end()] of a reachable table [other] is returned,
    is reachable and maps the same keys to the same values as [other]; it
    has no tombstone slot, whatever [other] has. *)
Theorem construction_from_range n fuel (hasher : K → nat) (other : HashMap K V) :
  reachable other → length (data_ other) < n →
  ∃ t, HashMap_of_range n (S fuel) hasher other (begin other) (end_ other) = Some t ∧
    reachable t ∧
    contents t = contents other ∧
    (∀ k, find_value t k = find_value other k) ∧
    size t = size other ∧
    cnt_dead_ t = 0 ∧ count_tombstone (data_ t) = 0 ∧
    hasher_ t = hasher.
Proof.
  intros Hr Hn. apply reachable_Inv in Hr as Hinv.
  unfold HashMap_of_range. rewrite insert_range_traverse.
  fold (traverse n other). rewrite traverse_spec by done. simpl.
  destruct (insert_each_spec fuel (occupied_pairs (data_ other)) (HashMap_new hasher)
              (Inv_new hasher)) as (t & Hrun & Hinv' & Hh & Hc).
  rewrite contents_new, (left_id_L ∅ (∪)) in Hc. fold (contents other) in Hc.
  pose proof (insert_each_dead_zero _ _ _ _ (Inv_new hasher) eq_refl Hrun) as Hd.
  exists t. split_and!; try done.
  - eapply insert_each_reachable; [apply reach_new|exact Hrun].
  - intros k. by rewrite !find_value_Inv, Hc.
  - by rewrite !size_size_contents, Hc.
  - by rewrite <- (ok_dead _ _ Hinv').
Qed.

(** ** [at] after an update *)

Lemma at_find_value (t : HashMap K V) k :
  at_ t k = match find_value t k with Some v => inr v | None => inl KeyNotFound end.
Proof. unfold at_, find_value. by case_bool_decide. Qed.

(** X19.  [at] reads the last write.  On a reachable table of at most 2^30
    slots, after [map[k] = v] the call [at(k)] returns [v] and [at] of
    every other key returns or throws as before; after [erase(k)] on the
    result, [at(k)] throws and the other keys are still as before. *)
Theorem at_reads_last_write fuel t k v :
  reachable t → (Z.of_nat (buffer_size_ t) ≤ 2 ^ 30)%Z →
  ∃ t' it, operator_index (S fuel) t k = Some (t', it) ∧
    at_ (write_second t' it v) k = inr v ∧
    (∀ k', k' ≠ k → at_ (write_second t' it v) k' = at_ t k') ∧
    at_ (erase (write_second t' it v) k) k = inl KeyNotFound ∧
    (∀ k', k' ≠ k → at_ (erase (write_second t' it v) k) k' = at_ t k').
Proof.
  intros Hr Hcap. apply reachable_Inv in Hr as Hinv.
  destruct (operator_index_spec fuel t k Hinv) as (t' & it & Hidx & Hinv' & _ & Hc).
  exists t', it. split; [done|].
  pose proof (operator_index_capacity_bound _ _ _ _ _ Hinv Hidx Hcap) as Hcap'.
  destruct (operator_index_slot _ _ _ _ _ Hinv Hidx Hcap') as (Hit & Ho & Hkv).
  pose proof (write_second_Inv t' it v Hinv') as Hinv2.
  pose proof (erase_Inv _ k Hinv2) as Hinv3.
  assert (contents (write_second t' it v) = <[k := v]> (contents t)) as Hcw.
  { rewrite write_second_contents; [|done|by rewrite (ok_length _ _ Hinv')|done].
    unfold key_of. rewrite Hkv. simpl. rewrite Hc.
    destruct (contents t !! k); [done|]. apply insert_insert_eq. }
  destruct (erase_spec _ k Hinv2) as (_ & _ & _ & Hce).
  rewrite !at_find_value, !find_value_Inv by done. rewrite Hce, Hcw. split_and!.
  - by rewrite lookup_insert_eq.
  - intros k' Hk'. rewrite !at_find_value, !find_value_Inv by done.
    by rewrite Hcw, lookup_insert_ne.
  - by rewrite lookup_delete_eq.
  - intros k' Hk'. rewrite !at_find_value, !find_value_Inv by done.
    by rewrite Hce, Hcw, lookup_delete_ne, lookup_insert_ne.
Qed.

End HashMap_facts.

(** * The command-driven program against a finite map *)

Lemma exec_command_spec fuel (map : HashMap Z Z) c a :
  Inv map → cnt_all_ map ≤ a → buffer_size_ map ≤ 16 + 4 * a →
  (Z.of_nat a ≤ 2 ^ 27)%Z →
  ∃ map' out, exec_command (S fuel) map c = Some (map', out) ∧
    Inv map' ∧ cnt_all_ map' ≤ S a ∧ buffer_size_ map' ≤ 16 + 4 * S a ∧
    hasher_ map' = hasher_ map ∧
    contents map' = ref_state (contents map) c ∧
    out ≡ₚ ref_output (contents map) c.
Proof.
  intros Hinv Hcnt Hcap Ha.
  destruct c as [key val|key|key| | |key]; cbn [exec_command ref_state ref_output].
  - destruct (operator_index_spec fuel map key Hinv) as (t' & it & Hidx & Hinv' & Hh & Hc).
    rewrite Hidx.
    destruct (operator_index_capacity _ _ _ _ _ Hinv Hidx) as [Hcnt' Hcap'].
    assert (Z.of_nat (buffer_size_ t') ≤ 2 ^ 31)%Z as Hb31 by (destruct Hcap' as [->|[_ ->]]; lia).
    destruct (operator_index_slot _ _ _ _ _ Hinv Hidx Hb31) as (Hit & Ho & Hkv).
    rewrite bool_decide_eq_true_2 by (by rewrite (ok_length _ _ Hinv')).
    exists (write_second t' it val), []. split_and!; try done.
    + by apply write_second_Inv.
    + simpl. lia.
    + simpl. destruct Hcap' as [->|[? ->]]; lia.
    + rewrite write_second_contents; [|done|by rewrite (ok_length _ _ Hinv')|done].
      unfold key_of. rewrite Hkv. simpl. rewrite Hc.
      destruct (contents map !! key); [done|]. apply insert_insert_eq.
  - destruct (erase_spec map key Hinv) as (_ & _ & Hh & Hc).
    destruct (erase_fields map key) as (_ & Ha' & Hb' & _).
    exists (erase map key), []. split_and!; try done.
    + by apply erase_Inv.
    + lia.
    + lia.
  - exists map, [LineValue (if bool_decide (find map key = end_ map) then (-1)%Z
                            else (operator_deref map (find map key)).2)].
    split_and!; try done; try lia.
    pose proof (find_value_Inv map key Hinv) as Hfv. unfold find_value in Hfv.
    rewrite <- Hfv. unfold operator_deref. by case_bool_decide.
  - rewrite traverse_spec by lia.
    exists map, ((λ kv, LinePair kv.1 kv.2) <$> occupied_pairs (data_ map)).
    split_and!; try done; try lia.
    apply fmap_Permutation. symmetry. apply map_to_list_to_map.
    apply NoDup_occupied_pairs, Hinv.
  - exists (clear map), []. rewrite clear_eq.
    split_and!; [done|apply Inv_new|simpl; lia|simpl; unfold default_size_; lia|done
                |apply contents_new|done].
  - exists map, []. split_and!; try done; lia.
Qed.

Lemma exec_commands_spec fuel cmds (map : HashMap Z Z) a :
  Inv map → cnt_all_ map ≤ a → buffer_size_ map ≤ 16 + 4 * a →
  (Z.of_nat (a + length cmds) ≤ 2 ^ 27)%Z →
  ∃ map' out groups, exec_commands (S fuel) map cmds = Some (map', out) ∧
    Inv map' ∧ hasher_ map' = hasher_ map ∧
    contents map' = ref_final (contents map) cmds ∧
    out = concat groups ∧
    Forall2 (≡ₚ) groups (ref_outputs (contents map) cmds).
Proof.
  revert map a. induction cmds as [|c cmds IH]; intros map a Hinv Hcnt Hcap Ha.
  - exists map, [], []. by split_and!.
  - simpl in Ha.
    destruct (exec_command_spec fuel map c a Hinv Hcnt Hcap ltac:(lia))
      as (map1 & out1 & Hex & Hinv1 & Hcnt1 & Hcap1 & Hh1 & Hc1 & Hp1).
    destruct (IH map1 (S a) Hinv1 Hcnt1 Hcap1 ltac:(lia))
      as (map2 & out2 & groups & Hex2 & Hinv2 & Hh2 & Hc2 & Hout2 & Hgr).
    exists map2, (out1 ++ out2), (out1 :: groups).
    cbn [exec_commands]. rewrite Hex, Hex2.
    split_and!; try done.
    + congruence.
    + by rewrite Hc2, Hc1.
    + simpl. by rewrite Hout2.
    + cbn [ref_outputs]. constructor; [done|]. by rewrite <- Hc1.
Qed.

(** X17.  The command-driven program computes what it would on a finite
    map.  For at most 2^27 commands the program ends; the lines it prints
    are, command by command, those of the same commands run on a finite
    map ([-1] for the query of an absent key, each dump in some order), and
    the last line is the number of keys of that map. *)
Theorem exerciser_matches_reference fuel (hasher : Z → nat) (cmds : list command) :
  (Z.of_nat (length cmds) ≤ 2 ^ 27)%Z →
  ∃ out groups, main_program (S fuel) hasher cmds = Some out ∧
    out = concat groups ++ [LineSize (base.size (ref_final ∅ cmds))] ∧
    Forall2 (≡ₚ) groups (ref_outputs ∅ cmds).
Proof.
  intros Hn.
  destruct (exec_commands_spec fuel cmds (HashMap_new hasher) 0 (Inv_new hasher))
    as (map & out & groups & Hex & Hinv & _ & Hc & Hout & Hgr).
  - simpl. lia.
  - simpl. unfold default_size_. lia.
  - simpl. lia.
  - rewrite contents_new in Hc, Hgr.
    exists (out ++ [LineSize (size map)]), groups. unfold main_program. rewrite Hex.
    split_and!; [done| |done].
    by rewrite Hout, size_size_contents, Hc.
Qed.

(** * The claims on the example tables *)

Lemma ex_map_reachable : reachable ex_map.
Proof.
  apply (insert_each_reachable 1 [(1, 5); (3, 4); (2, 1)] (HashMap_new ex_hash)).
  - apply reach_new.
  - vm_compute. reflexivity.
Qed.

Lemma ex_full_reachable : reachable ex_full.
Proof.
  apply (insert_each_reachable 1 ((λ i, (i, i + 100)) <$> seq 0 9) (HashMap_new ex_hash)).
  - apply reach_new.
  - vm_compute. reflexivity.
Qed.

(** The first scenario of the specification: [size() == 3],
    [find(3)->second == 4], [find(7) == end()]. *)
Example ex_map_scenario :
  size ex_map = 3 ∧ find_value ex_map 3 = Some 4 ∧ find ex_map 7 = end_ ex_map.
Proof. split_and!; reflexivity. Qed.

(** The fourth scenario: after [erase(3)], [find(3) == end()], and a second
    [erase(3)] changes nothing. *)
Example ex_map_erase_scenario :
  find (erase ex_map 3) 3 = end_ (erase ex_map 3) ∧
  size (erase ex_map 3) = 2 ∧
  erase (erase ex_map 3) 3 = erase ex_map 3.
Proof. split_and!; vm_compute; reflexivity. Qed.

(** Robin Hood displacement: with keys 0, 16 and 1 in slots 0, 1 and 2,
    [insert((32, 3))] takes slot 2 from the richer key 1, which moves on to
    slot 3; the iterator returned points to slot 2. *)
Example ex_displacement :
  (t ← HashMap_of_list 1 ex_hash [(0, 0); (16, 1); (1, 2)];
   '(t', it) ← insert 1 t (32, 3);
   Some (it, data_ t' !!! 2, data_ t' !!! 3, size t')) =
  Some (2, mkNode (32, 3) 1 2, mkNode (1, 2) 1 2, 4).
Proof. vm_compute. reflexivity. Qed.

(** Full collision, as in the fifth scenario but with 40 keys: under a hash
    functor that returns 0 for every key the table grows three times, holds
    40 keys, and every key [i] is found with value [i + 1]. *)
Example ex_constant_hash :
  (t ← HashMap_of_list 1 (λ _ : nat, 0) ((λ i, (i, i + 1)) <$> seq 0 40);
   Some (size t, buffer_size_ t,
         forallb (λ i, bool_decide (find_value t i = Some (i + 1))) (seq 0 40))) =
  Some (40, 128, true).
Proof. vm_compute. reflexivity. Qed.

(** C1 as stated fails: [insert((3, 7))] on a table that maps 3 to 4 leaves
    the table as it is, and [find(3)] still yields 4. *)
Lemma round_trip_fails_for_present_key :
  reachable ex_map ∧
  insert 1 ex_map (3, 7) = Some (ex_map, 3) ∧
  find_value ex_map 3 = Some 4 ∧
  find_value ex_map 3 ≠ Some 7.
Proof.
  split_and!.
  - exact ex_map_reachable.
  - vm_compute. reflexivity.
  - reflexivity.
  - discriminate.
Qed.

Lemma insert_find_erase_round_trip_witness :
  reachable ex_map ∧
  (∃ t' it, insert 1 ex_map (7, 9) = Some (t', it) ∧
     find t' 7 ≠ end_ t' ∧
     status (data_ t' !!! find t' 7) = 1%Z ∧
     keyvalue (data_ t' !!! find t' 7) = (7, default 9 (find_value ex_map 7))) ∧
  find (erase ex_map 7) 7 = end_ (erase ex_map 7).
Proof.
  split; [exact ex_map_reachable|].
  exact (insert_find_erase_round_trip 0 ex_map 7 9 ex_map_reachable).
Defined.

Lemma insert_existing_key_noop_witness :
  reachable ex_map ∧ find_value ex_map 3 = Some 4 ∧
  ∃ t' it, insert 1 ex_map (3, 7) = Some (t', it) ∧
    it < buffer_size_ t' ∧
    status (data_ t' !!! it) = 1%Z ∧
    keyvalue (data_ t' !!! it) = (3, 4) ∧
    find_value t' 3 = Some 4 ∧
    contents t' = contents ex_map ∧
    size t' = size ex_map ∧
    (2 * cnt_all_ ex_map ≤ buffer_size_ ex_map → t' = ex_map).
Proof.
  split; [exact ex_map_reachable|]. split; [reflexivity|].
  apply (insert_existing_key_noop 0 ex_map 3 4 7); [exact ex_map_reachable|reflexivity].
Defined.

Lemma find_follows_probe_sequence_witness :
  length (data_ ex_map) = buffer_size_ ex_map ∧ find ex_map 3 = find_spec ex_map 3.
Proof.
  split; [reflexivity|].
  apply (proj1 (find_follows_probe_sequence ex_map 3 eq_refl)).
Defined.

Lemma probe_chain_integrity_witness :
  reachable ex_full ∧ probe_chain_intact ex_full ∧
  ∀ fuel t', resize fuel ex_full = Some t' → probe_chain_intact t'.
Proof.
  split; [exact ex_full_reachable|].
  exact (probe_chain_integrity ex_full ex_full_reachable).
Defined.

Lemma growth_policy_witness :
  reachable ex_full ∧ buffer_size_ ex_full < 2 * cnt_all_ ex_full ∧
  ∃ t', resize 1 ex_full = Some t' ∧
    buffer_size_ t' = 32 ∧ cnt_dead_ t' = 0 ∧ cnt_all_ t' = 9 ∧
    contents t' = contents ex_full.
Proof.
  split; [exact ex_full_reachable|].
  assert (buffer_size_ ex_full < 2 * cnt_all_ ex_full) as Hgrow by (vm_compute; lia).
  split; [exact Hgrow|].
  destruct (growth_policy 0 ex_full (0, 0) ex_full_reachable) as (_ & _ & Hg).
  destruct (Hg Hgrow) as (t' & Hres & _ & Hb & _ & Hd & _ & Ha & Hc).
  exists t'. split_and!; [exact Hres|exact Hb|exact Hd|exact Ha|exact Hc].
Defined.

Lemma at_KeyNotFound_iff_absent_witness :
  find ex_map 8 = end_ ex_map ∧ at_ ex_map 8 = inl KeyNotFound.
Proof.
  split; [reflexivity|].
  apply (proj1 (at_KeyNotFound_iff_absent ex_map 8)). reflexivity.
Defined.

Lemma copy_independence_witness :
  2 ≠ 1 ∧ ({[ 1 := ex_map ]} : gmap nat (HashMap nat nat)) !! 1 = Some ex_map ∧
  reachable ex_map ∧
  index_writes_in_range ex_map [OpIndexAssign 3 7; OpInsert (9, 9); OpErase 1; OpClear] ∧
  ∃ σ1, store_copy_construct ex_hash {[ 1 := ex_map ]} 2 1 = Some σ1 ∧
    copy_independent 0 σ1 2 1 ex_map [OpIndexAssign 3 7; OpInsert (9, 9); OpErase 1; OpClear] ∧
    ∃ σ2 rs,
      store_run 1 σ1 2 [OpIndexAssign 3 7; OpInsert (9, 9); OpErase 1; OpClear] =
        Some (σ2, rs) ∧
      σ2 !! 1 = Some ex_map.
Proof.
  split; [lia|]. split; [reflexivity|]. split; [exact ex_map_reachable|].
  assert (index_writes_in_range ex_map
            [OpIndexAssign 3 7; OpInsert (9, 9); OpErase 1; OpClear]) as Hrange.
  { intros _. change (Z.of_nat 16 ≤ 2 ^ 27 ∧ Z.of_nat 4 ≤ 2 ^ 27)%Z. lia. }
  split; [exact Hrange|].
  destruct (copy_independence 0 ex_hash {[ 1 := ex_map ]} 2 1 ex_map
              [OpIndexAssign 3 7; OpInsert (9, 9); OpErase 1; OpClear])
    as [(σ1 & Hcopy & Hind) _]; [lia|reflexivity|].
  exists σ1. split; [exact Hcopy|]. split; [exact Hind|].
  destruct Hind as (_ & _ & Hframe & Hret).
  destruct (Hret ex_map_reachable Hrange) as (σ2 & rs & Hrun).
  exists σ2, rs. split; [exact Hrun|exact (Hframe _ _ _ Hrun)].
Defined.

Lemma unique_keys_and_size_witness :
  (existsb writes_through_index
     [OpInsert (1, 5); OpIndexAssign 2 7; OpInsert (1, 6); OpErase 2; OpInsert (3, 4)]
   = true →
   (Z.of_nat (length [OpInsert (1, 5); OpIndexAssign 2 7; OpInsert (1, 6); OpErase 2;
                      OpInsert (3, 4)]) ≤ 2 ^ 27)%Z) ∧
  ∃ t rs,
    run 1 (HashMap_new ex_hash)
      [OpInsert (1, 5); OpIndexAssign 2 7; OpInsert (1, 6); OpErase 2; OpInsert (3, 4)]
    = Some (t, rs) ∧
    size t = base.size (live_keys [OpInsert (1, 5); OpIndexAssign 2 7; OpInsert (1, 6);
                                   OpErase 2; OpInsert (3, 4)]).
Proof.
  assert (existsb writes_through_index
            [OpInsert (1, 5); OpIndexAssign 2 7; OpInsert (1, 6); OpErase 2; OpInsert (3, 4)]
          = true →
          (Z.of_nat (length [OpInsert (1, 5); OpIndexAssign 2 7; OpInsert (1, 6); OpErase 2;
                             OpInsert (3, 4)]) ≤ 2 ^ 27)%Z) as Hn
    by (intros _; simpl; lia).
  split; [exact Hn|].
  destruct (unique_keys_and_size 0 ex_hash _ Hn) as (t & rs & Hrun & _ & _ & Hsize).
  exists t, rs. split; [exact Hrun|exact Hsize].
Defined.

Lemma empty_slot_always_exists_witness :
  reachable ex_full ∧
  (find_loop (buffer_size_ ex_full) 0 ex_full 16 (get_hash ex_full 16)).2 ≠ FallThrough ∧
  (erase_loop (buffer_size_ ex_full) 0 ex_full 16 (get_hash ex_full 16)).2 ≠ FallThrough.
Proof.
  split; [exact ex_full_reachable|].
  destruct (empty_slot_always_exists 0 ex_full (16, 0) 16 ex_full_reachable)
    as (_ & _ & _ & _ & Hfind & Herase).
  split; [exact Hfind|exact Herase].
Defined.

(** * The further properties on the example tables *)

Lemma ex_map_small : (Z.of_nat (buffer_size_ ex_map) ≤ 2 ^ 30)%Z.
Proof. change (Z.of_nat 16 ≤ 2 ^ 30)%Z. lia. Qed.

Lemma traverse_visits_live_pairs_witness :
  reachable ex_map ∧ length (data_ ex_map) < 17 ∧
  traverse 17 ex_map = Some [(1, 5); (2, 1); (3, 4)].
Proof.
  split; [exact ex_map_reachable|].
  assert (length (data_ ex_map) < 17) as Hfuel by (vm_compute; lia).
  split; [exact Hfuel|].
  destruct (traverse_visits_live_pairs 17 ex_map ex_map_reachable Hfuel)
    as (l & Hl & -> & _).
  exact Hl.
Defined.

Lemma begin_is_end_iff_empty_witness :
  reachable ex_map ∧ (begin ex_map = end_ ex_map ↔ empty ex_map = true).
Proof.
  split; [exact ex_map_reachable|].
  exact (proj1 (begin_is_end_iff_empty ex_map ex_map_reachable)).
Defined.

Lemma increment_reaches_next_occupied_witness :
  1 < length (data_ ex_map) ∧
  operator_post_incr ex_map 1 = (1, operator_incr ex_map 1) ∧
  1 < operator_incr ex_map 1 ≤ end_ ex_map.
Proof.
  assert (1 < length (data_ ex_map)) as Hit by (vm_compute; lia).
  split; [exact Hit|].
  destruct (increment_reaches_next_occupied ex_map 1 Hit) as (_ & (Hr & _) & Hpost).
  split; [exact Hpost|exact Hr].
Defined.

Lemma insert_returns_slot_of_key_witness :
  reachable ex_map ∧ (Z.of_nat (buffer_size_ ex_map) ≤ 2 ^ 30)%Z ∧
  ∃ t' it, insert 1 ex_map (7, 9) = Some (t', it) ∧
    it = find t' 7 ∧ it ≠ end_ t' ∧
    operator_deref t' it = (7, default 9 (find_value ex_map 7)).
Proof.
  split; [exact ex_map_reachable|]. split; [exact ex_map_small|].
  exact (insert_returns_slot_of_key 0 ex_map 7 9 ex_map_reachable ex_map_small).
Defined.

Lemma operator_index_finds_or_creates_witness :
  reachable ex_map ∧ (Z.of_nat (buffer_size_ ex_map) ≤ 2 ^ 30)%Z ∧
  ∃ t' it, operator_index 1 ex_map 0 = Some (t', it) ∧
    find_value t' 0 = Some (default value_init (find_value ex_map 0)).
Proof.
  split; [exact ex_map_reachable|]. split; [exact ex_map_small|].
  destruct (operator_index_finds_or_creates 0 ex_map 0 ex_map_reachable ex_map_small)
    as (t' & it & Hidx & Hfv & _).
  exists t', it. split; [exact Hidx|exact Hfv].
Defined.

Lemma index_assign_upserts_witness :
  reachable ex_map ∧ (Z.of_nat (buffer_size_ ex_map) ≤ 2 ^ 30)%Z ∧
  ∃ t' it, operator_index 1 ex_map 3 = Some (t', it) ∧
    find_value (write_second t' it 7) 3 = Some 7.
Proof.
  split; [exact ex_map_reachable|]. split; [exact ex_map_small|].
  destruct (index_assign_upserts 0 ex_map 3 7 ex_map_reachable ex_map_small)
    as (t' & it & Hidx & _ & Hfv & _).
  exists t', it. split; [exact Hidx|exact Hfv].
Defined.

Lemma write_through_find_witness :
  reachable ex_map ∧ find ex_map 2 ≠ end_ ex_map ∧
  find_value (write_second ex_map (find ex_map 2) 3) 2 = Some 3.
Proof.
  split; [exact ex_map_reachable|].
  assert (find ex_map 2 ≠ end_ ex_map) as Hne by (vm_compute; lia).
  split; [exact Hne|].
  exact (proj1 (proj2 (write_through_find ex_map 2 3 ex_map_reachable Hne))).
Defined.

Lemma erase_removes_only_key_witness :
  reachable ex_map ∧ find_value (erase ex_map 3) 3 = None ∧
  cnt_all_ (erase ex_map 3) = cnt_all_ ex_map.
Proof.
  split; [exact ex_map_reachable|].
  destruct (erase_removes_only_key ex_map 3 ex_map_reachable) as (_ & Hf & _ & _ & Ha & _).
  split; [exact Hf|exact Ha].
Defined.

Lemma erase_absent_is_identity_witness :
  reachable ex_map ∧ find ex_map 7 = end_ ex_map ∧ erase ex_map 7 = ex_map.
Proof.
  split; [exact ex_map_reachable|].
  assert (find ex_map 7 = end_ ex_map) as Hend by reflexivity.
  split; [exact Hend|].
  exact (proj1 (erase_absent_is_identity ex_map 7 ex_map_reachable) Hend).
Defined.

Lemma insert_leaves_other_keys_witness :
  reachable ex_map ∧
  ∃ t' it, insert 1 ex_map (7, 9) = Some (t', it) ∧
    (∀ k', k' ≠ 7 → find_value t' k' = find_value ex_map k').
Proof.
  split; [exact ex_map_reachable|].
  destruct (insert_leaves_other_keys 0 ex_map 7 9 ex_map_reachable)
    as (t' & it & Hins & Hother & _).
  exists t', it. split; [exact Hins|exact Hother].
Defined.

Lemma capacity_only_grows_witness :
  reachable ex_full ∧
  ∃ t' it, insert 1 ex_full (9, 9) = Some (t', it) ∧
    (buffer_size_ t' = buffer_size_ ex_full ∨ buffer_size_ t' = 2 * buffer_size_ ex_full).
Proof.
  split; [exact ex_full_reachable|].
  exact (proj1 (proj2 (proj2 (capacity_only_grows 0 ex_full (9, 9) 0 ex_full_reachable)))).
Defined.

Lemma tombstones_not_reused_witness :
  reachable ex_map ∧ 2 * cnt_all_ ex_map ≤ buffer_size_ ex_map ∧
  find_value ex_map 3 = Some 4 ∧
  ∃ t' it, insert 1 (erase ex_map 3) (3, 8) = Some (t', it) ∧
    cnt_all_ t' = S (cnt_all_ ex_map) ∧
    cnt_dead_ t' = S (cnt_dead_ ex_map) ∧
    size t' = size ex_map ∧
    buffer_size_ t' = buffer_size_ ex_map.
Proof.
  split; [exact ex_map_reachable|].
  assert (2 * cnt_all_ ex_map ≤ buffer_size_ ex_map) as Hload by (vm_compute; lia).
  split; [exact Hload|]. split; [reflexivity|].
  exact (proj2 (tombstones_not_reused 0 ex_map (3, 8) ex_map_reachable Hload) 4 eq_refl).
Defined.

Lemma robin_hood_ordering_witness :
  reachable ex_map ∧ 3 < buffer_size_ ex_map ∧ status (data_ ex_map !!! 3) = 1%Z ∧
  (get_hash ex_map (key_of (data_ ex_map !!! 3)) + dist_to_ideal (data_ ex_map !!! 3))
    mod buffer_size_ ex_map = 3.
Proof.
  split; [exact ex_map_reachable|].
  assert (3 < buffer_size_ ex_map) as Hi by (vm_compute; lia).
  split; [exact Hi|]. split; [reflexivity|].
  exact (proj1 (proj2 (robin_hood_ordering ex_map 3 ex_map_reachable Hi eq_refl))).
Defined.

Lemma counters_count_slots_witness :
  reachable ex_map ∧ size ex_map = count_occupied (data_ ex_map).
Proof.
  split; [exact ex_map_reachable|].
  exact (proj1 (proj2 (proj2 (counters_count_slots ex_map ex_map_reachable)))).
Defined.

Lemma exerciser_matches_reference_witness :
  (Z.of_nat (length [CmdUpsert 1 5; CmdUpsert 1 6; CmdQuery 1; CmdQuery 2;
                     CmdErase 1; CmdDump; CmdClear]) ≤ 2 ^ 27)%Z ∧
  ∃ out groups,
    main_program 1 Z.to_nat [CmdUpsert 1 5; CmdUpsert 1 6; CmdQuery 1; CmdQuery 2;
                             CmdErase 1; CmdDump; CmdClear] = Some out ∧
    out = concat groups ++
          [LineSize (base.size (ref_final ∅ [CmdUpsert 1 5; CmdUpsert 1 6; CmdQuery 1;
                                             CmdQuery 2; CmdErase 1; CmdDump; CmdClear]))] ∧
    Forall2 (≡ₚ) groups
      (ref_outputs ∅ [CmdUpsert 1 5; CmdUpsert 1 6; CmdQuery 1; CmdQuery 2;
                      CmdErase 1; CmdDump; CmdClear]).
Proof.
  assert (Z.of_nat (length [CmdUpsert 1 5; CmdUpsert 1 6; CmdQuery 1; CmdQuery 2;
                            CmdErase 1; CmdDump; CmdClear]) ≤ 2 ^ 27)%Z as Hn
    by (simpl; lia).
  split; [exact Hn|].
  exact (exerciser_matches_reference 0 Z.to_nat _ Hn).
Defined.

(** The program on a short input: the value of key 1 after two upserts,
    [-1] for the absent key 2, and one key left at the end. *)
Example main_program_run :
  main_program 1 Z.to_nat [CmdUpsert 1 5; CmdUpsert 1 6; CmdQuery 1; CmdQuery 2;
                           CmdUpsert 3 4; CmdErase 1; CmdDump] =
  Some [LineValue 6; LineValue (-1); LinePair 3 4; LineSize 1].
Proof. vm_compute. reflexivity. Qed.

Lemma construction_from_range_witness :
  reachable ex_map ∧ length (data_ ex_map) < 17 ∧
  ∃ t, HashMap_of_range 17 1 ex_hash ex_map (begin ex_map) (end_ ex_map) = Some t ∧
    contents t = contents ex_map ∧ cnt_dead_ t = 0.
Proof.
  split; [exact ex_map_reachable|].
  assert (length (data_ ex_map) < 17) as Hn by (vm_compute; lia).
  split; [exact Hn|].
  destruct (construction_from_range 17 0 ex_hash ex_map ex_map_reachable Hn)
    as (t & Hrun & _ & Hc & _ & _ & Hd & _).
  exists t. split; [exact Hrun|]. split; [exact Hc|exact Hd].
Defined.

Lemma at_reads_last_write_witness :
  reachable ex_map ∧ (Z.of_nat (buffer_size_ ex_map) ≤ 2 ^ 30)%Z ∧
  ∃ t' it, operator_index 1 ex_map 3 = Some (t', it) ∧
    at_ (write_second t' it 7) 3 = inr 7 ∧
    at_ (erase (write_second t' it 7) 3) 3 = inl KeyNotFound.
Proof.
  split; [exact ex_map_reachable|]. split; [exact ex_map_small|].
  destruct (at_reads_last_write 0 ex_map 3 7 ex_map_reachable ex_map_small)
    as (t' & it & Hidx & Hat & _ & Hgone & _).
  exists t', it. split; [exact Hidx|]. split; [exact Hat|exact Hgone].
Defined.

